(** * dictionary.py: the trie dictionary and the Scrabble board

    A shallow embedding of [src/dictionary.py]: the [Trie] and the
    [Dictionary] built on it, and the [Board] placement engine.
    Python strings are ASCII [string]s, Python dicts that are iterated
    are association lists in insertion order, integers are [Z], and a
    Python exception is the [Raise] case of [Result]. *)

From Stdlib Require Import ZArith List String Ascii Bool Lia Permutation
  Sorted.
Import ListNotations.

Set Warnings "-register-all".

Local Open Scope string_scope.
Local Open Scope list_scope.
Local Open Scope Z_scope.

(** ** Python primitives used by the source *)

Module Py.

(** The built-in exceptions the modelled code can raise. *)
Inductive Exc : Type :=
| IndexError
| KeyError
| ValueError
| StopIteration.

Inductive Result (A : Type) : Type :=
| Ok (a : A)
| Raise (e : Exc).

Arguments Ok {A} a.
Arguments Raise {A} e.

Definition bind {A B : Type} (m : Result A) (k : A -> Result B) : Result B :=
  match m with
  | Ok a => k a
  | Raise e => Raise e
  end.

(** Index normalisation of a Python sequence of length [n]: indices
    [-n <= i < 0] count from the end, anything outside
    [-n <= i < n] is out of range. *)
Definition index_of (n : nat) (i : Z) : option nat :=
  let j := if i <? 0 then i + Z.of_nat n else i in
  if (0 <=? j) && (j <? Z.of_nat n) then Some (Z.to_nat j) else None.

(** [l[i]]: IndexError out of range. *)
Definition getitem {A : Type} (l : list A) (i : Z) : Result A :=
  match index_of (List.length l) i with
  | Some k =>
      match nth_error l k with
      | Some a => Ok a
      | None => Raise IndexError
      end
  | None => Raise IndexError
  end.

Fixpoint update {A : Type} (l : list A) (k : nat) (v : A) : list A :=
  match l, k with
  | [], _ => []
  | _ :: t, O => v :: t
  | a :: t, S k' => a :: update t k' v
  end.

(** [l[i] = v]: IndexError out of range. *)
Definition setitem {A : Type} (l : list A) (i : Z) (v : A)
  : Result (list A) :=
  match index_of (List.length l) i with
  | Some k => Ok (update l k v)
  | None => Raise IndexError
  end.

(** [str.upper] and [str.lower] on ASCII text. *)
Definition upper_char (c : ascii) : ascii :=
  let n := nat_of_ascii c in
  if (Nat.leb 97 n && Nat.leb n 122)%bool then ascii_of_nat (n - 32)%nat else c.

Definition lower_char (c : ascii) : ascii :=
  let n := nat_of_ascii c in
  if (Nat.leb 65 n && Nat.leb n 90)%bool then ascii_of_nat (n + 32)%nat else c.

Fixpoint upper (s : string) : string :=
  match s with
  | EmptyString => EmptyString
  | String c s' => String (upper_char c) (upper s')
  end.

Fixpoint lower (s : string) : string :=
  match s with
  | EmptyString => EmptyString
  | String c s' => String (lower_char c) (lower s')
  end.

(** [str.isalpha] on one ASCII character. *)
Definition isalpha (c : ascii) : bool :=
  let n := nat_of_ascii c in
  ((Nat.leb 65 n && Nat.leb n 90) || (Nat.leb 97 n && Nat.leb n 122))%bool.

(** [s + c] for a one-character string [c]. *)
Definition add_char (s : string) (c : ascii) : string :=
  (s ++ String c EmptyString)%string.

(** [s[:-1]]: everything but the last character; the empty string
    stays empty. *)
Fixpoint drop_last (s : string) : string :=
  match s with
  | EmptyString => EmptyString
  | String c EmptyString => EmptyString
  | String c s' => String c (drop_last s')
  end.

(** [s[k:]] for [0 <= k]. *)
Fixpoint drop (k : nat) (s : string) : string :=
  match k, s with
  | O, _ => s
  | S _, EmptyString => EmptyString
  | S k', String _ s' => drop k' s'
  end.

(** [s[-n:]]: the last [n] characters, the whole of [s] when it is
    shorter than [n], and also the whole of [s] when [n = 0], since
    [-0] is [0]. *)
Definition slice_last (n : nat) (s : string) : string :=
  match n with
  | O => s
  | _ => drop (String.length s - n)%nat s
  end.

(** [needle in hay] on strings. *)
Fixpoint contains (needle hay : string) : bool :=
  (String.prefix needle hay ||
   match hay with
   | EmptyString => false
   | String _ hay' => contains needle hay'
   end)%bool.

(** [word[:limit]] for [0 <= limit]. *)
Fixpoint take (k : nat) (s : string) : string :=
  match k, s with
  | O, _ => EmptyString
  | S _, EmptyString => EmptyString
  | S k', String c s' => String c (take k' s')
  end.

(** [itertools.permutations(word)]: every ordering of the positions
    of [word], in lexicographic order of the positions.  [picks l]
    lists, position by position, the element taken and what is left. *)
Fixpoint picks {A : Type} (l : list A) : list (A * list A) :=
  match l with
  | [] => []
  | x :: t => (x, t) :: map (fun yr => (fst yr, x :: snd yr)) (picks t)
  end.

Fixpoint permutations_of_size {A : Type} (n : nat) (l : list A)
  : list (list A) :=
  match n with
  | O => [[]]
  | S n' =>
      flat_map
        (fun xr => map (cons (fst xr)) (permutations_of_size n' (snd xr)))
        (picks l)
  end.

Definition permutations {A : Type} (l : list A) : list (list A) :=
  permutations_of_size (List.length l) l.

(** [list(set(l))]: the distinct elements of [l]; Python leaves the
    order of a set unspecified, so only membership is meaningful. *)
Definition list_set (l : list string) : list string :=
  nodup string_dec l.

(** [sorted(l, key=...)] and [l.sort()]: a stable sort, written as an
    insertion sort; [leb a b] says that the key of [a] is not greater
    than the key of [b], and elements with equal keys keep their order. *)
Fixpoint insert_sorted {A : Type} (leb : A -> A -> bool) (x : A)
  (l : list A) : list A :=
  match l with
  | [] => [x]
  | y :: l' => if leb x y then x :: l else y :: insert_sorted leb x l'
  end.

Definition sorted {A : Type} (leb : A -> A -> bool) (l : list A) : list A :=
  fold_right (insert_sorted leb) [] l.

(** [x in l] on a list of one-character strings. *)
Definition list_in (x : ascii) (l : list ascii) : bool :=
  existsb (Ascii.eqb x) l.

(** [l.remove(x)]: the first occurrence goes; ValueError when there is
    none. *)
Fixpoint list_remove (x : ascii) (l : list ascii) : Result (list ascii) :=
  match l with
  | [] => Raise ValueError
  | y :: l' =>
      if Ascii.eqb y x then Ok l'
      else match list_remove x l' with
           | Ok r => Ok (y :: r)
           | Raise e => Raise e
           end
  end.

End Py.

Import Py.

Declare Scope py_scope.
Delimit Scope py_scope with py.
Notation "x <- m ;; k" := (Py.bind m (fun x => k))
  (at level 61, m at next level, right associativity) : py_scope.
Notation "' p <- m ;; k" := (Py.bind m (fun p => k))
  (at level 61, p pattern, m at next level, right associativity) : py_scope.

(** ** class TrieNode, class Trie *)

(** [children] is a Python dict, iterated by the walks below in
    insertion order: an association list with unique keys. *)
Inductive TrieNode : Type :=
| Node (children : list (ascii * TrieNode)) (defn : string) (end_ : bool).

Definition children (n : TrieNode) : list (ascii * TrieNode) :=
  match n with Node cs _ _ => cs end.

Definition defn (n : TrieNode) : string :=
  match n with Node _ d _ => d end.

Definition end_ (n : TrieNode) : bool :=
  match n with Node _ _ e => e end.

(** [TrieNode()] *)
Definition new_node : TrieNode := Node [] "" false.

Module Trie.

(** [node.children[char]] when [char in node.children]. *)
Fixpoint child (char : ascii) (cs : list (ascii * TrieNode))
  : option TrieNode :=
  match cs with
  | [] => None
  | (k, n) :: cs' => if Ascii.eqb k char then Some n else child char cs'
  end.

(** [node.children[char] = n]: an existing key keeps its place, a new
    key goes last. *)
Fixpoint set_child (char : ascii) (n : TrieNode)
  (cs : list (ascii * TrieNode)) : list (ascii * TrieNode) :=
  match cs with
  | [] => [(char, n)]
  | (k, m) :: cs' =>
      if Ascii.eqb k char then (k, n) :: cs'
      else (k, m) :: set_child char n cs'
  end.

(** A [Trie] object is its root node. *)
Record t : Type := Build { root : TrieNode }.

Definition empty : t := Build new_node.

Fixpoint insert_at (node : TrieNode) (word : string) (d : string)
  : TrieNode :=
  match word with
  | EmptyString => Node (children node) d true
  | String char word' =>
      let next :=
        match child char (children node) with
        | Some n => n
        | None => new_node
        end in
      Node (set_child char (insert_at next word' d) (children node))
           (defn node) (end_ node)
  end.

Definition insert (tr : t) (word : string) (d : string) : t :=
  Build (insert_at (root tr) word d).

(** [build_trie(words, limit)] *)
Definition build_trie (tr : t) (words : list string) (limit : option nat)
  : t :=
  match limit with
  | None => fold_left (fun acc w => insert acc w "") words tr
  | Some k => fold_left (fun acc w => insert acc (Py.take k w) "") words tr
  end.

(** [build_trie_defs(words, defs)]: [defs[index]] raises IndexError
    when [defs] is shorter than [words]. *)
Fixpoint build_trie_defs (tr : t) (words defs : list string)
  : Result t :=
  match words, defs with
  | [], _ => Ok tr
  | _ :: _, [] => Raise IndexError
  | w :: ws, d :: ds => build_trie_defs (insert tr w d) ws ds
  end.

(** The walk shared by [search], [get_defn] and [auto_complete]. *)
Fixpoint descend (node : TrieNode) (word : string) : option TrieNode :=
  match word with
  | EmptyString => Some node
  | String char word' =>
      match child char (children node) with
      | Some n => descend n word'
      | None => None
      end
  end.

Fixpoint has_prefix_loop (prefix rest temp_word : string)
  (node : TrieNode) : bool :=
  match rest with
  | EmptyString => false
  | String char rest' =>
      let temp_word := Py.add_char temp_word char in
      if String.eqb temp_word prefix then true
      else
        match child char (children node) with
        | Some n => has_prefix_loop prefix rest' temp_word n
        | None => false
        end
  end.

Definition has_prefix (tr : t) (prefix : string) : bool :=
  has_prefix_loop prefix prefix "" (root tr).

Definition search (tr : t) (word : string) : bool :=
  match descend (root tr) word with
  | Some n => end_ n
  | None => false
  end.

(** [get_defn]: [None] is the Python value [False] of the source. *)
Definition get_defn (tr : t) (word : string) : option string :=
  match descend (root tr) word with
  | Some n => Some (defn n)
  | None => None
  end.

(** [walk_trie]: the words appended to [word_list], in order. *)
Fixpoint walk_trie (node : TrieNode) (word : string) : list string :=
  match node with
  | Node cs _ _ =>
      (fix loop (cs : list (ascii * TrieNode)) : list string :=
         match cs with
         | [] => []
         | (char, n) :: cs' =>
             let word_new := Py.add_char word char in
             (if end_ n then [word_new] else [])
               ++ walk_trie n word_new ++ loop cs'
         end) cs
  end.

Fixpoint walk_trie_fixed_length (node : TrieNode) (word : string)
  (length : nat) : list string :=
  match node with
  | Node cs _ _ =>
      (fix loop (cs : list (ascii * TrieNode)) : list string :=
         match cs with
         | [] => []
         | (char, n) :: cs' =>
             let word_new := Py.add_char word char in
             (if (end_ n && Nat.eqb (String.length word_new) length)%bool
              then [word_new] else [])
               ++ (if Nat.leb (String.length word_new) length
                   then walk_trie_fixed_length n word_new length else [])
               ++ loop cs'
         end) cs
  end.

(** [walk_trie_defs]: [word_list] and [def_list] grow together, so
    they are one list of pairs. *)
Fixpoint walk_trie_defs (node : TrieNode) (word : string)
  : list (string * string) :=
  match node with
  | Node cs _ _ =>
      (fix loop (cs : list (ascii * TrieNode)) : list (string * string) :=
         match cs with
         | [] => []
         | (char, n) :: cs' =>
             let word_new := Py.add_char word char in
             (if end_ n then [(word_new, defn n)] else [])
               ++ walk_trie_defs n word_new ++ loop cs'
         end) cs
  end.

(** [auto_complete(partial_word, node_start)] *)
Definition auto_complete_from (node_start : TrieNode)
  (partial_word : string) : list string :=
  match descend node_start partial_word with
  | None => []
  | Some n =>
      (if end_ n then [partial_word] else []) ++ walk_trie n partial_word
  end.

Definition auto_complete (tr : t) (partial_word : string) : list string :=
  auto_complete_from (root tr) partial_word.

(** [_contains_partial].  The state threaded through the recursion is
    the global [RETRACE_WORD] and the shared [_word_list]; [_prefix]
    is a local of each call, updated by its loop.  [node] in the call
    [self.auto_complete(_prefix, node)] is the variable of the
    enclosing [contains_partial], that is the root.  The loop iterates
    the children of the node the call was entered with, and [_node] is
    back at that node at the end of every iteration. *)
Fixpoint _contains_partial (root_node : TrieNode) (_token : string)
  (_node : TrieNode) (_prefix : string) (st : bool * list string)
  : bool * list string :=
  match _node with
  | Node cs _ _ =>
      (fix loop (cs : list (ascii * TrieNode)) (_prefix : string)
         (st : bool * list string) : bool * list string :=
         match cs with
         | [] => st
         | (char, n) :: cs' =>
             let '(retrace, word_list) := st in
             let _prefix := if retrace then Py.drop_last _prefix
                            else _prefix in
             let retrace := false in
             let _prefix := Py.add_char _prefix char in
             if String.eqb (Py.slice_last (String.length _token) _prefix)
                           _token
             then (* break *)
               (retrace,
                word_list ++ auto_complete_from root_node _prefix)
             else
               match children n with
               | _ :: _ =>
                   let '(retrace', word_list') :=
                     _contains_partial root_node _token n _prefix
                                       (retrace, word_list) in
                   loop cs' _prefix
                        (if Nat.eqb (String.length _prefix) 1 then true
                         else retrace',
                         word_list')
               | [] => loop cs' _prefix (true, word_list)
               end
         end) cs _prefix st
  end.

(** [contains_partial(token)]: the words found, and the value the
    global [RETRACE_WORD] is left with; [retrace_word] is its value
    when the call starts ([False] when the module is loaded). *)
Definition contains_partial (tr : t) (token : string)
  (retrace_word : bool) : list string * bool :=
  let '(r, wl) :=
    _contains_partial (root tr) token (root tr) "" (retrace_word, []) in
  (wl, r).

End Trie.

(** ** class Dictionary *)

Module Dictionary.

(** [__dct] is the trie; [_read_in_file] only fills it. *)
Record t : Type := Build { dct : Trie.t; use_defs : bool }.

Definition is_word (d : t) (word : string) : bool :=
  Trie.search (dct d) (Py.upper word).

Definition get_def (d : t) (word : string) : option string :=
  Trie.get_defn (dct d) (Py.upper word).

(** The two shapes [get_words_with_x_in_def] returns: the dict
    word -> definition, or the one-key defaultdict string -> words. *)
Inductive XInDef : Type :=
| WordDefs (entries : list (string * string))
| KeyWords (key : string) (words : list string).

Definition get_words_with_x_in_def (d : t) (string_ : string)
  (include_def : bool) : XInDef :=
  let pairs := Trie.walk_trie_defs (Trie.root (dct d)) "" in
  let string_ := Py.lower string_ in
  let hits := filter (fun wd => Py.contains string_ (snd wd)) pairs in
  if include_def then WordDefs hits
  else
    match hits with
    | [] => KeyWords string_ [""]
    | _ => KeyWords string_ (map fst hits)
    end.

(** The words [get_words_with_x_in_def] selects, in either shape. *)
Definition words_with_x_in_def (d : t) (string_ : string) : list string :=
  match get_words_with_x_in_def d string_ true with
  | WordDefs hits => map fst hits
  | KeyWords _ ws => ws
  end.

Definition get_x_letter_words (d : t) (length : nat) : list string :=
  Trie.walk_trie_fixed_length (Trie.root (dct d)) "" length.

Definition has_words_starting_with (d : t) (root : string) : bool :=
  Trie.has_prefix (dct d) root.

Definition get_words_starting_with (d : t) (root : string) : list string :=
  Trie.auto_complete (dct d) root.

Definition get_words_containing (d : t) (token : string)
  (retrace_word : bool) : list string * bool :=
  Trie.contains_partial (dct d) token retrace_word.

(** [_find_permutations(word)], each tuple already joined. *)
Definition _find_permutations (word : string) : list string :=
  map string_of_list_ascii (Py.permutations (list_ascii_of_string word)).

Definition find_anagrams (d : t) (word : string) : list string :=
  Py.list_set (filter (Trie.search (dct d)) (_find_permutations word)).

(** [is_defn]: [defn in def_list]. *)
Definition is_defn (d : t) (defn : string) : bool :=
  existsb (String.eqb defn)
          (map snd (Trie.walk_trie_defs (Trie.root (dct d)) "")).

(** [word_list[def_list.index(defn)]]: the word of the first definition
    equal to [defn]; [index] raises ValueError when there is none. *)
Fixpoint word_at_def (defn : string) (pairs : list (string * string))
  : Result string :=
  match pairs with
  | [] => Raise ValueError
  | wd :: rest =>
      if String.eqb (snd wd) defn then Ok (fst wd)
      else word_at_def defn rest
  end.

Definition get_word_from_def (d : t) (defn : string) : Result string :=
  word_at_def defn (Trie.walk_trie_defs (Trie.root (dct d)) "").

(** [_find_subanagrams(_word, _word_list)]: the words appended; [n] is
    [len(_word)], one less in each nested call. *)
Fixpoint _find_subanagrams (n : nat) (d : t) (_word : string)
  : list string :=
  find_anagrams d _word
    ++ match n with
       | S (S _ as n') =>
           flat_map
             (fun xr =>
                _find_subanagrams n' d (string_of_list_ascii (snd xr)))
             (Py.picks (list_ascii_of_string _word))
       | _ => []
       end.

(** The order of [_custom_key]: [(-len(a), a.lower()) <= (-len(b),
    b.lower())]. *)
Definition _custom_key_leb (a b : string) : bool :=
  if Nat.ltb (String.length b) (String.length a) then true
  else if Nat.ltb (String.length a) (String.length b) then false
  else String.leb (Py.lower a) (Py.lower b).

Definition find_subanagrams (d : t) (word : string) (sort_by_length : bool)
  : list string :=
  let word_list :=
    Py.list_set (_find_subanagrams (String.length word) d word) in
  if sort_by_length then Py.sorted _custom_key_leb word_list
  else Py.sorted String.leb word_list.

End Dictionary.

(** ** Module-level constants of the Scrabble engine *)

Definition BLANK_TILE_CHAR : ascii := "?"%char.

Definition LETTER_DISTRIBUTION : list string :=
  ["A9"; "B2"; "C2"; "D4"; "E12"; "F2"; "G3"; "H2"; "I9";
   "J1"; "K1"; "L4"; "M2"; "N6"; "O8"; "P2"; "Q1"; "R6";
   "S4"; "T6"; "U4"; "V2"; "W2"; "X1"; "Y2"; "Z1";
   String BLANK_TILE_CHAR "2"].

Definition LETTER_SCORING : list Z :=
  [1; 3; 3; 2; 1; 4; 2; 4; 1;
   8; 5; 1; 3; 1; 1; 3; 10; 1;
   1; 1; 1; 4; 4; 8; 4; 10;
   0].

(** [LETTER_DICTIONARY[letter]]: "A" -> 0 ... "Z" -> 25, the blank -> 26,
    KeyError for any other key. *)
Definition LETTER_DICTIONARY (letter : ascii) : Result Z :=
  let n := nat_of_ascii letter in
  if (Nat.leb 65 n && Nat.leb n 90)%bool then Ok (Z.of_nat n - 65)
  else if Ascii.eqb letter BLANK_TILE_CHAR then Ok 26
  else Raise KeyError.

Definition WORD_MULTIPLIER : string := "W".
Definition LETTER_MULTIPLIER : string := "L".

Definition SCRABBLE_BOARD_MULTIPLIERS : list (list string) :=
  [["3W"; "1L"; "1L"; "2L"; "1L"; "1L"; "1L"; "3W"; "1L"; "1L"; "1L"; "2L"; "1L"; "1L"; "3W"];
   ["1L"; "2W"; "1L"; "1L"; "1L"; "3L"; "1L"; "1L"; "1L"; "3L"; "1L"; "1L"; "1L"; "2W"; "1L"];
   ["1L"; "1L"; "2W"; "1L"; "1L"; "1L"; "2L"; "1L"; "2L"; "1L"; "1L"; "1L"; "2W"; "1L"; "1L"];
   ["2L"; "1L"; "1L"; "2W"; "1L"; "1L"; "1L"; "2L"; "1L"; "1L"; "1L"; "2W"; "1L"; "1L"; "2L"];
   ["1L"; "1L"; "1L"; "1L"; "2W"; "1L"; "1L"; "1L"; "1L"; "1L"; "2W"; "1L"; "1L"; "1L"; "1L"];
   ["1L"; "3L"; "1L"; "1L"; "1L"; "3L"; "1L"; "1L"; "1L"; "3L"; "1L"; "1L"; "1L"; "3L"; "1L"];
   ["1L"; "1L"; "2L"; "1L"; "1L"; "1L"; "2L"; "1L"; "2L"; "1L"; "1L"; "1L"; "2L"; "1L"; "1L"];
   ["3W"; "1L"; "1L"; "2L"; "1L"; "1L"; "1L"; "2W"; "1L"; "1L"; "1L"; "2L"; "1L"; "1L"; "3W"];
   ["1L"; "1L"; "2L"; "1L"; "1L"; "1L"; "2L"; "1L"; "2L"; "1L"; "1L"; "1L"; "2L"; "1L"; "1L"];
   ["1L"; "3L"; "1L"; "1L"; "1L"; "3L"; "1L"; "1L"; "1L"; "3L"; "1L"; "1L"; "1L"; "3L"; "1L"];
   ["1L"; "1L"; "1L"; "1L"; "2W"; "1L"; "1L"; "1L"; "1L"; "1L"; "2W"; "1L"; "1L"; "1L"; "1L"];
   ["2L"; "1L"; "1L"; "2W"; "1L"; "1L"; "1L"; "2L"; "1L"; "1L"; "1L"; "2W"; "1L"; "1L"; "2L"];
   ["1L"; "1L"; "2W"; "1L"; "1L"; "1L"; "2L"; "1L"; "2L"; "1L"; "1L"; "1L"; "2W"; "1L"; "1L"];
   ["1L"; "2W"; "1L"; "1L"; "1L"; "3L"; "1L"; "1L"; "1L"; "3L"; "1L"; "1L"; "1L"; "2W"; "1L"];
   ["3W"; "1L"; "1L"; "2L"; "1L"; "1L"; "1L"; "3W"; "1L"; "1L"; "1L"; "2L"; "1L"; "1L"; "3W"]].

Definition INVALID_PLAY : Z := -1.

(** [int(s)] and [float(s)] on the numerals the repository's tables
    use: a non-empty run of decimal digits, read as an integer (such a
    float is exact).  Python accepts further spellings (signs, blanks,
    fractions, exponents); they are outside the model and read as the
    ValueError an ill-formed numeral gives. *)
Definition digit_value (c : ascii) : option Z :=
  let n := nat_of_ascii c in
  if (Nat.leb 48 n && Nat.leb n 57)%bool then Some (Z.of_nat n - 48)
  else None.

Fixpoint parse_digits (s : string) (acc : Z) : option Z :=
  match s with
  | EmptyString => Some acc
  | String c s' =>
      match digit_value c with
      | Some d => parse_digits s' (10 * acc + d)
      | None => None
      end
  end.

Definition parse_number (s : string) : Result Z :=
  match s with
  | EmptyString => Raise ValueError
  | _ =>
      match parse_digits s 0 with
      | Some v => Ok v
      | None => Raise ValueError
      end
  end.

(** [Dictionary.get_word_score(word, letter_scoring)] *)
Fixpoint get_word_score_from (word : string) (letter_scoring : list Z)
  (total_score : Z) : Result Z :=
  match word with
  | EmptyString => Ok total_score
  | String letter word' =>
      (i <- LETTER_DICTIONARY letter ;;
       s <- Py.getitem letter_scoring i ;;
       get_word_score_from word' letter_scoring (total_score + s))%py
  end.

Definition get_word_score (word : string) (letter_scoring : option (list Z))
  : Result Z :=
  get_word_score_from word
    (match letter_scoring with Some ls => ls | None => LETTER_SCORING end) 0.

(** [word_score_dct[word] = score] on a dict kept in insertion order:
    a key already present keeps its place. *)
Fixpoint dict_set {V : Type} (k : string) (v : V) (l : list (string * V))
  : list (string * V) :=
  match l with
  | [] => [(k, v)]
  | kv :: l' =>
      if String.eqb (fst kv) k then (fst kv, v) :: l'
      else kv :: dict_set k v l'
  end.

(** [_sort_by_value(dct)] *)
Definition _sort_by_value (dct : list (string * Z)) : list (string * Z) :=
  Py.sorted (fun a b => snd a <=? snd b) dct.

(** The loop of [get_highest_scoring_words] that fills
    [word_score_dct]. *)
Fixpoint score_words (word_list : list string)
  (word_score_dct : list (string * Z)) : Result (list (string * Z)) :=
  match word_list with
  | [] => Ok word_score_dct
  | word :: rest =>
      (s <- get_word_score word None ;;
       score_words rest (dict_set word s word_score_dct))%py
  end.

(** [Dictionary.get_highest_scoring_words(word_list)]; [None] and the
    empty list stand for every word of the dictionary. *)
Definition get_highest_scoring_words (d : Dictionary.t)
  (word_list : option (list string)) : Result (list (string * Z)) :=
  let word_list :=
    match word_list with
    | None | Some [] => Trie.walk_trie (Trie.root (Dictionary.dct d)) ""
    | Some l => l
    end in
  (word_score_dct <- score_words word_list [] ;;
   Ok (_sort_by_value word_score_dct))%py.

(** [Dictionary.get_dct()]: the words and definitions of the walk,
    assigned one after the other to a new dict; without definitions
    every word gets the empty string. *)
Definition get_dct (d : Dictionary.t) : list (string * string) :=
  let pairs :=
    if Dictionary.use_defs d
    then Trie.walk_trie_defs (Trie.root (Dictionary.dct d)) ""
    else map (fun word => (word, ""))
             (Trie.walk_trie (Trie.root (Dictionary.dct d)) "") in
  fold_left (fun dct wd => dict_set (fst wd) (snd wd) dct) pairs [].

(** [_can_make_word_from_letters(word, available_letters)]: the answer
    and the list [available_letters] as the call leaves it. *)
Fixpoint _can_make_word_from_letters (word : string)
  (available_letters : list ascii) : bool * list ascii :=
  match word with
  | EmptyString => (true, available_letters)
  | String letter word' =>
      if Py.list_in letter available_letters then
        match Py.list_remove letter available_letters with
        | Ok rest => _can_make_word_from_letters word' rest
        | Raise _ => (false, available_letters)
        end
      else (false, available_letters)
  end.

(** [_remove_word_from_letters(word, available_letters)]: the list as
    left, or the ValueError of [remove]. *)
Fixpoint _remove_word_from_letters (word : string)
  (available_letters : list ascii) : Result (list ascii) :=
  match word with
  | EmptyString => Ok available_letters
  | String letter word' =>
      (rest <- Py.list_remove letter available_letters ;;
       _remove_word_from_letters word' rest)%py
  end.

(** The [for letter in word] loop of [_remove_words_requiring_blank] on
    its copy of the letters: False when the word is removed. *)
Fixpoint word_fits_letters (word : string)
  (copy_available_letters : list ascii) : bool :=
  match word with
  | EmptyString => true
  | String letter word' =>
      if Py.list_in letter copy_available_letters then
        match Py.list_remove letter copy_available_letters with
        | Ok rest => word_fits_letters word' rest
        | Raise _ => false
        end
      else false
  end.

(** [_remove_words_requiring_blank(word_dct, available_letters)]: the
    loop visits the keys in order and pops the words that do not fit. *)
Fixpoint _remove_words_requiring_blank {V : Type}
  (word_dct : list (string * V)) (available_letters : list ascii)
  : list (string * V) :=
  match word_dct with
  | [] => []
  | wv :: rest =>
      if word_fits_letters (fst wv) available_letters
      then wv :: _remove_words_requiring_blank rest available_letters
      else _remove_words_requiring_blank rest available_letters
  end.

(** [_fill_bag]: with the default distribution the letters go to the
    global [LETTER_LIST] (not modelled) and the function returns None. *)
Fixpoint fill_letters (letter_distribution : list string)
  (letter_list : list ascii) : Result (list ascii) :=
  match letter_distribution with
  | [] => Ok letter_list
  | letter_dist :: rest =>
      (dist <- parse_number (Py.drop 1 letter_dist) ;;
       let letters_to_add :=
         match letter_dist with
         | EmptyString => []
         | String letter _ => repeat letter (Z.to_nat dist)
         end in
       fill_letters rest (letter_list ++ letters_to_add))%py
  end.

Definition _fill_bag (letter_distribution : option (list string))
  : Result (option (list ascii)) :=
  match letter_distribution with
  | None => (_ <- fill_letters LETTER_DISTRIBUTION [] ;; Ok None)%py
  | Some ld => (l <- fill_letters ld [] ;; Ok (Some l))%py
  end.

Definition _create_2d_list {A : Type} (total_rows total_cols : nat)
  (value : A) : list (list A) :=
  repeat (repeat value total_cols) total_rows.

(** ** class Board *)

Module Board.

Inductive Direction : Type := DOWN | RIGHT.

(** A tile is a one-letter string; None is an empty cell. *)
Definition Grid : Type := list (list (option ascii)).

Record t : Type := Build {
  dct : Dictionary.t;
  board : Grid;
  multipliers : list (list string);
  letter_dist : option (list ascii);
  letter_scoring : list Z;
  last_play : list (Z * Z) }.

Definition _set_board (board : option Grid)
  (board_multipliers : option (list (list string))) : Result Grid :=
  match board, board_multipliers with
  | None, None =>
      (r0 <- Py.getitem SCRABBLE_BOARD_MULTIPLIERS 0 ;;
       Ok (_create_2d_list (List.length SCRABBLE_BOARD_MULTIPLIERS)
                           (List.length r0) None))%py
  | None, Some bm =>
      (r0 <- Py.getitem bm 0 ;;
       Ok (_create_2d_list (List.length bm) (List.length r0) None))%py
  | Some b, _ => Ok b
  end.

Definition _set_board_multipliers
  (board_multipliers : option (list (list string))) : list (list string) :=
  match board_multipliers with
  | None => SCRABBLE_BOARD_MULTIPLIERS
  | Some bm => bm
  end.

Definition _set_letter_scoring (letter_scoring : option (list Z))
  : list Z :=
  match letter_scoring with
  | None => LETTER_SCORING
  | Some ls => ls
  end.

(** [Board.__init__] *)
Definition init (game_dct : Dictionary.t) (board : option Grid)
  (board_multipliers : option (list (list string)))
  (letter_dist : option (list string)) (letter_scoring : option (list Z))
  : Result t :=
  (b <- _set_board board board_multipliers ;;
   let m := _set_board_multipliers board_multipliers in
   ld <- _fill_bag letter_dist ;;
   Ok (Build game_dct b m ld (_set_letter_scoring letter_scoring) []))%py.

(** *** Reads of the object *)

Definition _is_valid_coord (self : t) (row col : Z) : bool :=
  (0 <=? row) && (row <? Z.of_nat (List.length (board self)))
  && ((0 <=? col) && (col <? Z.of_nat (List.length (hd [] (board self))))).

(** [self.board[row][col]] *)
Definition cell (self : t) (row col : Z) : Result (option ascii) :=
  (r <- Py.getitem (board self) row ;; Py.getitem r col)%py.

Definition is_some {A : Type} (o : option A) : bool :=
  match o with Some _ => true | None => false end.

Definition is_empty (self : t) : bool :=
  forallb (forallb (fun tile => negb (is_some tile))) (board self).

(** Index of the first alphabetic character of [s], which is what
    [s.find(next(filter(str.isalpha, s)))] computes. *)
Fixpoint first_alpha (s : string) : Result nat :=
  match s with
  | EmptyString => Raise StopIteration
  | String c s' =>
      if Py.isalpha c then Ok O
      else (i <- first_alpha s' ;; Ok (S i))%py
  end.

Definition get_multiplier (self : t) (row col : Z) : Result Z :=
  (r <- Py.getitem (multipliers self) row ;;
   tile_multiplier <- Py.getitem r col ;;
   multiplier_identifier_index <- first_alpha tile_multiplier ;;
   multiplier <-
     parse_number (Py.take multiplier_identifier_index tile_multiplier) ;;
   Ok (if Py.contains WORD_MULTIPLIER tile_multiplier
       then multiplier * -1 else multiplier))%py.

Definition get_score (self : t) (word : string) : Result Z :=
  get_word_score word (Some (letter_scoring self)).

(** The [while] loop of [_get_cross_word_score_piece]; it ends at an
    empty cell or with the IndexError of a cell out of range, after
    at most [walk_fuel] cells. *)
Fixpoint piece_walk (fuel : nat) (self : t)
  (new_row new_col new_row_delta new_col_delta cross_score : Z)
  : Result Z :=
  match fuel with
  | O => Raise IndexError
  | S fuel' =>
      (x <- cell self new_row new_col ;;
       match x with
       | None => Ok cross_score
       | Some tile =>
           s <- get_score self (String tile EmptyString) ;;
           piece_walk fuel' self (new_row + new_row_delta)
                      (new_col + new_col_delta)
                      new_row_delta new_col_delta (cross_score + s)
       end)%py
  end.

Definition walk_fuel (self : t) (row : Z) : nat :=
  (2 * (List.length (board self)
        + match Py.getitem (board self) row with
          | Ok r => List.length r
          | Raise _ => 0
          end) + 2)%nat.

Definition _get_cross_word_score_piece (self : t) (row col : Z)
  (cross_dir : Direction) (is_neg_dir : bool) : Result Z :=
  let '(new_row_delta, new_col_delta) :=
    match cross_dir with
    | DOWN => (if is_neg_dir then -1 else 1, 0)
    | RIGHT => (0, if is_neg_dir then -1 else 1)
    end in
  piece_walk (walk_fuel self row) self
             (row + new_row_delta) (col + new_col_delta)
             new_row_delta new_col_delta 0.

Definition _get_cross_word_score (self : t) (letter : ascii)
  (row col : Z) (direction : Direction) (multiplier : Z) : Result Z :=
  let new_direction :=
    match direction with DOWN => RIGHT | RIGHT => DOWN end in
  (before <- _get_cross_word_score_piece self row col new_direction true ;;
   after <- _get_cross_word_score_piece self row col new_direction false ;;
   s <- get_score self (String letter EmptyString) ;;
   let score := 0 + before + after in
   if multiplier >=? 0 then Ok ((score + s * multiplier) * 1)
   else Ok ((score + s) * (1 * Z.abs multiplier)))%py.

(** [self._is_valid_coord(r, c) and self.board[r][c] is not None] *)
Definition occupied_at (self : t) (row col : Z) : Result bool :=
  if _is_valid_coord self row col
  then (x <- cell self row col ;; Ok (is_some x))%py
  else Ok false.

(** [a or b] on two such tests: [b] is evaluated only when [a] is
    false. *)
Definition or_else (a b : Result bool) : Result bool :=
  (x <- a ;; if (x : bool) then Ok true else b)%py.

Definition _is_touching_word (self : t) (row col : Z)
  (direction : Direction) : Result bool :=
  (here <- cell self row col ;;
   if is_some here then Ok true
   else
     sides <-
       match direction with
       | DOWN => or_else (occupied_at self row (col - 1))
                         (occupied_at self row (col + 1))
       | RIGHT => or_else (occupied_at self (row - 1) col)
                          (occupied_at self (row + 1) col)
       end ;;
     if (sides : bool) then Ok true
     else
       before <-
         match direction with
         | DOWN => occupied_at self (row - 1) col
         | RIGHT => occupied_at self row (col - 1)
         end ;;
       if (before && (List.length (last_play self) =? 0)%nat)%bool
       then Ok true
       else
         match direction with
         | DOWN => occupied_at self (row + 1) col
         | RIGHT => occupied_at self row (col + 1)
         end)%py.

(** The test [self.board[row][col-1] is not None or
    self.board[row][col+1] is not None] of [set_word] (rows for
    RIGHT): plain indexing, no [_is_valid_coord]. *)
Definition has_perpendicular_neighbour (self : t) (row col : Z)
  (direction : Direction) : Result bool :=
  match direction with
  | DOWN =>
      or_else (x <- cell self row (col - 1) ;; Ok (is_some x))%py
              (x <- cell self row (col + 1) ;; Ok (is_some x))%py
  | RIGHT =>
      or_else (x <- cell self (row - 1) col ;; Ok (is_some x))%py
              (x <- cell self (row + 1) col ;; Ok (is_some x))%py
  end.

(** *** Methods that change the object

    A method maps the object to its result and the object it leaves
    behind; an exception leaves the writes made before it in place. *)
Definition M (A : Type) : Type := t -> Result A * t.

Definition ret {A : Type} (a : A) : M A := fun self => (Ok a, self).

Definition bindM {A B : Type} (m : M A) (k : A -> M B) : M B :=
  fun self =>
    match m self with
    | (Ok a, self') => k a self'
    | (Raise e, self') => (Raise e, self')
    end.

Definition read {A : Type} (f : t -> Result A) : M A :=
  fun self => (f self, self).

Definition with_board (self : t) (g : Grid) : t :=
  Build (dct self) g (multipliers self) (letter_dist self)
        (letter_scoring self) (last_play self).

Definition with_last_play (self : t) (lp : list (Z * Z)) : t :=
  Build (dct self) (board self) (multipliers self) (letter_dist self)
        (letter_scoring self) lp.

(** [self.board[row][col] = v].  The grid is a value, which stands for
    a list whose rows are distinct list objects, as [_create_2d_list]
    builds them: the write shows in the one row.  [_set_board] keeps a
    caller's list as it is, and a caller's list that holds one row
    object several times is outside this model: there the write would
    show in each of these rows ([constructed] below names the boards
    that are free of this). *)
Definition set_cell (row col : Z) (v : option ascii) : M unit :=
  fun self =>
    match (r <- Py.getitem (board self) row ;;
           r' <- Py.setitem r col v ;;
           Py.setitem (board self) row r')%py with
    | Ok g => (Ok tt, with_board self g)
    | Raise e => (Raise e, self)
    end.

Definition last_play_append (coord : Z * Z) : M unit :=
  fun self => (Ok tt, with_last_play self (last_play self ++ [coord])).

Definition last_play_clear : M unit :=
  fun self => (Ok tt, with_last_play self []).

Declare Scope board_scope.
Delimit Scope board_scope with board.
Notation "x <- m ;; k" := (bindM m (fun x => k))
  (at level 61, m at next level, right associativity) : board_scope.
Notation "' p <- m ;; k" := (bindM m (fun p => k))
  (at level 61, p pattern, m at next level, right associativity)
  : board_scope.

(** [undo_play] *)
Fixpoint clear_cells (coords : list (Z * Z)) : M unit :=
  match coords with
  | [] => ret tt
  | tuple_coord :: rest =>
      (_ <- set_cell (fst tuple_coord) (snd tuple_coord) None ;;
       clear_cells rest)%board
  end.

Definition undo_play : M unit :=
  fun self => (_ <- clear_cells (last_play self) ;; last_play_clear)%board self.

(** The local variables of [set_word] that its loop updates. *)
Record Vars : Type := MkVars {
  row : Z;
  col : Z;
  valid_play : bool;
  play_through_center : bool;
  touching_word : bool;
  score : Z;
  cross_scores : Z;
  total_multiplier : Z }.

(** [row += 1] for DOWN, [col += 1] otherwise. *)
Definition advance (direction : Direction) (row col : Z) : Z * Z :=
  match direction with
  | DOWN => (row + 1, col)
  | RIGHT => (row, col + 1)
  end.

(** One iteration of [for letter in word] in [set_word]. *)
Definition place_letter (is_first_play : bool)
  (board_center_row board_center_col : Z) (direction : Direction)
  (letter : ascii) (v : Vars) : M Vars :=
  let row := row v in
  let col := col v in
  let '(row', col') := advance direction row col in
  (valid <- read (fun self => Ok (_is_valid_coord self row col)) ;;
   if (valid : bool) then
     let play_through_center :=
       if (is_first_play && (row =? board_center_row)
           && (col =? board_center_col))%bool
       then true else play_through_center v in
     touching <-
       (if (negb (touching_word v) && negb is_first_play)%bool
        then read (fun self => _is_touching_word self row col direction)
        else ret false) ;;
     let touching_word :=
       if (touching : bool) then true else touching_word v in
     here <- read (fun self => cell self row col) ;;
     match here with
     | None =>
         _ <- set_cell row col (Some letter) ;;
         _ <- last_play_append (row, col) ;;
         multiplier <- read (fun self => get_multiplier self row col) ;;
         s <- read (fun self => get_score self (String letter EmptyString)) ;;
         let '(score, word_multiplier) :=
           if multiplier >=? 0 then (score v + s * multiplier, 1)
           else (score v + s, 1 * Z.abs multiplier) in
         crossing <-
           read (fun self =>
                   has_perpendicular_neighbour self row col direction) ;;
         cross <-
           (if (crossing : bool)
            then read (fun self =>
                         _get_cross_word_score self letter row col
                                               direction multiplier)
            else ret 0) ;;
         ret (MkVars row' col' (valid_play v) play_through_center
                     touching_word score (cross_scores v + cross)
                     (total_multiplier v * word_multiplier))
     | Some tile =>
         if Ascii.eqb tile letter then
           s <- read (fun self =>
                        get_score self (String letter EmptyString)) ;;
           ret (MkVars row' col' (valid_play v) play_through_center
                       touching_word (score v + s) (cross_scores v)
                       (total_multiplier v * 1))
         else
           ret (MkVars row' col' false play_through_center
                       touching_word (score v) (cross_scores v)
                       (total_multiplier v * 1))
     end
   else
     ret (MkVars row' col' false (play_through_center v)
                 (touching_word v) (score v) (cross_scores v)
                 (total_multiplier v * 1)))%board.

Fixpoint place_letters (is_first_play : bool)
  (board_center_row board_center_col : Z) (direction : Direction)
  (word : string) (v : Vars) : M Vars :=
  match word with
  | EmptyString => ret v
  | String letter word' =>
      (v' <- place_letter is_first_play board_center_row
                          board_center_col direction letter v ;;
       place_letters is_first_play board_center_row board_center_col
                     direction word' v')%board
  end.

(** [set_word]: the score and whether the play was valid. *)
Definition set_word (word : string) (row col : Z) (direction : Direction)
  : M (Z * bool) :=
  let word := Py.upper word in
  (_ <- last_play_clear ;;
   is_first_play <- read (fun self => Ok (is_empty self)) ;;
   board_center_row <-
     read (fun self => Ok (Z.of_nat (List.length (board self)) / 2)) ;;
   board_center_col <-
     read (fun self =>
             (r0 <- Py.getitem (board self) 0 ;;
              Ok (Z.of_nat (List.length r0) / 2))%py) ;;
   v <- place_letters is_first_play board_center_row board_center_col
                      direction word
                      (MkVars row col true false false 0 0 1) ;;
   let score := score v * total_multiplier v in
   let total_score := score + cross_scores v in
   let all_valid := valid_play v in
   let all_valid :=
     if (is_first_play && negb (play_through_center v))%bool
     then false else all_valid in
   let all_valid :=
     if (negb is_first_play && negb (touching_word v))%bool
     then false else all_valid in
   ret (total_score, all_valid))%board.

(** [play_word] *)
Definition play_word (word : string) (row col : Z) (direction : Direction)
  : M Z :=
  (res <- set_word word row col direction ;;
   if (snd res : bool) then ret (fst res)
   else _ <- undo_play ;; ret INVALID_PLAY)%board.

End Board.

(** The objects used in the checks below. *)
Definition empty_dictionary : Dictionary.t :=
  Dictionary.Build Trie.empty true.

(** [Board(my_dictionary)] *)
Definition default_board : Result Board.t :=
  Board.init empty_dictionary None None None None.

(** A trie filled with [insert], entry by entry. *)
Definition trie_of (entries : list (string * string)) : Trie.t :=
  fold_left (fun acc wd => Trie.insert acc (fst wd) (snd wd)) entries
            Trie.empty.

Definition dictionary_of (entries : list (string * string)) : Dictionary.t :=
  Dictionary.Build (trie_of entries) true.

(** The letters of a Python string, as [for letter in word] sees them. *)
Abbreviation letters := list_ascii_of_string.

(** [Board(my_dictionary)], the object the script creates. *)
Definition scrabble_board : Board.t :=
  Board.Build empty_dictionary (_create_2d_list 15 15 None)
              SCRABBLE_BOARD_MULTIPLIERS None LETTER_SCORING [].

(** The object after [play_word("BROOKLYN", 7, 7, RIGHT)] on it. *)
Definition board_after_brooklyn : Board.t :=
  snd (Board.play_word "BROOKLYN" 7 7 Board.RIGHT scrabble_board).

(** ** Grids, cell by cell *)

(** The tile slot at row [r], column [c], when the grid has one. *)
Definition slot (g : Board.Grid) (r c : nat) : option (option ascii) :=
  match nth_error g r with
  | Some cells => nth_error cells c
  | None => None
  end.

(** The grid after [g[r][c] = v]. *)
Definition grid_set (g : Board.Grid) (r c : nat) (v : option ascii)
  : Board.Grid :=
  Py.update g r (Py.update (nth r g []) c v).

(** The length of every row. *)
Definition shape {A : Type} (g : list (list A)) : list nat :=
  map (@List.length A) g.

(** Every row is as long as the first one, which is the width that
    [_is_valid_coord] uses. *)
Definition rectangular (g : Board.Grid) : Prop :=
  forall cells, In cells g -> List.length cells = List.length (hd [] g).

(** ** The legality rule in the words of the specification

    The rule of section 4.3, step 5, on the grid as it is before the
    attempt: every letter on-grid and without a conflicting letter; on
    an empty board some letter on the centre cell, otherwise some letter
    orthogonally adjacent to or overlapping an existing tile. *)

Definition spec_on_grid (g : Board.Grid) (r c : Z) : bool :=
  (0 <=? r) && (r <? Z.of_nat (List.length g))
  && ((0 <=? c) && (c <? Z.of_nat (List.length (hd [] g)))).

Definition spec_tile (g : Board.Grid) (r c : Z) : option ascii :=
  if spec_on_grid g r c then
    match slot g (Z.to_nat r) (Z.to_nat c) with
    | Some (Some tile) => Some tile
    | _ => None
    end
  else None.

Definition spec_occupied (g : Board.Grid) (r c : Z) : bool :=
  Board.is_some (spec_tile g r c).

Definition spec_touches (g : Board.Grid) (r c : Z) : bool :=
  spec_occupied g r c
  || spec_occupied g (r - 1) c || spec_occupied g (r + 1) c
  || spec_occupied g r (c - 1) || spec_occupied g r (c + 1).

Definition spec_is_center (g : Board.Grid) (r c : Z) : bool :=
  (r =? Z.of_nat (List.length g) / 2)
  && (c =? Z.of_nat (List.length (hd [] g)) / 2).

Definition spec_letter_fits (g : Board.Grid) (letter : ascii) (r c : Z)
  : bool :=
  spec_on_grid g r c
  && match spec_tile g r c with
     | None => true
     | Some tile => Ascii.eqb tile letter
     end.

Fixpoint spec_all_fit (g : Board.Grid) (word : string) (r c : Z)
  (d : Board.Direction) : bool :=
  match word with
  | EmptyString => true
  | String letter word' =>
      spec_letter_fits g letter r c
      && spec_all_fit g word' (fst (Board.advance d r c))
                      (snd (Board.advance d r c)) d
  end.

Fixpoint spec_some_letter (p : Z -> Z -> bool) (word : string) (r c : Z)
  (d : Board.Direction) : bool :=
  match word with
  | EmptyString => false
  | String _ word' =>
      p r c
      || spec_some_letter p word' (fst (Board.advance d r c))
                          (snd (Board.advance d r c)) d
  end.

Definition spec_grid_empty (g : Board.Grid) : bool :=
  forallb (forallb (fun tile => negb (Board.is_some tile))) g.

Definition spec_legal_play (g : Board.Grid) (word : string) (r c : Z)
  (d : Board.Direction) : bool :=
  spec_all_fit g word r c d
  && (if spec_grid_empty g
      then spec_some_letter (spec_is_center g) word r c d
      else spec_some_letter (spec_touches g) word r c d).

(** ** What a method leaves of the object *)

(** Everything but the tiles and [last_play] is as before, and every
    row of the grid has kept its length. *)
Definition same_frame (self self' : Board.t) : Prop :=
  shape (Board.board self') = shape (Board.board self)
  /\ Board.multipliers self' = Board.multipliers self
  /\ Board.letter_scoring self' = Board.letter_scoring self
  /\ Board.letter_dist self' = Board.letter_dist self
  /\ Board.dct self' = Board.dct self.

Definition keeps_frame {A : Type} (m : Board.M A) : Prop :=
  forall self, same_frame self (snd (m self)).

(** ** The state of an attempt, relative to the grid before it *)

(** [coord] lies on the line of the word, strictly before [(row, col)]. *)
Definition behind (d : Board.Direction) (row col : Z) (coord : Z * Z)
  : Prop :=
  match d with
  | Board.DOWN => snd coord = col /\ fst coord < row
  | Board.RIGHT => fst coord = row /\ snd coord < col
  end.

(** While [set_word] runs from the grid [g0]: the rows keep their
    lengths, the cells recorded in [last_play] were empty in [g0], hold
    a tile now and lie behind the current position, and every other
    cell is as in [g0]. *)
Record attempt_inv (g0 : Board.Grid) (d : Board.Direction) (row col : Z)
  (self : Board.t) : Prop := {
  inv_shape : shape (Board.board self) = shape g0;
  inv_same :
    forall r c,
      ~ In (Z.of_nat r, Z.of_nat c) (Board.last_play self) ->
      slot (Board.board self) r c = slot g0 r c;
  inv_written :
    forall coord,
      In coord (Board.last_play self) ->
      0 <= fst coord /\ 0 <= snd coord
      /\ slot g0 (Z.to_nat (fst coord)) (Z.to_nat (snd coord)) = Some None
      /\ (exists tile,
             slot (Board.board self) (Z.to_nat (fst coord))
                  (Z.to_nat (snd coord)) = Some (Some tile))
      /\ behind d row col coord }.

(** The cell before [(row, col)] on the line of the word. *)
Definition previous (d : Board.Direction) (row col : Z) : Z * Z :=
  match d with
  | Board.DOWN => (row - 1, col)
  | Board.RIGHT => (row, col - 1)
  end.

(** When a letter of this attempt is on the grid and the cell before
    the current position held a tile in [g0], the play is already known
    to touch. *)
Definition before_inv (g0 : Board.Grid) (is_first_play : bool)
  (d : Board.Direction) (v : Board.Vars) (self : Board.t) : Prop :=
  is_first_play = false ->
  Board.last_play self <> [] ->
  spec_occupied g0 (fst (previous d (Board.row v) (Board.col v)))
                (snd (previous d (Board.row v) (Board.col v))) = true ->
  Board.touching_word v = true.

(** What [_is_touching_word] computes on a grid whose rows are equally
    long; [no_last_play] is [len(self.last_play) == 0]. *)
Definition touching_code (g : Board.Grid) (no_last_play : bool)
  (row col : Z) (d : Board.Direction) : bool :=
  spec_occupied g row col
  || match d with
     | Board.DOWN =>
         spec_occupied g row (col - 1) || spec_occupied g row (col + 1)
     | Board.RIGHT =>
         spec_occupied g (row - 1) col || spec_occupied g (row + 1) col
     end
  || match d with
     | Board.DOWN => spec_occupied g (row - 1) col
     | Board.RIGHT => spec_occupied g row (col - 1)
     end && no_last_play
  || match d with
     | Board.DOWN => spec_occupied g (row + 1) col
     | Board.RIGHT => spec_occupied g row (col + 1)
     end.

(** The grid after [undo_play] has emptied the cells of [coords]. *)
Definition clear_all (g : Board.Grid) (coords : list (Z * Z)) : Board.Grid :=
  fold_left
    (fun g coord =>
       grid_set g (Z.to_nat (fst coord)) (Z.to_nat (snd coord)) None)
    coords g.

(** ** Fuel of the cross-word walk *)

(** The cells a walk can still read from index [i] in steps of [delta]
    before the index leaves [-n <= i < n]. *)
Definition cells_ahead (n : nat) (i delta : Z) : nat :=
  if (- Z.of_nat n <=? i) && (i <? Z.of_nat n)
  then if 0 <? delta then Z.to_nat (Z.of_nat n - i)
       else Z.to_nat (i + Z.of_nat n + 1)
  else 0.

(** ** Tries as [insert] builds them *)

(** The keys of every [children] dict are distinct. *)
Fixpoint unique_keys (n : TrieNode) : Prop :=
  match n with
  | Node cs _ _ =>
      NoDup (map fst cs)
      /\ (fix all (cs : list (ascii * TrieNode)) : Prop :=
            match cs with
            | [] => True
            | kn :: cs' => unique_keys (snd kn) /\ all cs'
            end) cs
  end.

(** ** Boards with a grid of their own *)

(** The boards whose grid the constructor made itself ([board=None]),
    after any calls of the methods that write the grid, returned or
    raised.  [_create_2d_list] builds every row as a list of its own, so
    the rows of such a board are distinct objects. *)
Inductive constructed : Board.t -> Prop :=
| constructed_init (game_dct : Dictionary.t)
    (board_multipliers : option (list (list string)))
    (letter_dist : option (list string)) (letter_scoring : option (list Z))
    (self : Board.t) :
    Board.init game_dct None board_multipliers letter_dist letter_scoring
    = Ok self ->
    constructed self
| constructed_set_word (self : Board.t) (word : string) (row col : Z)
    (direction : Board.Direction) :
    constructed self ->
    constructed (snd (Board.set_word word row col direction self))
| constructed_play_word (self : Board.t) (word : string) (row col : Z)
    (direction : Board.Direction) :
    constructed self ->
    constructed (snd (Board.play_word word row col direction self))
| constructed_undo_play (self : Board.t) :
    constructed self -> constructed (snd (Board.undo_play self)).

(** ** The word a play leaves on the grid *)

(** The tiles from [(r, c)] on, in direction [d], spell [word]. *)
Fixpoint tiles_spell (g : Board.Grid) (word : string) (r c : Z)
  (d : Board.Direction) : Prop :=
  match word with
  | EmptyString => True
  | String letter word' =>
      spec_tile g r c = Some letter
      /\ tiles_spell g word' (fst (Board.advance d r c))
                     (snd (Board.advance d r c)) d
  end.

(** * Properties *)

(** ** Small checks of the trie model *)

Example search_after_insert :
  Trie.search (trie_of [("CAT", "feline"); ("CAR", "")]) "CAR" = true
  /\ Trie.search (trie_of [("CAT", "feline"); ("CAR", "")]) "CA" = false.
Proof. split; reflexivity. Qed.

Example auto_complete_order :
  Trie.auto_complete (trie_of [("CAT", ""); ("CA", ""); ("CAR", "")]) "CA"
  = ["CA"; "CAT"; "CAR"].
Proof. reflexivity. Qed.

Example permutations_abc :
  Dictionary._find_permutations "ABC"
  = ["ABC"; "ACB"; "BAC"; "BCA"; "CAB"; "CBA"].
Proof. reflexivity. Qed.

(** ** Strings *)

Section StringFacts.

Lemma append_empty_r (s : string) : (s ++ "")%string = s.
Proof. induction s as [|c s IH]; simpl; [reflexivity | now rewrite IH]. Qed.

Lemma add_char_append (s : string) (c : ascii) (r : string) :
  (Py.add_char s c ++ r)%string = (s ++ String c r)%string.
Proof.
  unfold Py.add_char.
  induction s as [|a s IH]; simpl; [reflexivity | now rewrite IH].
Qed.

Lemma append_eq_self (s r : string) : (s ++ r)%string = s <-> r = "".
Proof.
  split.
  - induction s as [|a s IH]; simpl; intros H; [exact H |].
    injection H as H. now apply IH.
  - intros ->. apply append_empty_r.
Qed.

Lemma upper_char_idempotent (c : ascii) :
  Py.upper_char (Py.upper_char c) = Py.upper_char c.
Proof.
  destruct c as [[] [] [] [] [] [] [] []]; reflexivity.
Qed.

Lemma upper_idempotent (s : string) : Py.upper (Py.upper s) = Py.upper s.
Proof.
  induction s as [|c s IH]; simpl; [reflexivity |].
  now rewrite upper_char_idempotent, IH.
Qed.

Lemma lower_char_idempotent (c : ascii) :
  Py.lower_char (Py.lower_char c) = Py.lower_char c.
Proof.
  destruct c as [[] [] [] [] [] [] [] []]; reflexivity.
Qed.

Lemma lower_idempotent (s : string) : Py.lower (Py.lower s) = Py.lower s.
Proof.
  induction s as [|c s IH]; simpl; [reflexivity |].
  now rewrite lower_char_idempotent, IH.
Qed.

Lemma lower_upper_char (c : ascii) :
  Py.lower_char (Py.upper_char c) = Py.lower_char c.
Proof.
  destruct c as [[] [] [] [] [] [] [] []]; reflexivity.
Qed.

Lemma lower_upper (s : string) : Py.lower (Py.upper s) = Py.lower s.
Proof.
  induction s as [|c s IH]; simpl; [reflexivity |].
  now rewrite lower_upper_char, IH.
Qed.

End StringFacts.

(** ** Trie lookups *)

Section TrieFacts.

Variable tr : Trie.t.

(** [search] and [get_defn] follow the same path: a stored word has
    a definition to return. *)
Lemma get_defn_of_stored_word (word : string) :
  Trie.search tr word = true ->
  exists n, Trie.descend (Trie.root tr) word = Some n
            /\ Trie.get_defn tr word = Some (defn n).
Proof.
  unfold Trie.search, Trie.get_defn.
  destruct (Trie.descend (Trie.root tr) word) as [n|]; [|discriminate].
  intros _. now exists n.
Qed.

(** [get_defn] gives the [False] of the source exactly when the path
    of [word] is missing, whether or not a word ends there. *)
Lemma get_defn_false_iff_no_path (word : string) :
  Trie.get_defn tr word = None <->
  Trie.descend (Trie.root tr) word = None.
Proof.
  unfold Trie.get_defn.
  destruct (Trie.descend (Trie.root tr) word); split; congruence.
Qed.

(** What the loop of [has_prefix] computes: the test
    [temp_word == prefix] succeeds at the last character, before that
    character is looked up. *)
Lemma has_prefix_loop_spec (rest temp_word : string) (node : TrieNode) :
  Trie.has_prefix_loop (temp_word ++ rest)%string rest temp_word node = true
  <-> rest <> ""
      /\ Trie.descend node (Py.drop_last rest) <> None.
Proof.
  revert temp_word node.
  induction rest as [|char rest IH]; intros temp_word node.
  - simpl. split; [discriminate | intros [H _]; now elim H].
  - cbn [Trie.has_prefix_loop].
    rewrite <- (add_char_append temp_word char rest).
    destruct (String.eqb_spec (Py.add_char temp_word char)
                (Py.add_char temp_word char ++ rest)%string) as [E|E].
    + symmetry in E. apply append_eq_self in E. subst rest. simpl.
      split; [intros _; split; discriminate | reflexivity].
    + assert (Hrest : rest <> "")
        by (intros ->; apply E; now rewrite append_empty_r).
      destruct rest as [|c2 rest2]; [now elim Hrest |].
      cbn [Py.drop_last Trie.descend].
      destruct (Trie.child char (children node)) as [n|].
      * rewrite IH. split.
        -- intros [_ H]. split; [discriminate | exact H].
        -- intros [_ H]. split; [discriminate | exact H].
      * split; [discriminate | intros [_ H]; now elim H].
Qed.

Lemma has_prefix_spec (prefix : string) :
  Trie.has_prefix tr prefix = true
  <-> prefix <> ""
      /\ Trie.descend (Trie.root tr) (Py.drop_last prefix) <> None.
Proof. apply (has_prefix_loop_spec prefix ""). Qed.

(** The value [RETRACE_WORD] has when [contains_partial] is called
    does not change the words found. *)
Lemma contains_partial_initial_flag (token : string) :
  fst (Trie.contains_partial tr token true)
  = fst (Trie.contains_partial tr token false).
Proof.
  unfold Trie.contains_partial.
  destruct (Trie.root tr) as [cs d e].
  destruct cs as [|[char n] cs]; reflexivity.
Qed.

End TrieFacts.

(** ** Tries with distinct keys *)

Section TrieInduction.

Variable P : TrieNode -> Prop.
Hypothesis step :
  forall cs d e, Forall (fun kn => P (snd kn)) cs -> P (Node cs d e).

(** Induction on a node with the property known for all its children. *)
Lemma TrieNode_children_ind : forall n, P n.
Proof.
  fix IH 1. intros [cs d e]. apply step.
  induction cs as [|[k m] cs IHcs]; constructor; [apply IH | exact IHcs].
Qed.

End TrieInduction.

Section UniqueKeys.

Lemma unique_keys_node (cs : list (ascii * TrieNode)) (d : string)
  (e : bool) :
  unique_keys (Node cs d e)
  <-> NoDup (map fst cs) /\ Forall (fun kn => unique_keys (snd kn)) cs.
Proof.
  cbn [unique_keys].
  assert (H : (fix all (cs : list (ascii * TrieNode)) : Prop :=
                 match cs with
                 | [] => True
                 | kn :: cs' => unique_keys (snd kn) /\ all cs'
                 end) cs
              <-> Forall (fun kn => unique_keys (snd kn)) cs).
  { induction cs as [|kn cs IH]; split; intros H.
    - constructor.
    - exact I.
    - destruct H as [H1 H2]. constructor; [exact H1 | now apply IH].
    - inversion H; subst. split; [assumption | now apply IH]. }
  now rewrite H.
Qed.

Lemma child_In (c : ascii) (m : TrieNode) (cs : list (ascii * TrieNode)) :
  Trie.child c cs = Some m -> In (c, m) cs.
Proof.
  induction cs as [|[k n] cs IH]; simpl; [discriminate |].
  destruct (Ascii.eqb_spec k c) as [-> | Hk].
  - intros H. injection H as ->. now left.
  - intros H. right. now apply IH.
Qed.

Lemma In_child (c : ascii) (m : TrieNode) (cs : list (ascii * TrieNode)) :
  NoDup (map fst cs) -> In (c, m) cs -> Trie.child c cs = Some m.
Proof.
  induction cs as [|[k n] cs IH]; simpl; intros Hnd Hin; [contradiction |].
  inversion Hnd as [|? ? Hnotin Hnd']; subst.
  destruct Hin as [Heq | Hin].
  - injection Heq as -> ->. now rewrite Ascii.eqb_refl.
  - destruct (Ascii.eqb_spec k c) as [-> | Hk].
    + exfalso. apply Hnotin. apply in_map_iff. now exists (c, m).
    + now apply IH.
Qed.

Lemma set_child_keys (c k : ascii) (n : TrieNode)
  (cs : list (ascii * TrieNode)) :
  In k (map fst (Trie.set_child c n cs)) -> In k (map fst cs) \/ k = c.
Proof.
  induction cs as [|[k' m] cs IH]; simpl.
  - intros [<- | []]. now right.
  - destruct (Ascii.eqb_spec k' c) as [-> | Hk]; simpl.
    + intros [<- | H]; [left; now left | left; now right].
    + intros [<- | H]; [left; now left |].
      destruct (IH H) as [H' | H']; [left; now right | now right].
Qed.

Lemma set_child_NoDup (c : ascii) (n : TrieNode)
  (cs : list (ascii * TrieNode)) :
  NoDup (map fst cs) -> NoDup (map fst (Trie.set_child c n cs)).
Proof.
  induction cs as [|[k m] cs IH]; simpl; intros Hnd.
  - constructor; [intros [] | constructor].
  - inversion Hnd as [|? ? Hnotin Hnd']; subst.
    destruct (Ascii.eqb_spec k c) as [-> | Hk]; simpl.
    + now constructor.
    + constructor; [|now apply IH].
      intros Hin. apply set_child_keys in Hin.
      destruct Hin as [Hin | Hin]; [now apply Hnotin | now apply Hk].
Qed.

Lemma set_child_Forall (Q : ascii * TrieNode -> Prop) (c : ascii)
  (n : TrieNode) (cs : list (ascii * TrieNode)) :
  (forall k, Q (k, n)) -> Forall Q cs -> Forall Q (Trie.set_child c n cs).
Proof.
  intros Hn. induction cs as [|[k m] cs IH]; simpl; intros H.
  - constructor; [apply Hn | constructor].
  - inversion H; subst.
    destruct (Ascii.eqb k c); constructor; auto.
Qed.

Lemma child_set_child (c : ascii) (n : TrieNode)
  (cs : list (ascii * TrieNode)) :
  Trie.child c (Trie.set_child c n cs) = Some n.
Proof.
  induction cs as [|[k m] cs IH]; simpl.
  - now rewrite Ascii.eqb_refl.
  - destruct (Ascii.eqb k c) eqn:E; simpl; rewrite E; [reflexivity | exact IH].
Qed.

Lemma insert_at_unique_keys (d : string) (word : string) :
  forall node,
    unique_keys node -> unique_keys (Trie.insert_at node word d).
Proof.
  induction word as [|c word IH]; intros [cs d0 e0] H;
    apply unique_keys_node in H; destruct H as [Hnd Hall];
    cbn [Trie.insert_at children defn end_]; apply unique_keys_node.
  - now split.
  - split; [now apply set_child_NoDup |].
    apply set_child_Forall; [|exact Hall].
    intros k. simpl. apply IH.
    destruct (Trie.child c cs) as [m|] eqn:E.
    + apply child_In in E. rewrite Forall_forall in Hall.
      apply (Hall _ E).
    + apply unique_keys_node. split; constructor.
Qed.

Lemma trie_of_unique_keys (entries : list (string * string)) :
  unique_keys (Trie.root (trie_of entries)).
Proof.
  unfold trie_of.
  assert (H : forall tr,
             unique_keys (Trie.root tr) ->
             unique_keys
               (Trie.root
                  (fold_left
                     (fun acc wd => Trie.insert acc (fst wd) (snd wd))
                     entries tr))).
  { induction entries as [|wd entries IH]; intros tr Htr; [exact Htr |].
    simpl. apply IH. simpl. now apply insert_at_unique_keys. }
  apply H. apply unique_keys_node. split; constructor.
Qed.

(** Round trip: after [insert(word, d)], [word] is found and its
    definition is [d]. *)
Lemma descend_insert_at (d : string) (word : string) :
  forall node,
    exists cs,
      Trie.descend (Trie.insert_at node word d) word = Some (Node cs d true).
Proof.
  induction word as [|c word IH]; intros node.
  - simpl. now exists (children node).
  - cbn [Trie.insert_at Trie.descend children]. rewrite child_set_child.
    apply IH.
Qed.

Lemma insert_then_lookup (tr : Trie.t) (word d : string) :
  Trie.search (Trie.insert tr word d) word = true
  /\ Trie.get_defn (Trie.insert tr word d) word = Some d.
Proof.
  unfold Trie.search, Trie.get_defn, Trie.insert. simpl.
  destruct (descend_insert_at d word (Trie.root tr)) as [cs ->].
  now split.
Qed.

End UniqueKeys.

Section WalkDefs.

Lemma walk_trie_defs_cons (c : ascii) (m : TrieNode)
  (cs : list (ascii * TrieNode)) (d : string) (e : bool) (prefix : string) :
  Trie.walk_trie_defs (Node ((c, m) :: cs) d e) prefix
  = (if end_ m then [(Py.add_char prefix c, defn m)] else [])
      ++ Trie.walk_trie_defs m (Py.add_char prefix c)
      ++ Trie.walk_trie_defs (Node cs d e) prefix.
Proof. reflexivity. Qed.

Lemma walk_trie_defs_In (cs : list (ascii * TrieNode)) (d : string)
  (e : bool) (prefix w df : string) :
  In (w, df) (Trie.walk_trie_defs (Node cs d e) prefix)
  <-> exists c m,
        In (c, m) cs
        /\ ((w = Py.add_char prefix c /\ end_ m = true /\ df = defn m)
            \/ In (w, df) (Trie.walk_trie_defs m (Py.add_char prefix c))).
Proof.
  induction cs as [|[c m] cs IH].
  - simpl. split; [intros [] | intros (c & m & [] & _)].
  - rewrite walk_trie_defs_cons, !in_app_iff, IH. split.
    + intros [H | [H | (c' & m' & Hin & H)]].
      * exists c, m. split; [now left |]. left.
        destruct (end_ m); [|contradiction].
        destruct H as [H | []]. injection H as <- <-. auto.
      * exists c, m. split; [now left | now right].
      * exists c', m'. split; [now right | exact H].
    + intros (c' & m' & [Heq | Hin] & H).
      * injection Heq as <- <-. destruct H as [(-> & -> & ->) | H].
        -- left. now left.
        -- right. now left.
      * right. right. now exists c', m'.
Qed.

(** On a trie with distinct keys, [walk_trie_defs] enumerates exactly
    the words stored below the node, each with its definition. *)
Lemma walk_trie_defs_spec :
  forall node,
    unique_keys node ->
    forall prefix w df,
      In (w, df) (Trie.walk_trie_defs node prefix)
      <-> exists suffix m,
            suffix <> ""%string
            /\ w = (prefix ++ suffix)%string
            /\ Trie.descend node suffix = Some m
            /\ end_ m = true /\ defn m = df.
Proof.
  apply (TrieNode_children_ind
           (fun node =>
              unique_keys node ->
              forall prefix w df,
                In (w, df) (Trie.walk_trie_defs node prefix)
                <-> exists suffix m,
                      suffix <> ""%string
                      /\ w = (prefix ++ suffix)%string
                      /\ Trie.descend node suffix = Some m
                      /\ end_ m = true /\ defn m = df)).
  intros cs d e IH Hwf prefix w df.
  apply unique_keys_node in Hwf. destruct Hwf as [Hnd Hall].
  rewrite Forall_forall in IH, Hall.
  rewrite walk_trie_defs_In. split.
  - intros (c & m & Hin & H).
    pose proof (In_child _ _ _ Hnd Hin) as Hchild.
    destruct H as [(-> & He & ->) | H].
    + exists (String c ""), m. repeat split; try assumption; try discriminate.
      cbn [Trie.descend children]. now rewrite Hchild.
    + apply (IH _ Hin (Hall _ Hin)) in H.
      destruct H as (suffix & m' & Hne & -> & Hd & He & Hdf).
      exists (String c suffix), m'. repeat split; try assumption.
      * discriminate.
      * apply add_char_append.
      * cbn [Trie.descend children]. now rewrite Hchild.
  - intros (suffix & m' & Hne & -> & Hd & He & Hdf).
    destruct suffix as [|c suffix]; [now elim Hne |].
    cbn [Trie.descend children] in Hd.
    destruct (Trie.child c cs) as [m|] eqn:Hchild; [|discriminate].
    apply child_In in Hchild.
    exists c, m. split; [exact Hchild |].
    destruct suffix as [|c2 suffix].
    + simpl in Hd. injection Hd as ->. left. auto.
    + right. apply (IH _ Hchild (Hall _ Hchild)).
      exists (String c2 suffix), m'. repeat split; try assumption.
      * discriminate.
      * symmetry. apply add_char_append.
Qed.

(** The pairs [walk_trie_defs] gives from the root are the stored
    non-empty words with their definitions. *)
Lemma stored_pairs (tr : Trie.t) (w df : string) :
  unique_keys (Trie.root tr) ->
  (In (w, df) (Trie.walk_trie_defs (Trie.root tr) "")
   <-> w <> ""%string /\ Trie.search tr w = true
       /\ Trie.get_defn tr w = Some df).
Proof.
  intros Hwf. rewrite walk_trie_defs_spec by exact Hwf.
  unfold Trie.search, Trie.get_defn. split.
  - intros (suffix & m & Hne & -> & Hd & He & Hdf). simpl.
    rewrite Hd. repeat split; try assumption. now rewrite Hdf.
  - intros (Hne & Hs & Hg).
    destruct (Trie.descend (Trie.root tr) w) as [m|] eqn:Hd; [|discriminate].
    exists w, m. repeat split; try assumption. congruence.
Qed.

End WalkDefs.

(** ** Claims on the trie and the dictionary facade *)

(** C4 (code defect).  The claim: [has_prefix(P)] is true iff [P] is
    empty or a path for [P] exists, so that a true answer means some
    stored word begins with [P].  On the trie holding only "QUIT" the
    code answers True for "QZ", for which no path exists and which no
    stored word begins with, and answers False for the empty prefix:
    the loop returns True at the last character before looking it up,
    and never runs for an empty prefix. *)
Theorem has_prefix_true_without_path :
  let tr := trie_of [("QUIT", "")] in
  Trie.has_prefix tr "QZ" = true
  /\ Trie.descend (Trie.root tr) "QZ" = None
  /\ Trie.walk_trie (Trie.root tr) "" = ["QUIT"]
  /\ Trie.auto_complete tr "QZ" = []
  /\ Trie.has_prefix tr "" = false.
Proof. cbv zeta. repeat split; reflexivity. Qed.

(** C5 (code defect).  The claim: [contains_partial(T)] returns exactly
    the stored words that contain [T], whatever the order of a node's
    children.  With "AB" inserted before "CAB" the search for "A"
    returns only "AB" (the [break] after the first match leaves the
    sibling branch "C" unvisited) although "CAB" is stored and contains
    "A"; with "CAB" inserted first the same two words give both. *)
Theorem contains_partial_misses_sibling_branch :
  let ab_first := trie_of [("AB", ""); ("CAB", "")] in
  let cab_first := trie_of [("CAB", ""); ("AB", "")] in
  fst (Trie.contains_partial ab_first "A" false) = ["AB"]
  /\ Trie.search ab_first "CAB" = true
  /\ Py.contains "A" "CAB" = true
  /\ Trie.walk_trie (Trie.root ab_first) "" = ["AB"; "CAB"]
  /\ Trie.walk_trie (Trie.root cab_first) "" = ["CAB"; "AB"]
  /\ fst (Trie.contains_partial cab_first "A" false) = ["CAB"; "AB"].
Proof. cbv zeta. repeat split; reflexivity. Qed.

(** C6 (code defect).  The claim: [get_defn(W)] signals NotFound (the
    [False] of the source, [None] here) for every [W] that is not a
    stored word, also when the path of [W] exists only as a proper
    prefix of stored words.  With only "CAT" stored, "CA" is not a word,
    yet [get_defn] and [get_def] return the empty string for it: the
    same value a word stored without a definition gives. *)
Theorem get_defn_of_prefix_path_is_not_false :
  let tr := trie_of [("CAT", "feline")] in
  Trie.search tr "CA" = false
  /\ Trie.get_defn tr "CA" = Some ""
  /\ Dictionary.get_def (Dictionary.Build tr true) "ca" = Some ""
  /\ Trie.get_defn tr "CAT" = Some "feline"
  /\ Trie.get_defn tr "DOG" = None
  /\ Trie.get_defn (trie_of [("CA", "")]) "CA" = Some "".
Proof. cbv zeta. repeat split; reflexivity. Qed.

(** The search string of [get_words_with_x_in_def] is lowered, so
    re-casing it changes nothing. *)
Lemma get_words_with_x_in_def_query_case
  (d : Dictionary.t) (s1 s2 : string) (include_def : bool) :
  Py.lower s1 = Py.lower s2 ->
  Dictionary.get_words_with_x_in_def d s1 include_def
  = Dictionary.get_words_with_x_in_def d s2 include_def.
Proof.
  intros H. unfold Dictionary.get_words_with_x_in_def. now rewrite H.
Qed.

(** C7 (as the code has it).  [get_words_with_x_in_def] lowers the
    search string and nothing else: of the (word, definition) pairs that
    [walk_trie_defs] enumerates (on a trie with distinct keys: the
    stored non-empty words with their definitions) it selects exactly
    those whose definition, as stored, contains the lowered search
    string; so the result is the same for any two search strings that
    differ in case only, in either shape of the result. *)
Theorem definition_search_lowers_the_query_only
  (d : Dictionary.t) (S : string) :
  (forall w df : string,
      In (w, df)
         (match Dictionary.get_words_with_x_in_def d S true with
          | Dictionary.WordDefs hits => hits
          | Dictionary.KeyWords _ _ => []
          end)
      <-> In (w, df)
             (Trie.walk_trie_defs (Trie.root (Dictionary.dct d)) "")
          /\ Py.contains (Py.lower S) df = true)
  /\ (unique_keys (Trie.root (Dictionary.dct d)) ->
      forall w df : string,
        In (w, df)
           (match Dictionary.get_words_with_x_in_def d S true with
            | Dictionary.WordDefs hits => hits
            | Dictionary.KeyWords _ _ => []
            end)
        <-> (w <> ""%string
             /\ Trie.search (Dictionary.dct d) w = true
             /\ Trie.get_defn (Dictionary.dct d) w = Some df)
            /\ Py.contains (Py.lower S) df = true)
  /\ (forall (S' : string) (include_def : bool),
         Py.lower S' = Py.lower S ->
         Dictionary.get_words_with_x_in_def d S' include_def
         = Dictionary.get_words_with_x_in_def d S include_def).
Proof.
  assert (H : forall w df : string,
             In (w, df)
                (match Dictionary.get_words_with_x_in_def d S true with
                 | Dictionary.WordDefs hits => hits
                 | Dictionary.KeyWords _ _ => []
                 end)
             <-> In (w, df)
                    (Trie.walk_trie_defs (Trie.root (Dictionary.dct d)) "")
                 /\ Py.contains (Py.lower S) df = true).
  { intros w df. unfold Dictionary.get_words_with_x_in_def.
    now rewrite filter_In. }
  split; [exact H | split].
  - intros Hwf w df. rewrite H. now rewrite stored_pairs.
  - intros S' include_def HS.
    now apply get_words_with_x_in_def_query_case.
Qed.

Lemma definition_search_lowers_the_query_only_witness :
  let d := dictionary_of [("ROSE", "A Purple flower");
                          ("PLUM", "a purple fruit")] in
  (In ("PLUM", "a purple fruit")
      (match Dictionary.get_words_with_x_in_def d "PURPLE" true with
       | Dictionary.WordDefs hits => hits
       | Dictionary.KeyWords _ _ => []
       end)
   <-> ("PLUM" <> ""%string
        /\ Trie.search (Dictionary.dct d) "PLUM" = true
        /\ Trie.get_defn (Dictionary.dct d) "PLUM" = Some "a purple fruit")
       /\ Py.contains (Py.lower "PURPLE") "a purple fruit" = true)
  /\ Py.lower "PurPLE" = Py.lower "purple"
  /\ Dictionary.get_words_with_x_in_def d "PurPLE" false
     = Dictionary.get_words_with_x_in_def d "purple" false.
Proof.
  cbv zeta. split; [|split; [reflexivity |]].
  - apply (proj1 (proj2 (definition_search_lowers_the_query_only
                           _ "PURPLE"))).
    apply trie_of_unique_keys.
  - apply (proj2 (proj2 (definition_search_lowers_the_query_only
                           _ "purple")) "PurPLE" false).
    reflexivity.
Defined.

(** C7, the claim as stated fails: "purple" occurs in "A Purple flower"
    once both are lowered, but ROSE is not selected, since the
    definition is compared as stored; ROSE is selected once its
    definition is written in lower case, so re-casing a definition
    changes the result. *)
Lemma definition_search_keeps_definition_case :
  let d := dictionary_of [("ROSE", "A Purple flower");
                          ("PLUM", "a purple fruit")] in
  let d_lower := dictionary_of [("ROSE", "a purple flower");
                                ("PLUM", "a purple fruit")] in
  Dictionary.get_words_with_x_in_def d "purple" true
  = Dictionary.WordDefs [("PLUM", "a purple fruit")]
  /\ Dictionary.get_words_with_x_in_def d "PURPLE" false
     = Dictionary.KeyWords "purple" ["PLUM"]
  /\ Py.contains (Py.lower "purple") (Py.lower "A Purple flower") = true
  /\ Dictionary.words_with_x_in_def d_lower "purple" = ["ROSE"; "PLUM"].
Proof. cbv zeta. repeat split; reflexivity. Qed.

(** C10.  [is_word] and [get_def] upper-case their argument and hand it
    to the trie: [is_word(S)] is [Trie.search] and [get_def(S)] is
    [Trie.get_defn] at the upper-cased [S].  So each gives the same
    answer for [S] and for the upper-cased [S], and for any two strings
    that differ in case only; a word stored in upper case is found, with
    its definition, under every casing.  [Trie.search] itself tells
    "EAT" from "eat". *)
Theorem is_word_get_def_ignore_case :
  (forall (d : Dictionary.t) (S : string),
      Dictionary.is_word d S = Dictionary.is_word d (Py.upper S))
  /\ (forall (d : Dictionary.t) (S : string),
         Dictionary.get_def d S = Dictionary.get_def d (Py.upper S))
  /\ Trie.search (trie_of [("EAT", "consume with mouth")]) "EAT" = true
  /\ Trie.search (trie_of [("EAT", "consume with mouth")]) "eat" = false
  /\ Dictionary.is_word (dictionary_of [("EAT", "consume with mouth")])
                        "eat" = true
  /\ (forall (d : Dictionary.t) (S : string),
         Dictionary.is_word d S = Trie.search (Dictionary.dct d) (Py.upper S))
  /\ (forall (d : Dictionary.t) (S : string),
         Dictionary.get_def d S
         = Trie.get_defn (Dictionary.dct d) (Py.upper S))
  /\ (forall (d : Dictionary.t) (S S' : string),
         Py.upper S = Py.upper S' ->
         Dictionary.is_word d S = Dictionary.is_word d S'
         /\ Dictionary.get_def d S = Dictionary.get_def d S')
  /\ (forall (tr : Trie.t) (use_defs : bool) (W defn S : string),
         Py.upper S = W ->
         Dictionary.is_word
           (Dictionary.Build (Trie.insert tr W defn) use_defs) S = true
         /\ Dictionary.get_def
              (Dictionary.Build (Trie.insert tr W defn) use_defs) S
            = Some defn)
  /\ Dictionary.get_def (dictionary_of [("EAT", "consume with mouth")])
                        "eat" = Some "consume with mouth"
  /\ Dictionary.is_word (dictionary_of [("EAT", "consume with mouth")])
                        "tea" = false
  /\ Dictionary.get_def (dictionary_of [("EAT", "consume with mouth")])
                        "tea" = None.
Proof.
  split; [|split; [|split; [|split; [|split]]]]; try reflexivity.
  - intros d S. unfold Dictionary.is_word. now rewrite upper_idempotent.
  - intros d S. unfold Dictionary.get_def. now rewrite upper_idempotent.
  - split; [reflexivity |]. split; [reflexivity |].
    split; [|split; [|repeat split; reflexivity]].
    + intros d S S' H. unfold Dictionary.is_word, Dictionary.get_def.
      now rewrite H.
    + intros tr use_defs W defn S <-.
      unfold Dictionary.is_word, Dictionary.get_def. simpl.
      apply insert_then_lookup.
Qed.

Lemma is_word_get_def_ignore_case_witness :
  Dictionary.is_word (dictionary_of [("EAT", "consume with mouth")]) "eat"
  = Dictionary.is_word (dictionary_of [("EAT", "consume with mouth")]) "EaT"
  /\ Dictionary.get_def (dictionary_of [("EAT", "consume with mouth")]) "eat"
     = Dictionary.get_def (dictionary_of [("EAT", "consume with mouth")])
                          "EaT".
Proof.
  destruct is_word_get_def_ignore_case
    as (_ & _ & _ & _ & _ & _ & _ & H & _).
  apply (H (dictionary_of [("EAT", "consume with mouth")]) "eat" "EaT").
  reflexivity.
Defined.

(** ** Anagrams *)

Section Permutations.

Context {A : Type}.

Lemma picks_split (l1 l2 : list A) (x : A) :
  In (x, l1 ++ l2) (Py.picks (l1 ++ x :: l2)).
Proof.
  induction l1 as [|a l1 IH]; simpl.
  - now left.
  - right. apply in_map_iff. exists (x, l1 ++ l2). split; [reflexivity | exact IH].
Qed.

Lemma picks_Permutation (l r : list A) (x : A) :
  In (x, r) (Py.picks l) -> Permutation l (x :: r).
Proof.
  revert x r. induction l as [|a l IH]; simpl; intros x r H; [contradiction |].
  destruct H as [H | H].
  - injection H as -> ->. apply Permutation_refl.
  - apply in_map_iff in H. destruct H as [[y r'] [E H]].
    simpl in E. injection E as -> <-.
    apply IH in H.
    eapply Permutation_trans; [apply perm_skip, H | apply perm_swap].
Qed.

Lemma picks_length (l r : list A) (x : A) :
  In (x, r) (Py.picks l) -> List.length l = S (List.length r).
Proof.
  intros H. apply picks_Permutation in H.
  apply Permutation_length in H. exact H.
Qed.

Lemma permutations_of_size_spec (n : nat) :
  forall l p : list A,
    List.length l = n ->
    (In p (Py.permutations_of_size n l) <-> Permutation l p).
Proof.
  induction n as [|n IH]; intros l p Hlen.
  - destruct l; [|discriminate]. simpl. split.
    + intros [<- | []]. apply perm_nil.
    + intros H. apply Permutation_nil in H. now left.
  - cbn [Py.permutations_of_size]. rewrite in_flat_map. split.
    + intros [[x r] [Hpick Hin]]. simpl in Hin.
      apply in_map_iff in Hin. destruct Hin as [q [<- Hq]].
      pose proof (picks_length _ _ _ Hpick) as Hl.
      apply IH in Hq; [|lia].
      eapply Permutation_trans;
        [apply picks_Permutation, Hpick | now apply perm_skip].
    + intros Hperm.
      destruct p as [|x q].
      { apply Permutation_sym, Permutation_nil in Hperm.
        subst l. discriminate. }
      assert (Hx : In x l)
        by (eapply Permutation_in;
            [apply Permutation_sym, Hperm | now left]).
      apply in_split in Hx. destruct Hx as [l1 [l2 ->]].
      exists (x, l1 ++ l2). split; [apply picks_split |].
      simpl. apply in_map. apply IH.
      * rewrite length_app in *. simpl in Hlen. lia.
      * apply Permutation_cons_inv with (a := x).
        eapply Permutation_trans; [|exact Hperm].
        apply Permutation_middle.
Qed.

(** [itertools.permutations] yields exactly the rearrangements. *)
Lemma permutations_spec (l p : list A) :
  In p (Py.permutations l) <-> Permutation l p.
Proof. now apply permutations_of_size_spec. Qed.

End Permutations.

(** What [find_anagrams] returns, as a set. *)
Lemma find_anagrams_spec (d : Dictionary.t) (word x : string) :
  In x (Dictionary.find_anagrams d word)
  <-> Permutation (letters word) (letters x)
      /\ Trie.search (Dictionary.dct d) x = true.
Proof.
  unfold Dictionary.find_anagrams, Py.list_set, Dictionary._find_permutations.
  rewrite nodup_In, filter_In, in_map_iff. split.
  - intros [[p [<- Hp]] Hs]. split; [|exact Hs].
    apply permutations_spec in Hp.
    now rewrite list_ascii_of_string_of_list_ascii.
  - intros [Hp Hs]. split; [|exact Hs].
    exists (letters x). split.
    + apply string_of_list_ascii_of_string.
    + now apply permutations_spec.
Qed.

(** C9.  Every element of [find_anagrams(W)] is a stored word made of
    exactly the letters of [W], each as often as in [W]; and for every
    rearrangement [W'] of [W], [find_anagrams(W')] and
    [find_anagrams(W)] have the same elements. *)
Theorem find_anagrams_letters_and_invariance
  (d : Dictionary.t) (W : string) :
  (forall x : string,
      In x (Dictionary.find_anagrams d W) ->
      Permutation (letters x) (letters W)
      /\ Trie.search (Dictionary.dct d) x = true)
  /\ (forall W' : string,
         Permutation (letters W') (letters W) ->
         forall x : string,
           In x (Dictionary.find_anagrams d W')
           <-> In x (Dictionary.find_anagrams d W)).
Proof.
  split.
  - intros x H. apply find_anagrams_spec in H. destruct H as [Hp Hs].
    split; [now apply Permutation_sym | exact Hs].
  - intros W' HW x. rewrite !find_anagrams_spec. split.
    + intros [Hp Hs]. split; [|exact Hs].
      eapply Permutation_trans; [apply Permutation_sym, HW | exact Hp].
    + intros [Hp Hs]. split; [|exact Hs].
      eapply Permutation_trans; [exact HW | exact Hp].
Qed.

Lemma find_anagrams_letters_and_invariance_witness :
  let d := dictionary_of [("STOP", ""); ("POTS", ""); ("SPOT", "");
                          ("TOO", "")] in
  In "SPOT" (Dictionary.find_anagrams d "STOP")
  /\ (Permutation (letters "SPOT") (letters "STOP")
      /\ Trie.search (Dictionary.dct d) "SPOT" = true)
  /\ Permutation (letters "POTS") (letters "STOP")
  /\ (In "SPOT" (Dictionary.find_anagrams d "POTS")
      <-> In "SPOT" (Dictionary.find_anagrams d "STOP")).
Proof.
  cbv zeta.
  set (d := dictionary_of _).
  assert (H1 : In "SPOT" (Dictionary.find_anagrams d "STOP"))
    by (vm_compute; auto 10).
  assert (H2 : Permutation (letters "POTS") (letters "STOP")).
  { apply permutations_spec. vm_compute.
    repeat (try (left; reflexivity); right). }
  split; [exact H1 |].
  split; [exact (proj1 (find_anagrams_letters_and_invariance d "STOP")
                       "SPOT" H1) |].
  split; [exact H2 |].
  exact (proj2 (find_anagrams_letters_and_invariance d "STOP")
               "POTS" H2 "SPOT").
Defined.

(** ** Python lists and grids *)

Section ListFacts.

Context {A : Type}.

Lemma index_of_nonneg (n : nat) (i : Z) :
  0 <= i ->
  Py.index_of n i
  = if i <? Z.of_nat n then Some (Z.to_nat i) else None.
Proof.
  intros Hi. unfold Py.index_of.
  destruct (Z.ltb_spec i 0) as [H | H]; [lia |].
  destruct (Z.leb_spec 0 i) as [_ | H']; [reflexivity | lia].
Qed.

Lemma getitem_nonneg (l : list A) (i : Z) :
  0 <= i ->
  Py.getitem l i
  = match nth_error l (Z.to_nat i) with
    | Some a => Ok a
    | None => Raise IndexError
    end.
Proof.
  intros Hi. unfold Py.getitem. rewrite index_of_nonneg by exact Hi.
  destruct (Z.ltb_spec i (Z.of_nat (List.length l))) as [H | H];
    [reflexivity |].
  assert (E : nth_error l (Z.to_nat i) = None)
    by (apply nth_error_None; lia).
  now rewrite E.
Qed.

Lemma setitem_nonneg (l : list A) (i : Z) (v a : A) :
  0 <= i ->
  nth_error l (Z.to_nat i) = Some a ->
  Py.setitem l i v = Ok (Py.update l (Z.to_nat i) v).
Proof.
  intros Hi Hn. unfold Py.setitem. rewrite index_of_nonneg by exact Hi.
  assert (Hlt : (Z.to_nat i < List.length l)%nat)
    by (apply nth_error_Some; congruence).
  destruct (Z.ltb_spec i (Z.of_nat (List.length l))); [reflexivity | lia].
Qed.

Lemma length_update (l : list A) (k : nat) (v : A) :
  List.length (Py.update l k v) = List.length l.
Proof.
  revert k. induction l as [|a l IH]; intros [|k]; simpl; auto.
Qed.

Lemma nth_error_update_eq (l : list A) (k : nat) (v a : A) :
  nth_error l k = Some a -> nth_error (Py.update l k v) k = Some v.
Proof.
  revert k. induction l as [|b l IH]; intros [|k]; simpl; try discriminate.
  - reflexivity.
  - apply IH.
Qed.

Lemma nth_error_update_ne (l : list A) (k j : nat) (v : A) :
  j <> k -> nth_error (Py.update l k v) j = nth_error l j.
Proof.
  revert k j. induction l as [|b l IH]; intros [|k] [|j] H; simpl;
    try reflexivity; try congruence.
  apply IH. congruence.
Qed.

Lemma update_out_of_range (l : list A) (k : nat) (v : A) :
  nth_error l k = None -> Py.update l k v = l.
Proof.
  revert k. induction l as [|b l IH]; intros [|k]; simpl; try discriminate.
  - reflexivity.
  - reflexivity.
  - intros H. now rewrite IH.
Qed.

Lemma nth_error_nth_default (l : list A) (k : nat) (a d : A) :
  nth_error l k = Some a -> nth k l d = a.
Proof. intros H. now apply nth_error_nth. Qed.

Lemma list_ext (l l' : list A) :
  (forall k, nth_error l k = nth_error l' k) -> l = l'.
Proof.
  revert l'. induction l as [|a l IH]; intros [|a' l'] H.
  - reflexivity.
  - specialize (H 0%nat). discriminate.
  - specialize (H 0%nat). discriminate.
  - f_equal.
    + specialize (H 0%nat). simpl in H. congruence.
    + apply IH. intros k. apply (H (S k)).
Qed.

End ListFacts.

Section GridFacts.

Variable g : Board.Grid.

Lemma shape_grid_set (r c : nat) (v : option ascii) :
  shape (grid_set g r c v) = shape g.
Proof.
  unfold grid_set, shape.
  destruct (nth_error g r) as [cells|] eqn:E.
  - apply list_ext. intros k. rewrite !nth_error_map.
    destruct (Nat.eq_dec k r) as [-> | Hk].
    + rewrite (nth_error_update_eq _ _ _ _ E), E. simpl.
      rewrite length_update. now rewrite (nth_error_nth_default _ _ _ _ E).
    + now rewrite nth_error_update_ne.
  - now rewrite update_out_of_range.
Qed.

Lemma slot_grid_set_eq (r c : nat) (v x : option ascii) :
  slot g r c = Some x -> slot (grid_set g r c v) r c = Some v.
Proof.
  unfold slot, grid_set.
  destruct (nth_error g r) as [cells|] eqn:E; [|discriminate].
  intros H. rewrite (nth_error_update_eq _ _ _ _ E).
  rewrite (nth_error_nth_default _ _ _ _ E).
  now apply nth_error_update_eq with (a := x).
Qed.

Lemma slot_grid_set_ne (r c r' c' : nat) (v : option ascii) :
  (r', c') <> (r, c) ->
  slot (grid_set g r c v) r' c' = slot g r' c'.
Proof.
  intros H. unfold slot, grid_set.
  destruct (Nat.eq_dec r' r) as [-> | Hr].
  - destruct (nth_error g r) as [cells|] eqn:E.
    + rewrite (nth_error_update_eq _ _ _ _ E).
      rewrite (nth_error_nth_default _ _ _ _ E).
      apply nth_error_update_ne. congruence.
    + now rewrite update_out_of_range, E.
  - now rewrite nth_error_update_ne.
Qed.

(** Two grids of one shape with the same slots are the same grid. *)
Lemma grid_ext (g' : Board.Grid) :
  shape g = shape g' ->
  (forall r c, slot g r c = slot g' r c) ->
  g = g'.
Proof.
  intros Hs Hc. apply list_ext. intros r.
  assert (Hl : nth_error (shape g) r = nth_error (shape g') r)
    by now rewrite Hs.
  unfold shape in Hl. rewrite !nth_error_map in Hl.
  specialize (Hc r). unfold slot in Hc.
  destruct (nth_error g r) as [cells|], (nth_error g' r) as [cells'|];
    simpl in Hl; try discriminate; [|reflexivity].
  f_equal. apply list_ext. exact Hc.
Qed.

End GridFacts.

Section BoardReads.

Variable self : Board.t.

Lemma cell_nonneg (row col : Z) :
  0 <= row -> 0 <= col ->
  Board.cell self row col
  = match slot (Board.board self) (Z.to_nat row) (Z.to_nat col) with
    | Some x => Ok x
    | None => Raise IndexError
    end.
Proof.
  intros Hr Hc. unfold Board.cell, slot.
  rewrite getitem_nonneg by exact Hr.
  destruct (nth_error (Board.board self) (Z.to_nat row)) as [cells|];
    simpl; [|reflexivity].
  now rewrite getitem_nonneg by exact Hc.
Qed.

Lemma set_cell_nonneg (row col : Z) (v x : option ascii) :
  0 <= row -> 0 <= col ->
  slot (Board.board self) (Z.to_nat row) (Z.to_nat col) = Some x ->
  Board.set_cell row col v self
  = (Ok tt,
     Board.with_board self
       (grid_set (Board.board self) (Z.to_nat row) (Z.to_nat col) v)).
Proof.
  intros Hr Hc Hs. unfold Board.set_cell, slot, grid_set in *.
  rewrite getitem_nonneg by exact Hr.
  destruct (nth_error (Board.board self) (Z.to_nat row)) as [cells|] eqn:E;
    [|discriminate].
  simpl.
  rewrite (setitem_nonneg cells col v x Hc Hs). simpl.
  rewrite (setitem_nonneg (Board.board self) row _ cells Hr E).
  now rewrite (nth_error_nth_default _ _ _ _ E).
Qed.

Lemma valid_coord_nonneg (row col : Z) :
  Board._is_valid_coord self row col = true ->
  0 <= row < Z.of_nat (List.length (Board.board self))
  /\ 0 <= col < Z.of_nat (List.length (hd [] (Board.board self))).
Proof.
  unfold Board._is_valid_coord.
  rewrite !andb_true_iff, !Z.leb_le, !Z.ltb_lt. tauto.
Qed.

End BoardReads.

(** ** The dimensions of a board *)

Section Frame.

Lemma same_frame_refl (self : Board.t) : same_frame self self.
Proof. repeat split. Qed.

Lemma same_frame_trans (s1 s2 s3 : Board.t) :
  same_frame s1 s2 -> same_frame s2 s3 -> same_frame s1 s3.
Proof.
  unfold same_frame. intros (a1 & a2 & a3 & a4 & a5) (b1 & b2 & b3 & b4 & b5).
  repeat split; congruence.
Qed.

Context {A B : Type}.

Lemma keeps_ret (a : A) : keeps_frame (Board.ret a).
Proof. intros self. apply same_frame_refl. Qed.

Lemma keeps_read (f : Board.t -> Result A) : keeps_frame (Board.read f).
Proof. intros self. apply same_frame_refl. Qed.

Lemma keeps_bind (m : Board.M A) (k : A -> Board.M B) :
  keeps_frame m -> (forall a, keeps_frame (k a)) ->
  keeps_frame (Board.bindM m k).
Proof.
  intros Hm Hk self. unfold Board.bindM.
  specialize (Hm self). destruct (m self) as [[a | e] s1]; simpl in *.
  - eapply same_frame_trans; [exact Hm | apply Hk].
  - exact Hm.
Qed.

End Frame.

Lemma keeps_set_cell (row col : Z) (v : option ascii) :
  keeps_frame (Board.set_cell row col v).
Proof.
  intros self. unfold Board.set_cell, Py.getitem, Py.setitem.
  destruct (Py.index_of (List.length (Board.board self)) row) as [k|];
    simpl; [|apply same_frame_refl].
  destruct (nth_error (Board.board self) k) as [cells|] eqn:E;
    simpl; [|apply same_frame_refl].
  destruct (Py.index_of (List.length cells) col) as [k'|];
    simpl; [|apply same_frame_refl].
  repeat split. simpl.
  rewrite <- (shape_grid_set (Board.board self) k k' v).
  unfold grid_set. now rewrite (nth_error_nth_default _ _ _ _ E).
Qed.

Lemma keeps_last_play_append (coord : Z * Z) :
  keeps_frame (Board.last_play_append coord).
Proof. intros self. repeat split. Qed.

Lemma keeps_last_play_clear : keeps_frame Board.last_play_clear.
Proof. intros self. repeat split. Qed.

Ltac frame :=
  repeat first
    [ apply keeps_ret
    | apply keeps_read
    | apply keeps_set_cell
    | apply keeps_last_play_append
    | apply keeps_last_play_clear
    | apply keeps_bind; [|intros ?]
    | match goal with
      | |- keeps_frame (if ?b then _ else _) => destruct b
      | |- keeps_frame (match ?x with _ => _ end) => destruct x
      end ].

Lemma keeps_clear_cells (coords : list (Z * Z)) :
  keeps_frame (Board.clear_cells coords).
Proof.
  induction coords as [|coord coords IH]; simpl; frame. exact IH.
Qed.

Lemma keeps_undo_play : keeps_frame Board.undo_play.
Proof.
  intros self. unfold Board.undo_play.
  apply keeps_bind; [apply keeps_clear_cells | intros; frame].
Qed.

Lemma keeps_place_letter (is_first_play : bool) (cr cc : Z)
  (direction : Board.Direction) (letter : ascii) (v : Board.Vars) :
  keeps_frame (Board.place_letter is_first_play cr cc direction letter v).
Proof.
  unfold Board.place_letter.
  destruct (Board.advance direction (Board.row v) (Board.col v)).
  frame.
Qed.

Lemma keeps_place_letters (is_first_play : bool) (cr cc : Z)
  (direction : Board.Direction) (word : string) :
  forall v,
    keeps_frame (Board.place_letters is_first_play cr cc direction word v).
Proof.
  induction word as [|letter word IH]; intros v; simpl.
  - apply keeps_ret.
  - apply keeps_bind; [apply keeps_place_letter | intros; apply IH].
Qed.

Lemma keeps_set_word (word : string) (row col : Z)
  (direction : Board.Direction) :
  keeps_frame (Board.set_word word row col direction).
Proof.
  unfold Board.set_word.
  repeat (apply keeps_bind; [try apply keeps_place_letters; frame | intros ?]).
  frame.
Qed.

Lemma keeps_play_word (word : string) (row col : Z)
  (direction : Board.Direction) :
  keeps_frame (Board.play_word word row col direction).
Proof.
  unfold Board.play_word.
  apply keeps_bind; [apply keeps_set_word | intros res].
  destruct (snd res); [apply keeps_ret |].
  apply keeps_bind; [apply keeps_undo_play | intros; apply keeps_ret].
Qed.

Example default_board_is_scrabble_board : default_board = Ok scrabble_board.
Proof. reflexivity. Qed.

Example sample_plays_of_the_script :
  let p1 := Board.play_word "BROOK" 7 3 Board.RIGHT scrabble_board in
  let p2 := Board.play_word "JAR" 5 4 Board.DOWN (snd p1) in
  let p3 := Board.play_word "ZAS" 5 8 Board.DOWN (snd p2) in
  let p4 := Board.play_word "VUG" 5 2 Board.RIGHT (snd p3) in
  let p5 := Board.play_word "FAR" 4 3 Board.RIGHT (snd p4) in
  let p6 := Board.play_word "BRO" 8 5 Board.RIGHT (snd p5) in
  let p7 := Board.play_word "CAR" 2 2 Board.RIGHT (snd p6) in
  map fst [p1; p2; p3; p4; p5; p6; p7]
  = [Ok 28; Ok 10; Ok 25; Ok INVALID_PLAY; Ok 34; Ok 19; Ok INVALID_PLAY]
  /\ Board.board (snd p4) = Board.board (snd p3)
  /\ Board.board (snd p7) = Board.board (snd p6).
Proof. vm_compute. repeat split; reflexivity. Qed.

(** C8 (as the code has it).  Construction checks no dimensions and
    raises nothing for them: a grid the caller supplies is stored as
    given, next to the supplied or the default multiplier grid.  When
    no grid is supplied, the grid is built with as many rows as the
    multiplier grid and as many columns as its first row, so the two
    have the same dimensions whenever the rows of the multiplier grid
    are equally long.  No method changes the dimensions of the grid or
    the multiplier grid afterwards, whatever its outcome. *)
Theorem board_dimensions_follow_the_caller :
  (forall game_dct g bm ls,
      Board.init game_dct (Some g) bm None ls
      = Ok (Board.Build game_dct g (Board._set_board_multipliers bm) None
                        (Board._set_letter_scoring ls) []))
  /\ (forall game_dct bm ld ls b,
         Board.init game_dct None bm ld ls = Ok b ->
         (forall cells, In cells (Board.multipliers b) ->
                        List.length cells
                        = List.length (hd [] (Board.multipliers b))) ->
         shape (Board.board b) = shape (Board.multipliers b))
  /\ (forall word row col direction self,
         same_frame self (snd (Board.play_word word row col direction self)))
  /\ (forall self, same_frame self (snd (Board.undo_play self))).
Proof.
  split; [|split; [|split]].
  - intros game_dct g bm ls. reflexivity.
  - intros game_dct bm ld ls b Hinit Hrect.
    unfold Board.init in Hinit.
    destruct (Board._set_board None bm) as [g|] eqn:Eg; [|discriminate].
    simpl in Hinit.
    destruct (_fill_bag ld) as [l|]; [|discriminate].
    injection Hinit as <-. simpl in *.
    destruct bm as [m|]; simpl in *.
    + destruct m as [|r0 m]; [discriminate |].
      injection Eg as <-.
      unfold _create_2d_list, shape.
      rewrite map_repeat, repeat_length.
      simpl in Hrect.
      assert (H : forall l : list (list string),
                 (forall cells, In cells l ->
                                List.length cells = List.length r0) ->
                 repeat (List.length r0) (List.length l)
                 = map (@List.length string) l).
      { intros l0. induction l0 as [|x l0 IH]; intros Hl; simpl;
          [reflexivity |].
        rewrite (Hl x) by now left.
        f_equal. apply IH. intros cells Hin. apply Hl. now right. }
      apply (H (r0 :: m)). exact Hrect.
    + injection Eg as <-. reflexivity.
  - intros. apply keeps_play_word.
  - intros. apply keeps_undo_play.
Qed.

Lemma board_dimensions_follow_the_caller_witness :
  shape (Board.board scrabble_board)
  = shape (Board.multipliers scrabble_board).
Proof.
  apply (proj1 (proj2 board_dimensions_follow_the_caller)
               empty_dictionary None None None scrabble_board).
  - reflexivity.
  - intros cells Hin. simpl in Hin.
    repeat (destruct Hin as [<- | Hin]; [reflexivity |]).
    contradiction.
Defined.

(** C8, the claim as stated fails: a 1 x 1 grid supplied together with
    a 2 x 2 multiplier grid is accepted, and the board built has grids
    of different dimensions. *)
Lemma board_init_accepts_disagreeing_sizes :
  exists b,
    Board.init empty_dictionary (Some [[None]])
               (Some [["1L"; "1L"]; ["1L"; "1L"]]) None None = Ok b
    /\ shape (Board.board b) = [1%nat]
    /\ shape (Board.multipliers b) = [2%nat; 2%nat]
    /\ shape (Board.board b) <> shape (Board.multipliers b).
Proof.
  eexists. split; [reflexivity |]. repeat split. discriminate.
Qed.

(** ** The cross-word walk ends *)

Section WalkFuel.

Lemma index_of_some_in_range (n : nat) (i : Z) (k : nat) :
  Py.index_of n i = Some k -> - Z.of_nat n <= i < Z.of_nat n.
Proof.
  unfold Py.index_of.
  destruct (Z.ltb_spec i 0);
    match goal with
    | |- context [(?a <=? ?b) && (?c <? ?e)] =>
        destruct (Z.leb_spec a b); destruct (Z.ltb_spec c e)
    end; simpl; try discriminate; intros _; lia.
Qed.

Lemma getitem_ok_in_range {A : Type} (l : list A) (i : Z) (a : A) :
  Py.getitem l i = Ok a ->
  - Z.of_nat (List.length l) <= i < Z.of_nat (List.length l).
Proof.
  unfold Py.getitem.
  destruct (Py.index_of (List.length l) i) as [k|] eqn:E; [|discriminate].
  intros _. eapply index_of_some_in_range. exact E.
Qed.

Lemma cells_ahead_step (n : nat) (i delta : Z) :
  delta = 1 \/ delta = -1 ->
  - Z.of_nat n <= i < Z.of_nat n ->
  (S (cells_ahead n (i + delta) delta) <= cells_ahead n i delta)%nat.
Proof.
  intros Hd Hi. unfold cells_ahead.
  destruct (Z.leb_spec (- Z.of_nat n) i); [|lia].
  destruct (Z.ltb_spec i (Z.of_nat n)); [|lia]. simpl.
  destruct (Z.leb_spec (- Z.of_nat n) (i + delta));
    destruct (Z.ltb_spec (i + delta) (Z.of_nat n)); simpl;
    destruct (Z.ltb_spec 0 delta); lia.
Qed.

Lemma cells_ahead_bound (n : nat) (i delta : Z) :
  (cells_ahead n i delta <= 2 * n)%nat.
Proof.
  unfold cells_ahead.
  destruct (Z.leb_spec (- Z.of_nat n) i);
    destruct (Z.ltb_spec i (Z.of_nat n)); simpl; try lia.
  destruct (Z.ltb_spec 0 delta); lia.
Qed.

Variable self : Board.t.

(** A walk along a column: the row index moves. *)
Lemma piece_walk_rows_fuel (delta : Z) :
  delta = 1 \/ delta = -1 ->
  forall (k fuel : nat) (row col acc : Z),
    (cells_ahead (List.length (Board.board self)) row delta <= k)%nat ->
    (k < fuel)%nat ->
    Board.piece_walk fuel self row col delta 0 acc
    = Board.piece_walk (S k) self row col delta 0 acc.
Proof.
  intros Hd. induction k as [|k IH]; intros fuel row col acc Hk Hf;
    (destruct fuel as [|fuel]; [lia |]);
    cbn [Board.piece_walk]; unfold Board.cell;
    destruct (Py.getitem (Board.board self) row) as [cells | e] eqn:E;
    simpl; try reflexivity;
    pose proof (cells_ahead_step _ _ _ Hd (getitem_ok_in_range _ _ _ E));
    [lia |].
  destruct (Py.getitem cells col) as [[tile|] | e]; simpl; try reflexivity.
  destruct (Board.get_score self (String tile "")) as [s | e]; simpl;
    [|reflexivity].
  apply IH; lia.
Qed.

(** A walk along a row: the column index moves. *)
Lemma piece_walk_cols_fuel (delta : Z) (row : Z) (cells : list (option ascii)) :
  delta = 1 \/ delta = -1 ->
  Py.getitem (Board.board self) row = Ok cells ->
  forall (k fuel : nat) (col acc : Z),
    (cells_ahead (List.length cells) col delta <= k)%nat ->
    (k < fuel)%nat ->
    Board.piece_walk fuel self row col 0 delta acc
    = Board.piece_walk (S k) self row col 0 delta acc.
Proof.
  intros Hd Hrow. induction k as [|k IH]; intros fuel col acc Hk Hf;
    (destruct fuel as [|fuel]; [lia |]);
    cbn [Board.piece_walk]; unfold Board.cell; rewrite Hrow; simpl;
    destruct (Py.getitem cells col) as [[tile|] | e] eqn:E;
    simpl; try reflexivity;
    pose proof (cells_ahead_step _ _ _ Hd (getitem_ok_in_range _ _ _ E));
    [lia |].
  destruct (Board.get_score self (String tile "")) as [s | e]; simpl;
    [|reflexivity].
  rewrite Z.add_0_r. apply IH; lia.
Qed.

(** The fuel of [_get_cross_word_score_piece] never runs out: more
    fuel gives the same result. *)
Lemma cross_word_piece_fuel (row col : Z) (cross_dir : Board.Direction)
  (is_neg_dir : bool) (fuel : nat) :
  (Board.walk_fuel self row <= fuel)%nat ->
  (let '(dr, dc) :=
     match cross_dir with
     | Board.DOWN => (if is_neg_dir then -1 else 1, 0)
     | Board.RIGHT => (0, if is_neg_dir then -1 else 1)
     end in
   Board.piece_walk fuel self (row + dr) (col + dc) dr dc 0)
  = Board._get_cross_word_score_piece self row col cross_dir is_neg_dir.
Proof.
  intros Hf. unfold Board._get_cross_word_score_piece.
  unfold Board.walk_fuel in *.
  destruct cross_dir.
  - assert (Hd : (if is_neg_dir then -1 else 1) = 1
                 \/ (if is_neg_dir then -1 else 1) = -1)
      by (destruct is_neg_dir; auto).
    pose proof (cells_ahead_bound (List.length (Board.board self))
                  (row + (if is_neg_dir then -1 else 1))
                  (if is_neg_dir then -1 else 1)) as Hb.
    rewrite (piece_walk_rows_fuel _ Hd (2 * List.length (Board.board self))
               fuel) by lia.
    symmetry. apply piece_walk_rows_fuel; [exact Hd | exact Hb | lia].
  - assert (Hd : (if is_neg_dir then -1 else 1) = 1
                 \/ (if is_neg_dir then -1 else 1) = -1)
      by (destruct is_neg_dir; auto).
    rewrite Z.add_0_r.
    destruct (Py.getitem (Board.board self) row) as [cells | e] eqn:E.
    + pose proof (cells_ahead_bound (List.length cells)
                    (col + (if is_neg_dir then -1 else 1))
                    (if is_neg_dir then -1 else 1)) as Hb.
      rewrite (piece_walk_cols_fuel _ _ _ Hd E (2 * List.length cells) fuel)
        by lia.
      symmetry. apply (piece_walk_cols_fuel _ _ _ Hd E); [exact Hb | lia].
    + destruct fuel as [|fuel]; [lia |].
      rewrite Nat.add_0_r.
      replace (2 * List.length (Board.board self) + 2)%nat
        with (S (2 * List.length (Board.board self) + 1))%nat by lia.
      cbn [Board.piece_walk]. unfold Board.cell. now rewrite E.
Qed.

End WalkFuel.

(** ** Plays at the edge of the grid *)

(** C3 (code defect).  The claim: the perpendicular-neighbour test and
    the cross-word walk read only cells of the grid, stop at its edge
    and never wrap around.  On the empty standard board, placing "A" in
    the last column (going DOWN) or in the last row (going RIGHT) makes
    the neighbour test read column 15 or row 15: IndexError, with the
    letter left on the grid.  In column 0 the test reads index -1, the
    cell at the opposite edge: with BROOKLYN on row 7 up to column 14,
    a letter placed at (7, 0) going DOWN finds the "N" of column 14 as
    its left neighbour, and the walk to the left collects all of
    BROOKLYN, 17 points, into the cross-word score. *)
Theorem perpendicular_reads_leave_the_grid :
  fst (Board.play_word "A" 0 14 Board.DOWN scrabble_board) = Raise IndexError
  /\ slot (Board.board
             (snd (Board.play_word "A" 0 14 Board.DOWN scrabble_board)))
          0 14 = Some (Some "A"%char)
  /\ fst (Board.play_word "A" 14 0 Board.RIGHT scrabble_board)
     = Raise IndexError
  /\ slot (Board.board board_after_brooklyn) 7 14 = Some (Some "N"%char)
  /\ Board.cell board_after_brooklyn 7 (0 - 1) = Ok (Some "N"%char)
  /\ Board._get_cross_word_score_piece board_after_brooklyn 7 0
                                       Board.RIGHT true = Ok 17
  /\ fst (Board.set_word "A" 7 0 Board.DOWN board_after_brooklyn)
     = Ok (3 * 1 + 3 * (17 + 1), false).
Proof. vm_compute. repeat split; reflexivity. Qed.

(** C1 (code defect).  The claim: a placement is accepted iff every
    letter is on-grid without a conflicting letter and the word covers
    the centre (empty board) or touches an existing tile.  With
    BROOKLYN on row 7, "AN" going DOWN from (6, 14) satisfies the rule
    (both letters on-grid, "N" overlaps the "N" of BROOKLYN), but the
    attempt is not accepted: placing "A" in the last column raises
    IndexError in the perpendicular-neighbour test. *)
Theorem legal_play_in_last_column_raises :
  fst (Board.play_word "BROOKLYN" 7 7 Board.RIGHT scrabble_board) = Ok 132
  /\ spec_legal_play (Board.board board_after_brooklyn) "AN" 6 14 Board.DOWN
     = true
  /\ fst (Board.set_word "AN" 6 14 Board.DOWN board_after_brooklyn)
     = Raise IndexError
  /\ fst (Board.play_word "AN" 6 14 Board.DOWN board_after_brooklyn)
     = Raise IndexError.
Proof. vm_compute. repeat split; reflexivity. Qed.

(** ** One letter of an attempt *)

Lemma place_letter_cases (is_first_play : bool) (cr cc : Z)
  (d : Board.Direction) (letter : ascii) (v v' : Board.Vars)
  (self self' : Board.t) :
  Board.place_letter is_first_play cr cc d letter v self = (Ok v', self') ->
  Board.row v' = fst (Board.advance d (Board.row v) (Board.col v))
  /\ Board.col v' = snd (Board.advance d (Board.row v) (Board.col v))
  /\ if Board._is_valid_coord self (Board.row v) (Board.col v) then
       exists here touch,
         Board.cell self (Board.row v) (Board.col v) = Ok here
         /\ (if (negb (Board.touching_word v) && negb is_first_play)%bool
             then Board._is_touching_word self (Board.row v) (Board.col v) d
                  = Ok touch
             else touch = false)
         /\ Board.play_through_center v'
            = ((is_first_play && (Board.row v =? cr) && (Board.col v =? cc))
               || Board.play_through_center v)%bool
         /\ Board.touching_word v' = (touch || Board.touching_word v)%bool
         /\ match here with
            | None =>
                self'
                = Board.with_last_play
                    (Board.with_board self
                       (grid_set (Board.board self)
                                 (Z.to_nat (Board.row v))
                                 (Z.to_nat (Board.col v)) (Some letter)))
                    (Board.last_play self ++ [(Board.row v, Board.col v)])
                /\ Board.valid_play v' = Board.valid_play v
            | Some tile =>
                self' = self
                /\ Board.valid_play v'
                   = (Board.valid_play v && Ascii.eqb tile letter)%bool
            end
     else
       self' = self
       /\ Board.valid_play v' = false
       /\ Board.play_through_center v' = Board.play_through_center v
       /\ Board.touching_word v' = Board.touching_word v.
Proof.
  intros H. unfold Board.place_letter in H.
  destruct (Board.advance d (Board.row v) (Board.col v)) as [row' col'].
  cbv [Board.bindM Board.read Board.ret] in H.
  destruct (Board._is_valid_coord self (Board.row v) (Board.col v)) eqn:Ev.
  2:{ injection H as <- <-. simpl. repeat split; reflexivity. }
  destruct (valid_coord_nonneg _ _ _ Ev) as [[Hr _] [Hc _]].
  assert (Hslot : forall x,
             Board.cell self (Board.row v) (Board.col v) = Ok x ->
             slot (Board.board self) (Z.to_nat (Board.row v))
                  (Z.to_nat (Board.col v)) = Some x).
  { intros x Hx. rewrite cell_nonneg in Hx by assumption.
    destruct (slot _ _ _); [congruence | discriminate]. }
  assert (Hbool : forall b c : bool, (if b then true else c) = (b || c)%bool)
    by (intros [] ?; reflexivity).
  destruct (negb (Board.touching_word v) && negb is_first_play)%bool eqn:Et;
    [destruct (Board._is_touching_word self (Board.row v) (Board.col v) d)
      as [touch | e] eqn:Etw; [|discriminate] |].
  all: destruct (Board.cell self (Board.row v) (Board.col v))
      as [here | e] eqn:Ec; [|discriminate].
  all: destruct here as [tile |].
  1,3: destruct (Ascii.eqb tile letter) eqn:Eeq;
    [destruct (Board.get_score self (String letter "")); [|discriminate] |];
    injection H as <- <-; simpl;
    (split; [reflexivity | split; [reflexivity |]]);
    eexists _, _; (split; [reflexivity | split; [reflexivity |]]);
    rewrite ?Hbool, ?Eeq, ?andb_true_r, ?andb_false_r;
    repeat split; reflexivity.
  all: rewrite (set_cell_nonneg self _ _ (Some letter) None Hr Hc
                  (Hslot _ eq_refl)) in H;
    unfold Board.last_play_append in H;
    match type of H with
    | context [Board.get_multiplier ?s ?r ?c] =>
        destruct (Board.get_multiplier s r c) as [multiplier | e];
        [|discriminate]
    end;
    match type of H with
    | context [Board.get_score ?s ?w] =>
        destruct (Board.get_score s w) as [sc | e]; [|discriminate]
    end;
    destruct (multiplier >=? 0);
    match type of H with
    | context [Board.has_perpendicular_neighbour ?s ?r ?c ?dd] =>
        destruct (Board.has_perpendicular_neighbour s r c dd)
          as [crossing | e]; [|discriminate]
    end;
    (destruct crossing;
     [match type of H with
      | context [Board._get_cross_word_score ?s ?l ?r ?c ?dd ?m] =>
          destruct (Board._get_cross_word_score s l r c dd m)
            as [cross | e]; [|discriminate]
      end |]);
    injection H as <- <-; simpl;
    (split; [reflexivity | split; [reflexivity |]]);
    eexists _, _; (split; [reflexivity | split; [reflexivity |]]);
    rewrite ?Hbool; repeat split; reflexivity.
Qed.

(** ** The grid during an attempt *)

Section Behind.

Variable d : Board.Direction.
Variables row col : Z.

Lemma behind_advance (coord : Z * Z) :
  behind d row col coord ->
  behind d (fst (Board.advance d row col)) (snd (Board.advance d row col))
         coord.
Proof. destruct d; simpl; intros [H1 H2]; split; lia. Qed.

Lemma behind_current :
  behind d (fst (Board.advance d row col)) (snd (Board.advance d row col))
         (row, col).
Proof. destruct d; simpl; split; lia. Qed.

Lemma behind_irrefl : ~ behind d row col (row, col).
Proof. destruct d; simpl; intros [H1 H2]; lia. Qed.

End Behind.

Lemma attempt_inv_not_recorded (g0 : Board.Grid) (d : Board.Direction)
  (row col : Z) (self : Board.t) (coord : Z * Z) :
  attempt_inv g0 d row col self ->
  ~ behind d row col coord ->
  ~ In coord (Board.last_play self).
Proof.
  intros Hinv Hnb Hin.
  apply Hnb. now apply (inv_written _ _ _ _ _ Hinv).
Qed.

Lemma place_letter_inv (g0 : Board.Grid) (is_first_play : bool) (cr cc : Z)
  (d : Board.Direction) (letter : ascii) (v v' : Board.Vars)
  (self self' : Board.t) :
  attempt_inv g0 d (Board.row v) (Board.col v) self ->
  Board.place_letter is_first_play cr cc d letter v self = (Ok v', self') ->
  attempt_inv g0 d (Board.row v') (Board.col v') self'.
Proof.
  intros Hinv H. apply place_letter_cases in H.
  destruct H as (-> & -> & Hcase).
  assert (Hkeep : attempt_inv g0 d
                    (fst (Board.advance d (Board.row v) (Board.col v)))
                    (snd (Board.advance d (Board.row v) (Board.col v))) self).
  { destruct Hinv as [Hs Hsame Hw]. split; [exact Hs | exact Hsame |].
    intros coord Hin. destruct (Hw coord Hin) as (a & b & c & e & f).
    repeat split; try assumption. now apply behind_advance. }
  destruct (Board._is_valid_coord self (Board.row v) (Board.col v)) eqn:Ev.
  2:{ destruct Hcase as (-> & _). exact Hkeep. }
  destruct Hcase as (here & touch & Hcell & _ & _ & _ & Hhere).
  destruct here as [tile|].
  { destruct Hhere as (-> & _). exact Hkeep. }
  destruct Hhere as (-> & _).
  destruct (valid_coord_nonneg _ _ _ Ev) as [[Hr _] [Hc _]].
  rewrite cell_nonneg in Hcell by assumption.
  destruct (slot (Board.board self) (Z.to_nat (Board.row v))
              (Z.to_nat (Board.col v))) as [x|] eqn:Es; [|discriminate].
  injection Hcell as ->.
  assert (Hnot : ~ In (Board.row v, Board.col v) (Board.last_play self))
    by (eapply attempt_inv_not_recorded; [exact Hinv | apply behind_irrefl]).
  destruct Hinv as [Hs Hsame Hw].
  split; simpl.
  - now rewrite shape_grid_set.
  - intros r c Hnin. rewrite in_app_iff in Hnin.
    rewrite slot_grid_set_ne.
    + apply Hsame. tauto.
    + intros E. injection E as -> ->. apply Hnin. right. left.
      now rewrite !Z2Nat.id.
  - intros coord Hin. rewrite in_app_iff in Hin. destruct Hin as [Hin | Hin].
    + destruct (Hw coord Hin) as (a & b & c & e & f).
      repeat split; try assumption.
      * destruct (Nat.eq_dec (Z.to_nat (fst coord)) (Z.to_nat (Board.row v)))
          as [E1|E1];
          [destruct (Nat.eq_dec (Z.to_nat (snd coord))
                       (Z.to_nat (Board.col v))) as [E2|E2] |].
        -- rewrite E1, E2. rewrite (slot_grid_set_eq _ _ _ _ _ Es).
           now exists letter.
        -- rewrite slot_grid_set_ne by congruence. exact e.
        -- rewrite slot_grid_set_ne by congruence. exact e.
      * now apply behind_advance.
    + destruct Hin as [<- | []]. simpl.
      repeat split; try assumption.
      * rewrite <- Hsame, Es; [reflexivity |]. now rewrite !Z2Nat.id.
      * rewrite (slot_grid_set_eq _ _ _ _ _ Es). now exists letter.
      * apply behind_current.
Qed.

Lemma place_letters_inv (g0 : Board.Grid) (is_first_play : bool) (cr cc : Z)
  (d : Board.Direction) (word : string) :
  forall (v v' : Board.Vars) (self self' : Board.t),
    attempt_inv g0 d (Board.row v) (Board.col v) self ->
    Board.place_letters is_first_play cr cc d word v self = (Ok v', self') ->
    attempt_inv g0 d (Board.row v') (Board.col v') self'.
Proof.
  induction word as [|letter word IH]; intros v v' self self' Hinv H.
  - injection H as <- <-. exact Hinv.
  - simpl in H. unfold Board.bindM in H.
    destruct (Board.place_letter is_first_play cr cc d letter v self)
      as [[v1 | e] self1] eqn:E1; [|discriminate].
    eapply IH; [|exact H].
    eapply place_letter_inv; [exact Hinv | exact E1].
Qed.

Section ClearAll.

Lemma clear_all_cons (g : Board.Grid) (coord : Z * Z)
  (coords : list (Z * Z)) :
  clear_all g (coord :: coords)
  = clear_all (grid_set g (Z.to_nat (fst coord)) (Z.to_nat (snd coord)) None)
              coords.
Proof. reflexivity. Qed.

Lemma shape_clear_all (coords : list (Z * Z)) :
  forall g, shape (clear_all g coords) = shape g.
Proof.
  induction coords as [|coord coords IH]; intros g; [reflexivity |].
  now rewrite clear_all_cons, IH, shape_grid_set.
Qed.

Lemma slot_clear_all_other (r c : nat) (coords : list (Z * Z)) :
  forall g,
    (forall coord, In coord coords ->
                   (Z.to_nat (fst coord), Z.to_nat (snd coord)) <> (r, c)) ->
    slot (clear_all g coords) r c = slot g r c.
Proof.
  induction coords as [|coord coords IH]; intros g H; [reflexivity |].
  rewrite clear_all_cons, IH.
  - apply slot_grid_set_ne. intros E. apply (H coord); [now left | congruence].
  - intros coord' Hin. apply H. now right.
Qed.

Lemma slot_clear_all_empty (r c : nat) (coords : list (Z * Z)) :
  forall g,
    slot g r c = Some None -> slot (clear_all g coords) r c = Some None.
Proof.
  induction coords as [|coord coords IH]; intros g H; [exact H |].
  rewrite clear_all_cons. apply IH.
  destruct (Nat.eq_dec (Z.to_nat (fst coord)) r) as [E1|E1];
    [destruct (Nat.eq_dec (Z.to_nat (snd coord)) c) as [E2|E2] |].
  - subst. now apply slot_grid_set_eq with (x := None).
  - rewrite slot_grid_set_ne by congruence. exact H.
  - rewrite slot_grid_set_ne by congruence. exact H.
Qed.

Lemma slot_clear_all_hit (coord : Z * Z) (coords : list (Z * Z)) :
  forall g,
    In coord coords ->
    slot g (Z.to_nat (fst coord)) (Z.to_nat (snd coord)) <> None ->
    slot (clear_all g coords) (Z.to_nat (fst coord)) (Z.to_nat (snd coord))
    = Some None.
Proof.
  induction coords as [|coord' coords IH]; intros g Hin Hs; [contradiction |].
  rewrite clear_all_cons.
  destruct (slot g (Z.to_nat (fst coord)) (Z.to_nat (snd coord)))
    as [x|] eqn:Es; [|congruence].
  destruct (Nat.eq_dec (Z.to_nat (fst coord')) (Z.to_nat (fst coord)))
    as [E1|E1];
    [destruct (Nat.eq_dec (Z.to_nat (snd coord')) (Z.to_nat (snd coord)))
      as [E2|E2] |].
  - apply (slot_clear_all_empty _ _ coords). rewrite E1, E2.
    now apply slot_grid_set_eq with (x := x).
  - destruct Hin as [-> | Hin]; [congruence |].
    apply IH; [exact Hin |].
    rewrite slot_grid_set_ne by congruence. congruence.
  - destruct Hin as [-> | Hin]; [congruence |].
    apply IH; [exact Hin |].
    rewrite slot_grid_set_ne by congruence. congruence.
Qed.

(** [undo_play] succeeds on cells that exist. *)
Lemma clear_cells_spec (coords : list (Z * Z)) :
  forall self,
    (forall coord,
        In coord coords ->
        0 <= fst coord /\ 0 <= snd coord
        /\ slot (Board.board self) (Z.to_nat (fst coord))
                (Z.to_nat (snd coord)) <> None) ->
    Board.clear_cells coords self
    = (Ok tt, Board.with_board self (clear_all (Board.board self) coords)).
Proof.
  induction coords as [|coord coords IH]; intros self H.
  - simpl. unfold Board.ret, Board.with_board. now destruct self.
  - simpl. unfold Board.bindM.
    destruct (H coord (or_introl eq_refl)) as (Hr & Hc & Hs).
    destruct (slot (Board.board self) (Z.to_nat (fst coord))
                (Z.to_nat (snd coord))) as [x|] eqn:Es; [|congruence].
    rewrite (set_cell_nonneg self _ _ None x Hr Hc Es).
    rewrite IH.
    + reflexivity.
    + intros coord' Hin. destruct (H coord' (or_intror Hin)) as (a & b & c).
      repeat split; try assumption. simpl.
      destruct (Nat.eq_dec (Z.to_nat (fst coord')) (Z.to_nat (fst coord)))
        as [E1|E1];
        [destruct (Nat.eq_dec (Z.to_nat (snd coord')) (Z.to_nat (snd coord)))
          as [E2|E2] |].
      * rewrite E1, E2. rewrite (slot_grid_set_eq _ _ _ _ _ Es). discriminate.
      * rewrite slot_grid_set_ne by congruence. exact c.
      * rewrite slot_grid_set_ne by congruence. exact c.
Qed.

End ClearAll.

Lemma coord_eq_dec (a b : Z * Z) : {a = b} + {a <> b}.
Proof. decide equality; apply Z.eq_dec. Qed.

(** Emptying the cells of [last_play] gives back the grid the attempt
    started from. *)
Lemma attempt_inv_undo (g0 : Board.Grid) (d : Board.Direction)
  (row col : Z) (self : Board.t) :
  attempt_inv g0 d row col self ->
  clear_all (Board.board self) (Board.last_play self) = g0.
Proof.
  intros [Hs Hsame Hw]. apply grid_ext.
  - now rewrite shape_clear_all.
  - intros r c.
    destruct (in_dec coord_eq_dec (Z.of_nat r, Z.of_nat c)
                     (Board.last_play self))
      as [Hin | Hnin].
    + destruct (Hw _ Hin) as (_ & _ & H0 & Hb & _). simpl in H0, Hb.
      rewrite !Nat2Z.id in H0, Hb. rewrite H0.
      pose proof (slot_clear_all_hit _ _ (Board.board self) Hin) as Hh.
      simpl in Hh. rewrite !Nat2Z.id in Hh. apply Hh.
      destruct Hb as [tile ->]. discriminate.
    + rewrite slot_clear_all_other; [now apply Hsame |].
      intros coord Hin E. injection E as <- <-.
      destruct (Hw _ Hin) as (a & b & _).
      apply Hnin. rewrite !Z2Nat.id by assumption.
      now destruct coord.
Qed.

(** ** Rejected plays *)

(** The object [set_word] leaves when it returns. *)
Lemma set_word_inv (self self1 : Board.t) (word : string) (row col : Z)
  (d : Board.Direction) (res : Z * bool) :
  Board.set_word word row col d self = (Ok res, self1) ->
  exists v,
    attempt_inv (Board.board self) d (Board.row v) (Board.col v) self1.
Proof.
  unfold Board.set_word.
  cbv [Board.bindM Board.last_play_clear Board.read Board.ret].
  destruct (Py.getitem (Board.board (Board.with_last_play self [])) 0)
    as [r0 | e]; simpl; [|discriminate].
  match goal with
  | |- context [Board.place_letters ?f ?cr ?cc ?dd ?w ?v0 ?s] =>
      destruct (Board.place_letters f cr cc dd w v0 s)
        as [[v | e] s1] eqn:E; [|discriminate]
  end.
  intros H. injection H as _ <-.
  exists v. eapply place_letters_inv; [|exact E].
  split; simpl; [reflexivity | reflexivity | contradiction].
Qed.

(** When [set_word] returns with validity False, [play_word] returns
    [INVALID_PLAY] instead of the score and
    leaves the grid exactly as it was before the call: every cell the
    attempt wrote (the cells of [last_play], each holding a tile after
    [set_word]) is empty again, and [last_play] is empty, so that a
    further [undo_play] changes nothing. *)
Theorem rejected_play_restores_board (self self1 : Board.t) (word : string)
  (row col : Z) (d : Board.Direction) (score : Z) :
  Board.set_word word row col d self = (Ok (score, false), self1) ->
  exists self2,
    Board.play_word word row col d self = (Ok INVALID_PLAY, self2)
    /\ Board.board self2 = Board.board self
    /\ (forall coord,
           In coord (Board.last_play self1) ->
           slot (Board.board self1) (Z.to_nat (fst coord))
                (Z.to_nat (snd coord)) <> Some None
           /\ slot (Board.board self2) (Z.to_nat (fst coord))
                   (Z.to_nat (snd coord)) = Some None)
    /\ Board.last_play self2 = []
    /\ Board.undo_play self2 = (Ok tt, self2).
Proof.
  intros H.
  destruct (set_word_inv _ _ _ _ _ _ _ H) as [v Hinv].
  pose proof (attempt_inv_undo _ _ _ _ _ Hinv) as Hundo.
  exists (Board.with_last_play (Board.with_board self1 (Board.board self)) []).
  split; [|split; [|split; [|split]]].
  - unfold Board.play_word, Board.bindM at 1. rewrite H. simpl.
    unfold Board.bindM at 1, Board.undo_play, Board.bindM at 1.
    rewrite clear_cells_spec.
    + rewrite Hundo. reflexivity.
    + intros coord Hin.
      destruct (inv_written _ _ _ _ _ Hinv coord Hin)
        as (a & b & _ & [tile c] & _).
      rewrite c. repeat split; try assumption. discriminate.
  - reflexivity.
  - intros coord Hin. simpl.
    destruct (inv_written _ _ _ _ _ Hinv coord Hin) as (a & b & c & e & _).
    split; [|exact c].
    destruct e as [tile ->]. discriminate.
  - reflexivity.
  - reflexivity.
Qed.

Lemma rejected_play_restores_board_witness :
  let self1 :=
    snd (Board.set_word "CAR" 2 2 Board.RIGHT board_after_brooklyn) in
  Board.set_word "CAR" 2 2 Board.RIGHT board_after_brooklyn
  = (Ok (10, false), self1)
  /\ Board.last_play self1 = [(2, 2); (2, 3); (2, 4)]
  /\ exists self2,
       Board.play_word "CAR" 2 2 Board.RIGHT board_after_brooklyn
       = (Ok INVALID_PLAY, self2)
       /\ Board.board self2 = Board.board board_after_brooklyn
       /\ (forall coord,
              In coord (Board.last_play self1) ->
              slot (Board.board self1) (Z.to_nat (fst coord))
                   (Z.to_nat (snd coord)) <> Some None
              /\ slot (Board.board self2) (Z.to_nat (fst coord))
                      (Z.to_nat (snd coord)) = Some None)
       /\ Board.last_play self2 = []
       /\ Board.undo_play self2 = (Ok tt, self2).
Proof.
  cbv zeta.
  split; [vm_compute; reflexivity |].
  split; [vm_compute; reflexivity |].
  apply (rejected_play_restores_board board_after_brooklyn _ "CAR" 2 2
                                      Board.RIGHT 10).
  vm_compute. reflexivity.
Defined.

(** C2.  A play that the legality rule rejects is not always rolled
    back.  With BROOKLYN on row 7, the floating word CAR from (2, 14)
    downwards is not a legal play; [play_word] writes the C in the last
    column, then the neighbour test of [set_word] reads column 15 and
    raises IndexError: no [INVALID_PLAY] is returned, [undo_play] is
    never reached, and the C stays on a cell that was empty. *)
Theorem rejected_play_at_the_edge_is_not_rolled_back :
  spec_legal_play (Board.board board_after_brooklyn) "CAR" 2 14 Board.DOWN
  = false
  /\ fst (Board.play_word "CAR" 2 14 Board.DOWN board_after_brooklyn)
     = Raise IndexError
  /\ Board.cell board_after_brooklyn 2 14 = Ok None
  /\ Board.cell
       (snd (Board.play_word "CAR" 2 14 Board.DOWN board_after_brooklyn))
       2 14
     = Ok (Some "C"%char)
  /\ Board.last_play
       (snd (Board.play_word "CAR" 2 14 Board.DOWN board_after_brooklyn))
     = [(2, 14)].
Proof. vm_compute. repeat split; reflexivity. Qed.

(** ** The verdict of [set_word] *)

Section Rectangular.

Lemma shape_length (g g0 : Board.Grid) :
  shape g = shape g0 ->
  List.length g = List.length g0
  /\ List.length (hd [] g) = List.length (hd [] g0).
Proof.
  intros H. split.
  - apply (f_equal (@List.length nat)) in H. unfold shape in H.
    now rewrite !length_map in H.
  - destruct g, g0; simpl in *; try discriminate; [reflexivity |].
    now injection H.
Qed.

Lemma shape_on_grid (g g0 : Board.Grid) (r c : Z) :
  shape g = shape g0 -> spec_on_grid g r c = spec_on_grid g0 r c.
Proof.
  intros H. destruct (shape_length _ _ H) as [H1 H2].
  unfold spec_on_grid. now rewrite H1, H2.
Qed.

Lemma shape_rectangular (g g0 : Board.Grid) :
  shape g = shape g0 -> rectangular g0 -> rectangular g.
Proof.
  intros H Hrect cells Hin.
  destruct (shape_length _ _ H) as [_ H2]. rewrite H2.
  assert (Hl : In (List.length cells) (shape g0)).
  { rewrite <- H. unfold shape. now apply in_map. }
  unfold shape in Hl. apply in_map_iff in Hl.
  destruct Hl as [cells0 [<- Hin0]]. now apply Hrect.
Qed.

Lemma rectangular_slot (g : Board.Grid) (r c : Z) :
  rectangular g -> spec_on_grid g r c = true ->
  exists x, slot g (Z.to_nat r) (Z.to_nat c) = Some x.
Proof.
  intros Hrect H. unfold spec_on_grid in H.
  rewrite !andb_true_iff, !Z.leb_le, !Z.ltb_lt in H.
  destruct H as [[Hr1 Hr2] [Hc1 Hc2]].
  unfold slot.
  destruct (nth_error g (Z.to_nat r)) as [cells|] eqn:E.
  - assert (Hlen : List.length cells = List.length (hd [] g))
      by (apply Hrect; eapply nth_error_In; exact E).
    destruct (nth_error cells (Z.to_nat c)) as [x|] eqn:E2; [now exists x |].
    apply nth_error_None in E2. lia.
  - apply nth_error_None in E. lia.
Qed.

End Rectangular.

Section TouchingCode.

Variable self : Board.t.
Hypothesis Hrect : rectangular (Board.board self).

Lemma cell_on_grid (row col : Z) :
  spec_on_grid (Board.board self) row col = true ->
  exists x,
    Board.cell self row col = Ok x
    /\ slot (Board.board self) (Z.to_nat row) (Z.to_nat col) = Some x
    /\ Board.is_some x = spec_occupied (Board.board self) row col.
Proof.
  intros H.
  destruct (rectangular_slot _ _ _ Hrect H) as [x Hx].
  destruct (valid_coord_nonneg self row col H) as [[Hr _] [Hc _]].
  exists x. rewrite cell_nonneg by assumption. rewrite Hx.
  repeat split. unfold spec_occupied, spec_tile. rewrite H, Hx.
  now destruct x.
Qed.

Lemma occupied_at_spec (row col : Z) :
  Board.occupied_at self row col
  = Ok (spec_occupied (Board.board self) row col).
Proof.
  unfold Board.occupied_at.
  change (Board._is_valid_coord self row col)
    with (spec_on_grid (Board.board self) row col).
  destruct (spec_on_grid (Board.board self) row col) eqn:E.
  - destruct (cell_on_grid _ _ E) as (x & -> & _ & Hx). simpl. now rewrite Hx.
  - unfold spec_occupied, spec_tile. now rewrite E.
Qed.

Lemma is_touching_word_spec (row col : Z) (d : Board.Direction) :
  Board._is_valid_coord self row col = true ->
  Board._is_touching_word self row col d
  = Ok (touching_code (Board.board self)
          (List.length (Board.last_play self) =? 0)%nat row col d).
Proof.
  intros Hv. unfold Board._is_touching_word, touching_code.
  destruct (cell_on_grid _ _ Hv) as (x & -> & _ & Hx). simpl.
  rewrite Hx. unfold Board.or_else. rewrite !occupied_at_spec.
  destruct (spec_occupied (Board.board self) row col); [reflexivity |].
  destruct d; simpl.
  - destruct (spec_occupied (Board.board self) row (col - 1)),
      (spec_occupied (Board.board self) row (col + 1)),
      (spec_occupied (Board.board self) (row - 1) col),
      (List.length (Board.last_play self) =? 0)%nat; reflexivity.
  - destruct (spec_occupied (Board.board self) (row - 1) col),
      (spec_occupied (Board.board self) (row + 1) col),
      (spec_occupied (Board.board self) row (col - 1)),
      (List.length (Board.last_play self) =? 0)%nat; reflexivity.
Qed.

End TouchingCode.

Section Transfer.

Variable g0 : Board.Grid.
Variable d : Board.Direction.
Variables row col : Z.
Variable self : Board.t.
Hypothesis Hinv : attempt_inv g0 d row col self.

Lemma spec_tile_same (r c : Z) :
  ~ In (r, c) (Board.last_play self) ->
  spec_tile (Board.board self) r c = spec_tile g0 r c.
Proof.
  intros Hnin. unfold spec_tile.
  rewrite (shape_on_grid _ _ r c (inv_shape _ _ _ _ _ Hinv)).
  destruct (spec_on_grid g0 r c) eqn:E; [|reflexivity].
  unfold spec_on_grid in E.
  rewrite !andb_true_iff, !Z.leb_le, !Z.ltb_lt in E.
  rewrite (inv_same _ _ _ _ _ Hinv); [reflexivity |].
  rewrite !Z2Nat.id by lia. exact Hnin.
Qed.

Lemma spec_occupied_same (r c : Z) :
  ~ behind d row col (r, c) ->
  spec_occupied (Board.board self) r c = spec_occupied g0 r c.
Proof.
  intros H. unfold spec_occupied. rewrite spec_tile_same; [reflexivity |].
  eapply attempt_inv_not_recorded; eassumption.
Qed.

Lemma spec_occupied_none_recorded (r c : Z) :
  Board.last_play self = [] ->
  spec_occupied (Board.board self) r c = spec_occupied g0 r c.
Proof.
  intros H. unfold spec_occupied. rewrite spec_tile_same; [reflexivity |].
  rewrite H. intros [].
Qed.

(** On the current position the touching test of the code sees what
    the rule of the specification sees on the grid before the attempt. *)
Lemma touching_code_spec (tw : bool) :
  (Board.last_play self <> [] ->
   spec_occupied g0 (fst (previous d row col)) (snd (previous d row col))
   = true -> tw = true) ->
  tw = false ->
  touching_code (Board.board self)
                (List.length (Board.last_play self) =? 0)%nat row col d
  = spec_touches g0 row col.
Proof.
  intros Hbefore Htw. unfold touching_code, spec_touches.
  rewrite (spec_occupied_same row col) by apply behind_irrefl.
  assert (Hprev :
            (spec_occupied (Board.board self) (fst (previous d row col))
                           (snd (previous d row col))
             && (List.length (Board.last_play self) =? 0)%nat)%bool
            = spec_occupied g0 (fst (previous d row col))
                            (snd (previous d row col))).
  { destruct (Board.last_play self) as [|coord lp] eqn:Elp.
    - simpl. rewrite andb_true_r.
      now apply spec_occupied_none_recorded.
    - simpl. rewrite andb_false_r.
      destruct (spec_occupied g0 (fst (previous d row col))
                  (snd (previous d row col))) eqn:E; [|reflexivity].
      rewrite Hbefore in Htw; [discriminate | discriminate | reflexivity]. }
  pose proof spec_occupied_same as Hsame.
  destruct d; simpl in Hprev, Hsame |- *.
  - rewrite Hprev.
    rewrite (Hsame row (col - 1)) by lia.
    rewrite (Hsame row (col + 1)) by lia.
    rewrite (Hsame (row + 1) col) by lia.
    destruct (spec_occupied g0 row col), (spec_occupied g0 row (col - 1)),
      (spec_occupied g0 row (col + 1)), (spec_occupied g0 (row - 1) col),
      (spec_occupied g0 (row + 1) col); reflexivity.
  - rewrite Hprev.
    rewrite (Hsame (row - 1) col) by lia.
    rewrite (Hsame (row + 1) col) by lia.
    rewrite (Hsame row (col + 1)) by lia.
    destruct (spec_occupied g0 row col), (spec_occupied g0 row (col - 1)),
      (spec_occupied g0 row (col + 1)), (spec_occupied g0 (row - 1) col),
      (spec_occupied g0 (row + 1) col); reflexivity.
Qed.

End Transfer.

Lemma previous_advance (d : Board.Direction) (row col : Z) :
  previous d (fst (Board.advance d row col)) (snd (Board.advance d row col))
  = (row, col).
Proof. destruct d; simpl; f_equal; lia. Qed.

Lemma spec_occupied_on_grid (g : Board.Grid) (r c : Z) :
  spec_occupied g r c = true -> spec_on_grid g r c = true.
Proof.
  unfold spec_occupied, spec_tile.
  destruct (spec_on_grid g r c); [reflexivity | discriminate].
Qed.

Lemma spec_touches_occupied (g : Board.Grid) (r c : Z) :
  spec_occupied g r c = true -> spec_touches g r c = true.
Proof. intros H. unfold spec_touches. now rewrite H. Qed.

(** One letter: the three flags of [set_word], read on the grid before
    the attempt. *)
Lemma place_letter_flags (g0 : Board.Grid) (is_first_play : bool)
  (cr cc : Z) (d : Board.Direction) (letter : ascii) (v v' : Board.Vars)
  (self self' : Board.t) :
  rectangular g0 ->
  attempt_inv g0 d (Board.row v) (Board.col v) self ->
  before_inv g0 is_first_play d v self ->
  Board.place_letter is_first_play cr cc d letter v self = (Ok v', self') ->
  Board.valid_play v'
  = (Board.valid_play v
     && spec_letter_fits g0 letter (Board.row v) (Board.col v))%bool
  /\ Board.play_through_center v'
     = (Board.play_through_center v
        || is_first_play
           && (spec_on_grid g0 (Board.row v) (Board.col v)
               && ((Board.row v =? cr) && (Board.col v =? cc))))%bool
  /\ Board.touching_word v'
     = (Board.touching_word v
        || negb is_first_play
           && (spec_on_grid g0 (Board.row v) (Board.col v)
               && spec_touches g0 (Board.row v) (Board.col v)))%bool
  /\ before_inv g0 is_first_play d v' self'.
Proof.
  intros Hrect Hinv Hbefore H.
  pose proof (place_letter_inv _ _ _ _ _ _ _ _ _ _ Hinv H) as Hinv'.
  apply place_letter_cases in H. destruct H as (Hrow & Hcol & Hcase).
  assert (Hgrid : Board._is_valid_coord self (Board.row v) (Board.col v)
                  = spec_on_grid g0 (Board.row v) (Board.col v))
    by apply (shape_on_grid _ _ _ _ (inv_shape _ _ _ _ _ Hinv)).
  assert (Hrect' : rectangular (Board.board self))
    by (eapply shape_rectangular; [apply (inv_shape _ _ _ _ _ Hinv) | exact Hrect]).
  rewrite Hgrid in Hcase.
  destruct (spec_on_grid g0 (Board.row v) (Board.col v)) eqn:Eg.
  - destruct Hcase as (here & touch & Hcell & Htouch & Hptc & Htw & Hhere).
    assert (Htouch' :
              touch = (negb (Board.touching_word v) && negb is_first_play
                       && spec_touches g0 (Board.row v) (Board.col v))%bool).
    { destruct (Board.touching_word v) eqn:Etw; simpl in *; [exact Htouch |].
      destruct is_first_play; simpl in *; [exact Htouch |].
      rewrite (is_touching_word_spec self Hrect' _ _ d Hgrid) in Htouch.
      injection Htouch as <-.
      apply (touching_code_spec g0 d _ _ self Hinv false);
        [|reflexivity].
      intros Hlp Hocc. rewrite <- Etw. now apply Hbefore. }
    assert (Htile : spec_tile g0 (Board.row v) (Board.col v) = here).
    { rewrite <- (spec_tile_same g0 d _ _ self Hinv)
        by (eapply attempt_inv_not_recorded;
            [exact Hinv | apply behind_irrefl]).
      destruct (cell_on_grid self Hrect' _ _ Hgrid) as (x & Hx & Hs & _).
      rewrite Hx in Hcell. injection Hcell as ->.
      unfold spec_tile.
      change (spec_on_grid (Board.board self) (Board.row v) (Board.col v))
        with (Board._is_valid_coord self (Board.row v) (Board.col v)).
      rewrite Hgrid, Hs. now destruct here. }
    split; [|split; [|split]].
    + unfold spec_letter_fits. rewrite Eg, Htile. simpl.
      destruct here as [tile|]; destruct Hhere as [_ ->];
        [reflexivity | now rewrite andb_true_r].
    + rewrite Hptc. simpl.
      destruct is_first_play, (Board.row v =? cr), (Board.col v =? cc),
        (Board.play_through_center v); reflexivity.
    + rewrite Htw, Htouch'. simpl.
      destruct (Board.touching_word v), is_first_play,
        (spec_touches g0 (Board.row v) (Board.col v)); reflexivity.
    + intros Hf Hlp Hocc. rewrite Hrow, Hcol, previous_advance in Hocc.
      simpl in Hocc. rewrite Htw, Htouch', Hf.
      rewrite (spec_touches_occupied _ _ _ Hocc).
      now destruct (Board.touching_word v).
  - destruct Hcase as (-> & Hvp & Hptc & Htw).
    split; [|split; [|split]].
    + unfold spec_letter_fits. rewrite Eg, Hvp. simpl.
      now rewrite andb_false_r.
    + rewrite Hptc. simpl. now rewrite andb_false_r, orb_false_r.
    + rewrite Htw. simpl. now rewrite andb_false_r, orb_false_r.
    + intros Hf Hlp Hocc. rewrite Hrow, Hcol, previous_advance in Hocc.
      simpl in Hocc. apply spec_occupied_on_grid in Hocc. congruence.
Qed.

Lemma place_letters_flags (g0 : Board.Grid) (is_first_play : bool)
  (cr cc : Z) (d : Board.Direction) (word : string) :
  rectangular g0 ->
  forall (v v' : Board.Vars) (self self' : Board.t),
    attempt_inv g0 d (Board.row v) (Board.col v) self ->
    before_inv g0 is_first_play d v self ->
    Board.place_letters is_first_play cr cc d word v self = (Ok v', self') ->
    Board.valid_play v'
    = (Board.valid_play v
       && spec_all_fit g0 word (Board.row v) (Board.col v) d)%bool
    /\ Board.play_through_center v'
       = (Board.play_through_center v
          || is_first_play
             && spec_some_letter
                  (fun r c => spec_on_grid g0 r c && ((r =? cr) && (c =? cc)))
                  word (Board.row v) (Board.col v) d)%bool
    /\ Board.touching_word v'
       = (Board.touching_word v
          || negb is_first_play
             && spec_some_letter
                  (fun r c => spec_on_grid g0 r c && spec_touches g0 r c)
                  word (Board.row v) (Board.col v) d)%bool.
Proof.
  intros Hrect.
  induction word as [|letter word IH]; intros v v' self self' Hinv Hbefore H.
  - injection H as <- <-. simpl.
    now rewrite andb_true_r, !andb_false_r, !orb_false_r.
  - simpl in H. unfold Board.bindM in H.
    destruct (Board.place_letter is_first_play cr cc d letter v self)
      as [[v1 | e] self1] eqn:E1; [|discriminate].
    pose proof (place_letter_inv _ _ _ _ _ _ _ _ _ _ Hinv E1) as Hinv1.
    destruct (place_letter_flags _ _ _ _ _ _ _ _ _ _ Hrect Hinv Hbefore E1)
      as (Hvp & Hptc & Htw & Hbefore1).
    destruct (place_letter_cases _ _ _ _ _ _ _ _ _ E1) as (Hrow & Hcol & _).
    destruct (IH _ _ _ _ Hinv1 Hbefore1 H) as (Hvp' & Hptc' & Htw').
    rewrite Hrow, Hcol in Hvp', Hptc', Htw'.
    cbn [spec_all_fit spec_some_letter].
    rewrite Hvp', Hptc', Htw', Hvp, Hptc, Htw.
    repeat split.
    + now rewrite andb_assoc.
    + destruct (Board.play_through_center v), is_first_play; simpl;
        try reflexivity.
    + destruct (Board.touching_word v), is_first_play; simpl;
        try reflexivity.
Qed.

(** When every letter fits, every letter is on the grid. *)
Lemma spec_some_letter_on_grid (g : Board.Grid) (q : Z -> Z -> bool)
  (d : Board.Direction) (word : string) :
  forall r c,
    spec_all_fit g word r c d = true ->
    spec_some_letter (fun r c => spec_on_grid g r c && q r c) word r c d
    = spec_some_letter q word r c d.
Proof.
  induction word as [|letter word IH]; intros r c H; [reflexivity |].
  cbn [spec_all_fit spec_some_letter] in *.
  apply andb_true_iff in H. destruct H as [Hfit Hrest].
  rewrite (IH _ _ Hrest).
  unfold spec_letter_fits in Hfit. apply andb_true_iff in Hfit.
  destruct Hfit as [-> _]. reflexivity.
Qed.

(** Whenever [set_word] returns, on a grid of equally long rows that are
    distinct lists, its verdict is the legality rule of the
    specification, read on the grid before the attempt and on the
    upper-cased word. *)
Theorem set_word_verdict_is_the_rule (self self1 : Board.t) (word : string)
  (row col : Z) (d : Board.Direction) (score : Z) (valid : bool) :
  rectangular (Board.board self) ->
  Board.set_word word row col d self = (Ok (score, valid), self1) ->
  valid = spec_legal_play (Board.board self) (Py.upper word) row col d.
Proof.
  intros Hrect H. unfold Board.set_word in H.
  cbv [Board.bindM Board.last_play_clear Board.read Board.ret] in H.
  destruct (Py.getitem (Board.board (Board.with_last_play self [])) 0)
    as [r0 | e] eqn:E0; simpl in H; [|discriminate].
  match type of H with
  | context [Board.place_letters ?f ?cr ?cc ?dd ?w ?v0 ?s] =>
      destruct (Board.place_letters f cr cc dd w v0 s)
        as [[v | e] s1] eqn:E; [|discriminate]
  end.
  injection H as _ Hvalid _.
  assert (Hr0 : hd [] (Board.board self) = r0).
  { simpl in E0. rewrite getitem_nonneg in E0 by lia. simpl in E0.
    destruct (Board.board self); [discriminate | now injection E0]. }
  apply place_letters_flags with (g0 := Board.board self) in E.
  - destruct E as (Hvp & Hptc & Htw). simpl in Hvp, Hptc, Htw.
    rewrite <- Hvalid, Hvp, Hptc, Htw.
    unfold spec_legal_play.
    change (Board.is_empty (Board.with_last_play self []))
      with (spec_grid_empty (Board.board self)).
    destruct (spec_all_fit (Board.board self) (Py.upper word) row col d)
      eqn:Efit.
    + rewrite !(spec_some_letter_on_grid _ _ _ _ _ _ Efit).
      unfold spec_is_center. rewrite Hr0.
      destruct (spec_grid_empty (Board.board self)); simpl;
        match goal with
        | |- context [spec_some_letter ?p ?w ?r ?c ?dd] =>
            destruct (spec_some_letter p w r c dd)
        end; reflexivity.
    + destruct (spec_grid_empty (Board.board self)); simpl;
        repeat match goal with
          | |- context [if ?b then _ else _] => destruct b
          end; reflexivity.
  - exact Hrect.
  - split; simpl; [reflexivity | reflexivity | contradiction].
  - intros _ Hlp. now elim Hlp.
Qed.

Lemma rectangular_check (g : Board.Grid) :
  forallb (fun cells =>
             (List.length cells =? List.length (hd [] g))%nat) g = true ->
  rectangular g.
Proof.
  intros H cells Hin. rewrite forallb_forall in H.
  apply Nat.eqb_eq. now apply H.
Qed.

(** The verdicts on the second play of the script and on a floating
    word, obtained from the rule. *)
Example set_word_verdict_on_the_script :
  let b1 := snd (Board.play_word "BROOK" 7 3 Board.RIGHT scrabble_board) in
  spec_legal_play (Board.board b1) "JAR" 5 4 Board.DOWN = true
  /\ spec_legal_play (Board.board b1) "CAR" 2 2 Board.RIGHT = false.
Proof.
  cbv zeta.
  set (b1 := snd (Board.play_word "BROOK" 7 3 Board.RIGHT scrabble_board)).
  assert (Hrect : rectangular (Board.board b1))
    by (apply rectangular_check; vm_compute; reflexivity).
  split.
  - symmetry.
    apply (set_word_verdict_is_the_rule b1
             (snd (Board.set_word "JAR" 5 4 Board.DOWN b1))
             "JAR" 5 4 Board.DOWN 10 true Hrect).
    vm_compute. reflexivity.
  - symmetry.
    apply (set_word_verdict_is_the_rule b1
             (snd (Board.set_word "CAR" 2 2 Board.RIGHT b1))
             "CAR" 2 2 Board.RIGHT 10 false Hrect).
    vm_compute. reflexivity.
Qed.

(** ** Boards with a grid of their own *)

Lemma create_2d_list_rectangular (total_rows total_cols : nat)
  (value : option ascii) :
  rectangular (_create_2d_list total_rows total_cols value).
Proof.
  unfold rectangular, _create_2d_list. intros cells Hin.
  destruct total_rows; [contradiction |].
  apply repeat_spec in Hin. now subst cells.
Qed.

(** The rows of a constructed board are equally long. *)
Lemma constructed_rectangular (self : Board.t) :
  constructed self -> rectangular (Board.board self).
Proof.
  induction 1 as [game_dct bm ld ls self H
                 | self word row col d _ IH
                 | self word row col d _ IH
                 | self _ IH].
  - unfold Board.init, Board._set_board in H.
    destruct bm as [bm|].
    + destruct (Py.getitem bm 0) as [r0|e]; simpl in H; [|discriminate].
      destruct (_fill_bag ld) as [l|e]; simpl in H; [|discriminate].
      injection H as <-. apply create_2d_list_rectangular.
    + destruct (Py.getitem SCRABBLE_BOARD_MULTIPLIERS 0) as [r0|e];
        simpl in H; [|discriminate].
      destruct (_fill_bag ld) as [l|e]; simpl in H; [|discriminate].
      injection H as <-. apply create_2d_list_rectangular.
  - eapply shape_rectangular; [|exact IH]. apply keeps_set_word.
  - eapply shape_rectangular; [|exact IH]. apply keeps_play_word.
  - eapply shape_rectangular; [|exact IH]. apply keeps_undo_play.
Qed.

Lemma scrabble_board_constructed : constructed scrabble_board.
Proof.
  apply (constructed_init empty_dictionary None None None).
  vm_compute. reflexivity.
Qed.

(** X1.  On a board whose grid the constructor made itself, after any
    plays, whenever [set_word] returns its verdict is the legality rule
    of the specification, read on the grid before the attempt and on
    the upper-cased word: every letter on the grid and on an empty cell
    or on its own letter, and some letter on the centre cell (empty
    board) or on or next to a tile (otherwise). *)
Theorem set_word_verdict_on_constructed_boards (self self1 : Board.t)
  (word : string) (row col : Z) (d : Board.Direction) (score : Z)
  (valid : bool) :
  constructed self ->
  Board.set_word word row col d self = (Ok (score, valid), self1) ->
  valid = spec_legal_play (Board.board self) (Py.upper word) row col d.
Proof.
  intros Hc H.
  eapply set_word_verdict_is_the_rule;
    [apply constructed_rectangular, Hc | exact H].
Qed.

Lemma set_word_verdict_on_constructed_boards_witness :
  let b1 := snd (Board.play_word "BROOK" 7 3 Board.RIGHT scrabble_board) in
  spec_legal_play (Board.board b1) "JAR" 5 4 Board.DOWN = true
  /\ spec_legal_play (Board.board b1) "CAR" 2 2 Board.RIGHT = false.
Proof.
  cbv zeta.
  set (b1 := snd (Board.play_word "BROOK" 7 3 Board.RIGHT scrabble_board)).
  assert (Hc : constructed b1)
    by (apply constructed_play_word, scrabble_board_constructed).
  split.
  - symmetry.
    apply (set_word_verdict_on_constructed_boards b1
             (snd (Board.set_word "JAR" 5 4 Board.DOWN b1))
             "JAR" 5 4 Board.DOWN 10 true Hc).
    vm_compute. reflexivity.
  - symmetry.
    apply (set_word_verdict_on_constructed_boards b1
             (snd (Board.set_word "CAR" 2 2 Board.RIGHT b1))
             "CAR" 2 2 Board.RIGHT 10 false Hc).
    vm_compute. reflexivity.
Defined.

(** ** Insertion *)

Section InsertFrame.

Lemma child_set_child_other (c c' : ascii) (n : TrieNode)
  (cs : list (ascii * TrieNode)) :
  c <> c' -> Trie.child c' (Trie.set_child c n cs) = Trie.child c' cs.
Proof.
  intros Hc. induction cs as [|[k m] cs IH]; simpl.
  - destruct (Ascii.eqb_spec c c'); [contradiction | reflexivity].
  - destruct (Ascii.eqb_spec k c) as [-> | Hk]; simpl.
    + destruct (Ascii.eqb_spec c c'); [contradiction | reflexivity].
    + now rewrite IH.
Qed.

Lemma descend_new_node (word : string) :
  Trie.descend new_node word
  = match word with EmptyString => Some new_node | String _ _ => None end.
Proof. destruct word; reflexivity. Qed.

(** What a lookup of another word finds after [insert(word, d)]: the
    node it found before, with the same flag and definition; where it
    found no path before, it finds none or a node that ends no word. *)
Lemma descend_insert_at_other (d : string) (other : string) :
  forall (word : string) (node : TrieNode),
    other <> word ->
    match Trie.descend node other with
    | Some n =>
        exists n',
          Trie.descend (Trie.insert_at node word d) other = Some n'
          /\ end_ n' = end_ n /\ defn n' = defn n
    | None =>
        match Trie.descend (Trie.insert_at node word d) other with
        | Some n' => end_ n' = false /\ defn n' = ""%string
        | None => True
        end
    end.
Proof.
  induction other as [|c' other IH]; intros word node Hne.
  - destruct word as [|c word]; [now elim Hne |].
    simpl. eexists. repeat split.
  - destruct word as [|c word].
    + cbn [Trie.insert_at Trie.descend children].
      destruct (Trie.child c' (children node)) as [m|]; [|exact I].
      destruct (Trie.descend m other) as [n|]; [|exact I].
      now exists n.
    + cbn [Trie.insert_at Trie.descend children].
      destruct (Ascii.eqb_spec c c') as [-> | Hc].
      * rewrite child_set_child.
        assert (Hne' : other <> word) by congruence.
        destruct (Trie.child c' (children node)) as [m|].
        -- apply IH. exact Hne'.
        -- specialize (IH word new_node Hne').
           rewrite descend_new_node in IH.
           destruct other as [|c2 other]; [|exact IH].
           destruct IH as (n' & -> & He & Hd). simpl in *. now split.
      * rewrite child_set_child_other by exact Hc.
        destruct (Trie.child c' (children node)) as [m|]; [|exact I].
        destruct (Trie.descend m other) as [n|]; [|exact I].
        now exists n.
Qed.

End InsertFrame.

(** [search] after an [insert]: the inserted word is found, and every
    other word is found exactly if it was found before. *)
Lemma search_insert (tr : Trie.t) (word d other : string) :
  Trie.search (Trie.insert tr word d) other
  = (String.eqb other word || Trie.search tr other)%bool.
Proof.
  destruct (String.eqb_spec other word) as [-> | Hne]; simpl.
  - apply insert_then_lookup.
  - unfold Trie.search, Trie.insert. simpl.
    pose proof (descend_insert_at_other d other word (Trie.root tr) Hne) as H.
    destruct (Trie.descend (Trie.root tr) other) as [n|].
    + destruct H as (n' & -> & He & _). exact He.
    + destruct (Trie.descend (Trie.insert_at (Trie.root tr) word d) other);
        [apply H | reflexivity].
Qed.

Lemma get_defn_insert_other (tr : Trie.t) (word d other : string) :
  other <> word ->
  Trie.search tr other = true ->
  Trie.get_defn (Trie.insert tr word d) other = Trie.get_defn tr other.
Proof.
  intros Hne Hs. unfold Trie.search, Trie.get_defn, Trie.insert in *. simpl.
  pose proof (descend_insert_at_other d other word (Trie.root tr) Hne) as H.
  destruct (Trie.descend (Trie.root tr) other) as [n|]; [|discriminate].
  destruct H as (n' & -> & _ & Hd). now rewrite Hd.
Qed.

(** X2.  Inserting a word leaves every other stored word and its
    definition as they were, and adds no other word. *)
Theorem insert_leaves_other_words (tr : Trie.t) (word d other : string) :
  other <> word ->
  Trie.search (Trie.insert tr word d) other = Trie.search tr other
  /\ (Trie.search tr other = true ->
      Trie.get_defn (Trie.insert tr word d) other = Trie.get_defn tr other).
Proof.
  intros Hne. split.
  - rewrite search_insert.
    destruct (String.eqb_spec other word); [contradiction | reflexivity].
  - now apply get_defn_insert_other.
Qed.

Lemma insert_leaves_other_words_witness :
  let tr := Trie.insert Trie.empty "CAT" "feline" in
  Trie.search (Trie.insert tr "CAR" "vehicle") "CAT" = Trie.search tr "CAT"
  /\ (Trie.search tr "CAT" = true ->
      Trie.get_defn (Trie.insert tr "CAR" "vehicle") "CAT"
      = Trie.get_defn tr "CAT").
Proof.
  apply (insert_leaves_other_words
           (Trie.insert Trie.empty "CAT" "feline") "CAR" "vehicle" "CAT").
  discriminate.
Defined.

(** X3.  After [insert(word, defn)] the word is found by [search] and
    [get_defn] returns the definition given; inserting the word again
    replaces its definition. *)
Theorem insert_stores_the_word (tr : Trie.t) (word d d' : string) :
  Trie.search (Trie.insert tr word d) word = true
  /\ Trie.get_defn (Trie.insert tr word d) word = Some d
  /\ Trie.get_defn (Trie.insert (Trie.insert tr word d) word d') word
     = Some d'
  /\ forall other,
      Trie.search (Trie.insert (Trie.insert tr word d) word d') other
      = Trie.search (Trie.insert tr word d) other.
Proof.
  destruct (insert_then_lookup tr word d) as [Hs Hd].
  split; [exact Hs |]. split; [exact Hd |].
  split; [apply insert_then_lookup |].
  intros other. rewrite !search_insert.
  now destruct (String.eqb other word).
Qed.

(** ** Building a trie from lists *)

Lemma search_empty (word : string) : Trie.search Trie.empty word = false.
Proof.
  unfold Trie.search, Trie.empty. simpl. rewrite descend_new_node.
  now destruct word.
Qed.

Lemma length_take (k : nat) (s : string) :
  (String.length (Py.take k s) <= k)%nat.
Proof.
  revert s. induction k as [|k IH]; intros [|c s]; simpl; try lia.
  specialize (IH s). lia.
Qed.

Lemma search_fold_insert (f : string -> string) (words : list string) :
  forall (tr : Trie.t) (w : string),
    Trie.search (fold_left (fun acc x => Trie.insert acc (f x) "") words tr) w
    = true
    <-> In w (map f words) \/ Trie.search tr w = true.
Proof.
  induction words as [|x words IH]; intros tr w; simpl.
  - tauto.
  - rewrite IH, search_insert, orb_true_iff, String.eqb_eq.
    split; intros [H | H]; auto.
    + destruct H as [-> | H]; auto.
    + destruct H as [<- | H]; auto.
Qed.

(** X4.  [build_trie] stores exactly the given words, each cut to
    [limit] characters when a limit is given, next to what the trie
    held; built from the empty trie with a limit, no stored word is
    longer than the limit. *)
Theorem build_trie_stores_truncated_words (words : list string) (w : string) :
  (forall tr,
      Trie.search (Trie.build_trie tr words None) w = true
      <-> In w words \/ Trie.search tr w = true)
  /\ (forall tr limit,
         Trie.search (Trie.build_trie tr words (Some limit)) w = true
         <-> In w (map (Py.take limit) words) \/ Trie.search tr w = true)
  /\ (forall limit,
         Trie.search (Trie.build_trie Trie.empty words (Some limit)) w = true
         -> (String.length w <= limit)%nat).
Proof.
  split; [|split].
  - intros tr. unfold Trie.build_trie.
    rewrite (search_fold_insert (fun x => x)). now rewrite map_id.
  - intros tr limit. unfold Trie.build_trie.
    apply (search_fold_insert (Py.take limit)).
  - intros limit H. unfold Trie.build_trie in H.
    apply (search_fold_insert (Py.take limit)) in H.
    rewrite search_empty in H. destruct H as [H | H]; [|discriminate].
    apply in_map_iff in H. destruct H as [x [<- _]]. apply length_take.
Qed.

Lemma build_trie_stores_truncated_words_witness :
  (String.length "OVERT" <= 5)%nat.
Proof.
  apply (proj2 (proj2 (build_trie_stores_truncated_words
                         ["OVERTURE"; "CAT"] "OVERT")) 5%nat).
  reflexivity.
Defined.

Lemma build_trie_defs_spec (words : list string) :
  forall (tr : Trie.t) (defs : list string),
    (List.length words <= List.length defs)%nat ->
    exists tr',
      Trie.build_trie_defs tr words defs = Ok tr'
      /\ (forall w, Trie.search tr' w = true
                    <-> In w words \/ Trie.search tr w = true)
      /\ (forall i w d,
             nth_error words i = Some w ->
             nth_error defs i = Some d ->
             (forall j, (i < j)%nat -> nth_error words j <> Some w) ->
             Trie.get_defn tr' w = Some d)
      /\ (forall w, ~ In w words -> Trie.search tr w = true ->
                    Trie.get_defn tr' w = Trie.get_defn tr w).
Proof.
  induction words as [|w0 words IH]; intros tr defs Hlen.
  - exists tr. simpl. repeat split; try tauto.
    intros [|i] w d H; discriminate.
  - destruct defs as [|d0 defs]; [simpl in Hlen; lia |].
    simpl in Hlen.
    destruct (IH (Trie.insert tr w0 d0) defs ltac:(lia))
      as (tr' & Hb & Hs & Hlast & Hkeep).
    exists tr'. simpl. split; [exact Hb |]. split; [|split].
    + intros w. rewrite Hs, search_insert, orb_true_iff, String.eqb_eq.
      split; intros [H | H]; auto.
      * destruct H as [-> | H]; auto.
      * destruct H as [<- | H]; auto.
    + intros [|i] w d Hw Hd Hno; simpl in Hw, Hd.
      * injection Hw as ->. injection Hd as ->.
        rewrite Hkeep.
        -- apply insert_then_lookup.
        -- intros Hin. apply In_nth_error in Hin. destruct Hin as [j Hj].
           apply (Hno (S j)); [lia | exact Hj].
        -- apply insert_then_lookup.
      * apply (Hlast i w d Hw Hd).
        intros j Hj. apply (Hno (S j)). lia.
    + intros w Hnin Hsw.
      assert (Hne : w <> w0) by (intros ->; apply Hnin; now left).
      rewrite Hkeep.
      * now apply get_defn_insert_other.
      * intros Hin. apply Hnin. now right.
      * rewrite search_insert, Hsw. apply orb_true_r.
Qed.

Lemma build_trie_defs_short (words : list string) :
  forall (tr : Trie.t) (defs : list string),
    (List.length defs < List.length words)%nat ->
    Trie.build_trie_defs tr words defs = Raise IndexError.
Proof.
  induction words as [|w0 words IH]; intros tr defs Hlen; simpl in *; [lia |].
  destruct defs as [|d0 defs]; [reflexivity |].
  apply IH. simpl in Hlen. lia.
Qed.

(** X5.  [build_trie_defs] raises IndexError when there are fewer
    definitions than words; otherwise it stores every word, and a word
    listed more than once keeps the definition of its last occurrence. *)
Theorem build_trie_defs_last_definition_wins
  (tr : Trie.t) (words defs : list string) :
  ((List.length defs < List.length words)%nat ->
   Trie.build_trie_defs tr words defs = Raise IndexError)
  /\ ((List.length words <= List.length defs)%nat ->
      exists tr',
        Trie.build_trie_defs tr words defs = Ok tr'
        /\ (forall w, Trie.search tr' w = true
                      <-> In w words \/ Trie.search tr w = true)
        /\ (forall i w d,
               nth_error words i = Some w ->
               nth_error defs i = Some d ->
               (forall j, (i < j)%nat -> nth_error words j <> Some w) ->
               Trie.get_defn tr' w = Some d)).
Proof.
  split.
  - apply build_trie_defs_short.
  - intros Hlen.
    destruct (build_trie_defs_spec words tr defs Hlen)
      as (tr' & Hb & Hs & Hlast & _).
    now exists tr'.
Qed.

Lemma build_trie_defs_last_definition_wins_witness :
  Trie.build_trie_defs Trie.empty ["EAT"; "CAT"] ["consume"] = Raise IndexError
  /\ exists tr',
       Trie.build_trie_defs Trie.empty ["EAT"; "CAT"; "EAT"]
                            ["consume"; "feline"; "dine"] = Ok tr'
       /\ Trie.get_defn tr' "EAT" = Some "dine"%string.
Proof.
  split.
  - apply (proj1 (build_trie_defs_last_definition_wins Trie.empty
                    ["EAT"; "CAT"] ["consume"])).
    simpl. lia.
  - destruct (proj2 (build_trie_defs_last_definition_wins Trie.empty
                       ["EAT"; "CAT"; "EAT"] ["consume"; "feline"; "dine"]))
      as (tr' & Hb & _ & Hlast); [simpl; lia |].
    exists tr'. split; [exact Hb |].
    apply (Hlast 2%nat "EAT"%string "dine"%string); try reflexivity.
    intros j Hj. destruct j as [|[|[|j]]]; try lia. simpl.
    destruct j; discriminate.
Defined.

(** ** Completion of a prefix *)

Section Walks.

Lemma walk_trie_cons (c : ascii) (m : TrieNode)
  (cs : list (ascii * TrieNode)) (d : string) (e : bool) (prefix : string) :
  Trie.walk_trie (Node ((c, m) :: cs) d e) prefix
  = (if end_ m then [Py.add_char prefix c] else [])
      ++ Trie.walk_trie m (Py.add_char prefix c)
      ++ Trie.walk_trie (Node cs d e) prefix.
Proof. reflexivity. Qed.

(** [walk_trie] lists the words of [walk_trie_defs], in the same order. *)
Lemma walk_trie_words :
  forall node prefix,
    Trie.walk_trie node prefix = map fst (Trie.walk_trie_defs node prefix).
Proof.
  apply (TrieNode_children_ind
           (fun node => forall prefix,
                Trie.walk_trie node prefix
                = map fst (Trie.walk_trie_defs node prefix))).
  intros cs d e IH. induction cs as [|[c m] cs IHcs]; intros prefix.
  - reflexivity.
  - inversion IH as [|? ? Hm Hcs]; subst. simpl in Hm.
    rewrite walk_trie_cons, walk_trie_defs_cons, !map_app.
    rewrite Hm, (IHcs Hcs). now destruct (end_ m).
Qed.

Lemma descend_append (p s : string) :
  forall node,
    Trie.descend node (p ++ s)
    = match Trie.descend node p with
      | Some n => Trie.descend n s
      | None => None
      end.
Proof.
  induction p as [|c p IH]; intros node; simpl; [reflexivity |].
  destruct (Trie.child c (children node)); [apply IH | reflexivity].
Qed.

Lemma prefix_append (p s : string) : String.prefix p (p ++ s) = true.
Proof.
  induction p as [|c p IH]; simpl.
  - now destruct s.
  - destruct (ascii_dec c c) as [_ | H]; [exact IH | now elim H].
Qed.

Lemma prefix_split (p w : string) :
  String.prefix p w = true -> exists s, w = (p ++ s)%string.
Proof.
  revert w. induction p as [|c p IH]; intros w H.
  - now exists w.
  - destruct w as [|c' w]; [discriminate |]. simpl in H.
    destruct (ascii_dec c c') as [-> | ]; [|discriminate].
    destruct (IH _ H) as [s ->]. now exists s.
Qed.

Lemma unique_keys_descend (p : string) :
  forall node n,
    unique_keys node -> Trie.descend node p = Some n -> unique_keys n.
Proof.
  induction p as [|c p IH]; intros [cs d e] n Hwf H; simpl in H.
  - now injection H as <-.
  - destruct (Trie.child c cs) as [m|] eqn:E; [|discriminate].
    apply unique_keys_node in Hwf. destruct Hwf as [_ Hall].
    rewrite Forall_forall in Hall.
    apply (IH m n); [|exact H].
    apply (Hall (c, m)). now apply child_In.
Qed.

Lemma walk_trie_spec (node : TrieNode) (prefix w : string) :
  unique_keys node ->
  (In w (Trie.walk_trie node prefix)
   <-> exists suffix m,
         suffix <> ""
         /\ w = (prefix ++ suffix)%string
         /\ Trie.descend node suffix = Some m /\ end_ m = true).
Proof.
  intros Hwf. rewrite walk_trie_words, in_map_iff. split.
  - intros [[w' df] [<- Hin]].
    apply (walk_trie_defs_spec node Hwf) in Hin.
    destruct Hin as (suffix & m & Hne & -> & Hd & He & _).
    now exists suffix, m.
  - intros (suffix & m & Hne & -> & Hd & He).
    exists ((prefix ++ suffix)%string, defn m). split; [reflexivity |].
    apply (walk_trie_defs_spec node Hwf). now exists suffix, m.
Qed.

End Walks.

Lemma auto_complete_In (tr : Trie.t) (partial_word w : string) :
  unique_keys (Trie.root tr) ->
  (In w (Trie.auto_complete tr partial_word)
   <-> String.prefix partial_word w = true /\ Trie.search tr w = true).
Proof.
  intros Hwf.
  unfold Trie.auto_complete, Trie.auto_complete_from, Trie.search. split.
  - destruct (Trie.descend (Trie.root tr) partial_word) as [n|] eqn:Hd;
      [|intros []].
    rewrite in_app_iff. intros [H | H].
    + destruct (end_ n) eqn:He; [|contradiction].
      destruct H as [<- | []].
      rewrite Hd, He. split; [|reflexivity].
      rewrite <- (append_empty_r partial_word) at 2. apply prefix_append.
    + apply walk_trie_spec in H;
        [|eapply unique_keys_descend; [exact Hwf | exact Hd]].
      destruct H as (suffix & m & _ & -> & Hm & He).
      split; [apply prefix_append |].
      now rewrite descend_append, Hd, Hm.
  - intros [Hp Hs]. apply prefix_split in Hp. destruct Hp as [s ->].
    rewrite descend_append in Hs.
    destruct (Trie.descend (Trie.root tr) partial_word) as [n|] eqn:Hd;
      [|discriminate].
    rewrite in_app_iff.
    destruct s as [|c s].
    + left. simpl in Hs. rewrite Hs, append_empty_r. now left.
    + right. apply walk_trie_spec;
        [eapply unique_keys_descend; [exact Hwf | exact Hd] |].
      destruct (Trie.descend n (String c s)) as [m|] eqn:Hm;
        [|discriminate].
      exists (String c s), m. repeat split; try assumption. discriminate.
Qed.

(** X6.  On a trie as [insert] builds it, [auto_complete(p)] returns
    exactly the stored words that begin with [p] ([p] itself included
    when it is a word), and nothing when no path for [p] exists. *)
Theorem auto_complete_gives_the_words_with_prefix
  (tr : Trie.t) (partial_word w : string) :
  unique_keys (Trie.root tr) ->
  (In w (Trie.auto_complete tr partial_word)
   <-> String.prefix partial_word w = true /\ Trie.search tr w = true)
  /\ (Trie.descend (Trie.root tr) partial_word = None ->
      Trie.auto_complete tr partial_word = []).
Proof.
  intros Hwf. split.
  - now apply auto_complete_In.
  - intros Hd. unfold Trie.auto_complete, Trie.auto_complete_from.
    now rewrite Hd.
Qed.

Lemma auto_complete_gives_the_words_with_prefix_witness :
  let tr := trie_of [("CAT", ""); ("CA", ""); ("CAR", ""); ("DOG", "")] in
  (In "CAR" (Trie.auto_complete tr "CA")
   <-> String.prefix "CA" "CAR" = true /\ Trie.search tr "CAR" = true)
  /\ Trie.auto_complete tr "CAB" = [].
Proof.
  cbv zeta.
  destruct (auto_complete_gives_the_words_with_prefix
              (trie_of [("CAT", ""); ("CA", ""); ("CAR", ""); ("DOG", "")])
              "CA" "CAR" (trie_of_unique_keys _)) as [H1 _].
  destruct (auto_complete_gives_the_words_with_prefix
              (trie_of [("CAT", ""); ("CA", ""); ("CAR", ""); ("DOG", "")])
              "CAB" "CAR" (trie_of_unique_keys _)) as [_ H2].
  split; [exact H1 | apply H2; reflexivity].
Defined.

(** ** Words of a given length *)

Section FixedLength.

Lemma walk_trie_fixed_length_cons (c : ascii) (m : TrieNode)
  (cs : list (ascii * TrieNode)) (d : string) (e : bool) (prefix : string)
  (length : nat) :
  Trie.walk_trie_fixed_length (Node ((c, m) :: cs) d e) prefix length
  = (if (end_ m
         && Nat.eqb (String.length (Py.add_char prefix c)) length)%bool
     then [Py.add_char prefix c] else [])
      ++ (if Nat.leb (String.length (Py.add_char prefix c)) length
          then Trie.walk_trie_fixed_length m (Py.add_char prefix c) length
          else [])
      ++ Trie.walk_trie_fixed_length (Node cs d e) prefix length.
Proof. reflexivity. Qed.

Lemma length_append (a b : string) :
  String.length (a ++ b) = (String.length a + String.length b)%nat.
Proof. induction a as [|c a IH]; simpl; [reflexivity | now rewrite IH]. Qed.

Lemma length_add_char (s : string) (c : ascii) :
  String.length (Py.add_char s c) = S (String.length s).
Proof. unfold Py.add_char. rewrite length_append. simpl. lia. Qed.

Lemma walk_trie_fixed_length_In (cs : list (ascii * TrieNode)) (d : string)
  (e : bool) (prefix w : string) (length : nat) :
  In w (Trie.walk_trie_fixed_length (Node cs d e) prefix length)
  <-> exists c m,
        In (c, m) cs
        /\ ((w = Py.add_char prefix c /\ end_ m = true
             /\ String.length w = length)
            \/ ((String.length (Py.add_char prefix c) <= length)%nat
                /\ In w (Trie.walk_trie_fixed_length
                           m (Py.add_char prefix c) length))).
Proof.
  induction cs as [|[c m] cs IH].
  - simpl. split; [intros [] | intros (c & m & [] & _)].
  - rewrite walk_trie_fixed_length_cons, !in_app_iff, IH. split.
    + intros [H | [H | (c' & m' & Hin & H)]].
      * exists c, m. split; [now left |]. left.
        destruct (end_ m); simpl in H; [|contradiction].
        destruct (Nat.eqb_spec (String.length (Py.add_char prefix c)) length);
          [|contradiction].
        destruct H as [<- | []]. auto.
      * exists c, m. split; [now left |]. right.
        destruct (Nat.leb_spec (String.length (Py.add_char prefix c)) length);
          [auto | contradiction].
      * exists c', m'. split; [now right | exact H].
    + intros (c' & m' & [Heq | Hin] & H).
      * injection Heq as <- <-. destruct H as [(-> & -> & Hl) | [Hl H]].
        -- left. simpl. rewrite Hl, Nat.eqb_refl. now left.
        -- right. left. apply Nat.leb_le in Hl. now rewrite Hl.
      * right. right. now exists c', m'.
Qed.

Lemma walk_trie_fixed_length_spec (length : nat) :
  forall node,
    unique_keys node ->
    forall prefix w,
      In w (Trie.walk_trie_fixed_length node prefix length)
      <-> exists suffix m,
            suffix <> ""
            /\ w = (prefix ++ suffix)%string
            /\ Trie.descend node suffix = Some m
            /\ end_ m = true /\ String.length w = length.
Proof.
  apply (TrieNode_children_ind
           (fun node =>
              unique_keys node ->
              forall prefix w,
                In w (Trie.walk_trie_fixed_length node prefix length)
                <-> exists suffix m,
                      suffix <> ""
                      /\ w = (prefix ++ suffix)%string
                      /\ Trie.descend node suffix = Some m
                      /\ end_ m = true /\ String.length w = length)).
  intros cs d e IH Hwf prefix w.
  apply unique_keys_node in Hwf. destruct Hwf as [Hnd Hall].
  rewrite Forall_forall in IH, Hall.
  rewrite walk_trie_fixed_length_In. split.
  - intros (c & m & Hin & H).
    pose proof (In_child _ _ _ Hnd Hin) as Hchild.
    destruct H as [(-> & He & Hl) | [_ H]].
    + exists (String c ""), m. repeat split; try assumption; try discriminate.
      cbn [Trie.descend children]. now rewrite Hchild.
    + apply (IH _ Hin (Hall _ Hin)) in H.
      destruct H as (suffix & m' & Hne & -> & Hd & He & Hl).
      exists (String c suffix), m'. repeat split; try assumption.
      * discriminate.
      * apply add_char_append.
      * cbn [Trie.descend children]. now rewrite Hchild.
  - intros (suffix & m' & Hne & -> & Hd & He & Hl).
    destruct suffix as [|c suffix]; [now elim Hne |].
    cbn [Trie.descend children] in Hd.
    destruct (Trie.child c cs) as [m|] eqn:Hchild; [|discriminate].
    apply child_In in Hchild.
    exists c, m. split; [exact Hchild |].
    destruct suffix as [|c2 suffix].
    + simpl in Hd. injection Hd as ->. left. auto.
    + right. split.
      * rewrite length_add_char. rewrite length_append in Hl. simpl in Hl. lia.
      * apply (IH _ Hchild (Hall _ Hchild)).
        exists (String c2 suffix), m'. repeat split; try assumption.
        -- discriminate.
        -- symmetry. apply add_char_append.
Qed.

End FixedLength.

(** X7.  On a trie as [insert] builds it, [get_x_letter_words(n)]
    returns exactly the stored non-empty words of [n] letters; for
    [n = 0] it returns nothing. *)
Theorem get_x_letter_words_gives_the_words_of_that_length
  (d : Dictionary.t) (length : nat) (w : string) :
  unique_keys (Trie.root (Dictionary.dct d)) ->
  (In w (Dictionary.get_x_letter_words d length)
   <-> w <> "" /\ Trie.search (Dictionary.dct d) w = true
       /\ String.length w = length)
  /\ Dictionary.get_x_letter_words d 0 = [].
Proof.
  intros Hwf.
  assert (H : forall n w0,
             In w0 (Dictionary.get_x_letter_words d n)
             <-> w0 <> "" /\ Trie.search (Dictionary.dct d) w0 = true
                 /\ String.length w0 = n).
  { intros n w0. unfold Dictionary.get_x_letter_words, Trie.search.
    rewrite (walk_trie_fixed_length_spec n _ Hwf). split.
    - intros (suffix & m & Hne & -> & Hd & He & Hl). simpl in *.
      rewrite Hd. auto.
    - intros (Hne & Hs & Hl).
      destruct (Trie.descend (Trie.root (Dictionary.dct d)) w0) as [m|] eqn:Hd;
        [|discriminate].
      now exists w0, m. }
  split; [apply H |].
  destruct (Dictionary.get_x_letter_words d 0) as [|w0 l] eqn:E;
    [reflexivity |].
  assert (Hin : In w0 (Dictionary.get_x_letter_words d 0))
    by (rewrite E; now left).
  apply H in Hin. destruct Hin as (Hne & _ & Hl).
  destruct w0; [now elim Hne | discriminate].
Qed.

Lemma get_x_letter_words_gives_the_words_of_that_length_witness :
  let d := dictionary_of [("CAT", ""); ("CA", ""); ("CAR", ""); ("DOG", "")] in
  In "CAR" (Dictionary.get_x_letter_words d 3)
  /\ Dictionary.get_x_letter_words d 0 = [].
Proof.
  cbv zeta.
  destruct (get_x_letter_words_gives_the_words_of_that_length
              (dictionary_of [("CAT", ""); ("CA", ""); ("CAR", "");
                              ("DOG", "")])
              3 "CAR" (trie_of_unique_keys _)) as [H1 H2].
  split; [|exact H2].
  apply H1. repeat split. discriminate.
Defined.

(** ** Words containing a token *)

Section Contains.

Variable token : string.

Lemma append_assoc (a b c : string) :
  ((a ++ b) ++ c)%string = (a ++ (b ++ c))%string.
Proof. induction a as [|x a IH]; simpl; [reflexivity | now rewrite IH]. Qed.

Lemma prefix_app_r (a b : string) :
  String.prefix token a = true -> String.prefix token (a ++ b) = true.
Proof.
  intros H. apply prefix_split in H. destruct H as [s ->].
  rewrite append_assoc. apply prefix_append.
Qed.

Lemma contains_prefix (s : string) :
  String.prefix token s = true -> Py.contains token s = true.
Proof. intros H. destruct s; simpl in *; now rewrite H. Qed.

Lemma contains_drop (k : nat) :
  forall s, Py.contains token (Py.drop k s) = true ->
            Py.contains token s = true.
Proof.
  induction k as [|k IH]; intros s H; [exact H |].
  destruct s as [|c s]; [exact H |].
  simpl in H. apply IH in H. simpl. rewrite H. apply orb_true_r.
Qed.

Lemma contains_append (a b : string) :
  Py.contains token a = true -> Py.contains token (a ++ b) = true.
Proof.
  induction a as [|c a IH]; intros H.
  - simpl in H. rewrite orb_false_r in H.
    apply contains_prefix. apply (prefix_app_r "" b H).
  - cbn [Py.contains] in H. apply orb_true_iff in H.
    change (String c a ++ b)%string with (String c (a ++ b)).
    cbn [Py.contains]. apply orb_true_iff.
    destruct H as [H | H].
    + left. apply (prefix_app_r (String c a) b H).
    + right. now apply IH.
Qed.

Lemma slice_last_contains (p : string) :
  String.eqb (Py.slice_last (String.length token) p) token = true ->
  Py.contains token p = true.
Proof.
  intros H. apply String.eqb_eq in H.
  assert (Ht : Py.contains token token = true).
  { apply contains_prefix. rewrite <- (append_empty_r token) at 2.
    apply prefix_append. }
  unfold Py.slice_last in H.
  destruct (String.length token); [now rewrite H |].
  apply (contains_drop (String.length p - S n)). now rewrite H.
Qed.

End Contains.

Section ContainsPartial.

Variable root_node : TrieNode.
Variable token : string.

Lemma contains_partial_cons (c : ascii) (n : TrieNode)
  (cs : list (ascii * TrieNode)) (d : string) (e : bool) (prefix : string)
  (retrace : bool) (wl : list string) :
  Trie._contains_partial root_node token (Node ((c, n) :: cs) d e) prefix
                         (retrace, wl)
  = let prefix2 :=
      Py.add_char (if retrace then Py.drop_last prefix else prefix) c in
    if String.eqb (Py.slice_last (String.length token) prefix2) token
    then (false, wl ++ Trie.auto_complete_from root_node prefix2)
    else
      match children n with
      | _ :: _ =>
          let '(r', wl') :=
            Trie._contains_partial root_node token n prefix2 (false, wl) in
          Trie._contains_partial root_node token (Node cs d e) prefix2
            (if Nat.eqb (String.length prefix2) 1 then true else r', wl')
      | [] =>
          Trie._contains_partial root_node token (Node cs d e) prefix2
                                 (true, wl)
      end.
Proof. reflexivity. Qed.

(** Whatever the prefix bookkeeping does, a call only appends results
    of [auto_complete] for prefixes that end in the token. *)
Lemma contains_partial_keeps (P : string -> Prop) :
  (forall p c w,
      String.eqb (Py.slice_last (String.length token) (Py.add_char p c))
                 token = true ->
      In w (Trie.auto_complete_from root_node (Py.add_char p c)) -> P w) ->
  forall node prefix retrace wl,
    Forall P wl ->
    Forall P (snd (Trie._contains_partial root_node token node prefix
                                          (retrace, wl))).
Proof.
  intros Hauto.
  apply (TrieNode_children_ind
           (fun node =>
              forall prefix retrace wl,
                Forall P wl ->
                Forall P (snd (Trie._contains_partial
                                 root_node token node prefix (retrace, wl))))).
  intros cs d e IH.
  induction cs as [|[c n] cs IHcs]; intros prefix retrace wl Hwl.
  - exact Hwl.
  - inversion IH as [|? ? Hn Hcs]; subst. simpl in Hn.
    rewrite contains_partial_cons. cbv zeta.
    destruct (String.eqb
                (Py.slice_last (String.length token)
                   (Py.add_char
                      (if retrace then Py.drop_last prefix else prefix) c))
                token) eqn:Em.
    + simpl. apply Forall_app. split; [exact Hwl |].
      apply Forall_forall. intros w Hw. eapply Hauto; eassumption.
    + destruct (children n) as [|kn cs'].
      * now apply IHcs.
      * specialize (Hn (Py.add_char
                          (if retrace then Py.drop_last prefix else prefix) c)
                       false wl Hwl).
        destruct (Trie._contains_partial root_node token n
                    (Py.add_char
                       (if retrace then Py.drop_last prefix else prefix) c)
                    (false, wl)) as [r' wl'].
        now apply IHcs.
Qed.

End ContainsPartial.

Lemma add_char_not_empty (s : string) (c : ascii) :
  String.eqb (Py.add_char s c) "" = false.
Proof. now destruct s. Qed.

(** X8.  On a trie as [insert] builds it, every word that
    [contains_partial(token)] returns is a stored word that contains the
    token; for the empty token it returns nothing. *)
Theorem contains_partial_returns_only_matches
  (tr : Trie.t) (token : string) (retrace_word : bool) :
  unique_keys (Trie.root tr) ->
  (forall w,
      In w (fst (Trie.contains_partial tr token retrace_word)) ->
      Trie.search tr w = true /\ Py.contains token w = true)
  /\ fst (Trie.contains_partial tr "" retrace_word) = [].
Proof.
  intros Hwf. split.
  - intros w Hin. unfold Trie.contains_partial in Hin.
    assert (H : Forall (fun w => Trie.search tr w = true
                                 /\ Py.contains token w = true)
                  (snd (Trie._contains_partial (Trie.root tr) token
                          (Trie.root tr) "" (retrace_word, [])))).
    { apply contains_partial_keeps; [|constructor].
      intros p c w0 Hm Hw0.
      apply (auto_complete_In tr _ w0 Hwf) in Hw0.
      destruct Hw0 as [Hp Hs]. split; [exact Hs |].
      apply prefix_split in Hp. destruct Hp as [s ->].
      apply contains_append. now apply slice_last_contains. }
    destruct (Trie._contains_partial (Trie.root tr) token (Trie.root tr) ""
                (retrace_word, [])) as [r wl].
    simpl in *. rewrite Forall_forall in H. now apply H.
  - unfold Trie.contains_partial.
    assert (H : Forall (fun _ => False)
                  (snd (Trie._contains_partial (Trie.root tr) ""
                          (Trie.root tr) "" (retrace_word, [])))).
    { apply contains_partial_keeps; [|constructor].
      intros p c w0 Hm _. simpl in Hm.
      now rewrite add_char_not_empty in Hm. }
    destruct (Trie._contains_partial (Trie.root tr) "" (Trie.root tr) ""
                (retrace_word, [])) as [r wl].
    simpl in *. destruct wl as [|w wl]; [reflexivity |].
    inversion H; contradiction.
Qed.

Lemma contains_partial_returns_only_matches_witness :
  let tr := trie_of [("CAB", ""); ("AB", ""); ("XY", "")] in
  (Trie.search tr "CAB" = true /\ Py.contains "A" "CAB" = true)
  /\ fst (Trie.contains_partial tr "" false) = [].
Proof.
  cbv zeta.
  destruct (contains_partial_returns_only_matches
              (trie_of [("CAB", ""); ("AB", ""); ("XY", "")]) "A" false
              (trie_of_unique_keys _)) as [H1 _].
  destruct (contains_partial_returns_only_matches
              (trie_of [("CAB", ""); ("AB", ""); ("XY", "")]) "" false
              (trie_of_unique_keys _)) as [_ H2].
  split; [|exact H2].
  apply H1. vm_compute. auto.
Defined.

(** ** From a definition back to its word *)

Lemma word_at_def_spec (defn : string) (pairs : list (string * string)) :
  (existsb (String.eqb defn) (map snd pairs) = true ->
   exists w, Dictionary.word_at_def defn pairs = Ok w /\ In (w, defn) pairs)
  /\ (existsb (String.eqb defn) (map snd pairs) = false ->
      Dictionary.word_at_def defn pairs = Raise ValueError).
Proof.
  induction pairs as [|[w df] pairs [IH1 IH2]]; simpl.
  - split; [discriminate | reflexivity].
  - rewrite (String.eqb_sym defn df).
    destruct (String.eqb_spec df defn) as [-> | Hne]; simpl.
    + split; [|discriminate]. intros _. exists w. split; [reflexivity | now left].
    + split.
      * intros H. destruct (IH1 H) as (w' & Hw & Hin).
        exists w'. split; [exact Hw | now right].
      * exact IH2.
Qed.

(** X9.  [get_word_from_def] answers exactly for the definitions that
    [is_defn] accepts: it then returns a stored word whose definition
    is the one asked for, and raises ValueError for any other text. *)
Theorem get_word_from_def_round_trip (d : Dictionary.t) (defn : string) :
  (Dictionary.is_defn d defn = true ->
   exists w,
     Dictionary.get_word_from_def d defn = Ok w
     /\ (unique_keys (Trie.root (Dictionary.dct d)) ->
         Trie.search (Dictionary.dct d) w = true
         /\ Trie.get_defn (Dictionary.dct d) w = Some defn))
  /\ (Dictionary.is_defn d defn = false ->
      Dictionary.get_word_from_def d defn = Raise ValueError).
Proof.
  unfold Dictionary.is_defn, Dictionary.get_word_from_def.
  destruct (word_at_def_spec defn
              (Trie.walk_trie_defs (Trie.root (Dictionary.dct d)) ""))
    as [H1 H2].
  split; [|exact H2].
  intros H. destruct (H1 H) as (w & Hw & Hin).
  exists w. split; [exact Hw |].
  intros Hwf. apply (stored_pairs _ _ _ Hwf) in Hin. tauto.
Qed.

Lemma get_word_from_def_round_trip_witness :
  let d := dictionary_of [("EAT", "consume with mouth"); ("CAT", "feline")] in
  (exists w,
      Dictionary.get_word_from_def d "feline" = Ok w
      /\ (unique_keys (Trie.root (Dictionary.dct d)) ->
          Trie.search (Dictionary.dct d) w = true
          /\ Trie.get_defn (Dictionary.dct d) w = Some "feline"))
  /\ Dictionary.get_word_from_def d "canine" = Raise ValueError.
Proof.
  cbv zeta. split.
  - apply (proj1 (get_word_from_def_round_trip _ "feline")). reflexivity.
  - apply (proj2 (get_word_from_def_round_trip _ "canine")). reflexivity.
Defined.

(** ** Word scores *)

Section WordScore.

Lemma get_word_score_from_append (ls : list Z) (a b : string) :
  forall acc,
    get_word_score_from (a ++ b) ls acc
    = Py.bind (get_word_score_from a ls acc) (get_word_score_from b ls).
Proof.
  induction a as [|c a IH]; intros acc; simpl; [reflexivity |].
  destruct (LETTER_DICTIONARY c) as [i|e]; simpl; [|reflexivity].
  destruct (Py.getitem ls i) as [s|e]; simpl; [|reflexivity].
  apply IH.
Qed.

Lemma get_word_score_from_acc (ls : list Z) (w : string) :
  forall acc,
    get_word_score_from w ls acc
    = Py.bind (get_word_score_from w ls 0) (fun s => Ok (acc + s)).
Proof.
  induction w as [|c w IH]; intros acc; simpl.
  - now rewrite Z.add_0_r.
  - destruct (LETTER_DICTIONARY c) as [i|e]; simpl; [|reflexivity].
    destruct (Py.getitem ls i) as [s|e]; simpl; [|reflexivity].
    rewrite (IH (acc + s)), (IH s).
    destruct (get_word_score_from w ls 0); simpl; [|reflexivity].
    f_equal. lia.
Qed.

Lemma letter_key_range (c : ascii) (i : Z) :
  LETTER_DICTIONARY c = Ok i -> 0 <= i <= 26.
Proof.
  unfold LETTER_DICTIONARY.
  destruct (Nat.leb_spec 65 (nat_of_ascii c));
    destruct (Nat.leb_spec (nat_of_ascii c) 90); simpl;
    try (destruct (Ascii.eqb c BLANK_TILE_CHAR); [|discriminate]);
    intros E; injection E as <-; lia.
Qed.

Lemma letter_not_key (c : ascii) :
  (forall i, LETTER_DICTIONARY c <> Ok i) ->
  LETTER_DICTIONARY c = Raise KeyError.
Proof.
  unfold LETTER_DICTIONARY. intros H.
  destruct (Nat.leb 65 (nat_of_ascii c) && Nat.leb (nat_of_ascii c) 90)%bool;
    [now elim (H (Z.of_nat (nat_of_ascii c) - 65)) |].
  destruct (Ascii.eqb c BLANK_TILE_CHAR); [now elim (H 26) | reflexivity].
Qed.

Lemma default_letter_score (i : Z) :
  0 <= i <= 26 ->
  exists s, Py.getitem LETTER_SCORING i = Ok s /\ 0 <= s <= 10.
Proof.
  intros Hi. rewrite getitem_nonneg by lia.
  assert (Hk : (Z.to_nat i < 27)%nat) by lia.
  remember (Z.to_nat i) as k eqn:Ek. clear Ek Hi.
  do 27 (destruct k as [|k];
         [simpl; eexists; split; [reflexivity | lia] |]).
  lia.
Qed.

End WordScore.

(** X10.  [get_word_score] adds the scores of the letters, so the score
    of [a + b] is the sum of the two scores, the first error winning.
    With the default table it succeeds exactly on words made of the
    keys of [LETTER_DICTIONARY] ("A" to "Z" and the blank), with a
    score between 0 and 10 per letter, and raises KeyError at the first
    other character; lower-case letters are not keys. *)
Theorem get_word_score_adds_letters :
  (forall (ls : option (list Z)) (a b : string),
      get_word_score (a ++ b) ls
      = Py.bind (get_word_score a ls)
          (fun sa => Py.bind (get_word_score b ls)
                       (fun sb => Ok (sa + sb))))
  /\ (forall w : string,
         (forall c, In c (letters w) -> exists i, LETTER_DICTIONARY c = Ok i)
         -> exists s,
             get_word_score w None = Ok s
             /\ 0 <= s <= 10 * Z.of_nat (String.length w))
  /\ (forall (a b : string) (c : ascii),
         (forall x, In x (letters a) -> exists i, LETTER_DICTIONARY x = Ok i)
         -> (forall i, LETTER_DICTIONARY c <> Ok i)
         -> get_word_score (a ++ String c b) None = Raise KeyError)
  /\ get_word_score "cat" None = Raise KeyError.
Proof.
  assert (Hok : forall w : string,
             (forall c, In c (letters w) ->
                        exists i, LETTER_DICTIONARY c = Ok i) ->
             exists s,
               get_word_score w None = Ok s
               /\ 0 <= s <= 10 * Z.of_nat (String.length w)).
  { unfold get_word_score.
    induction w as [|c w IH]; intros Hw.
    - exists 0. simpl. split; [reflexivity | lia].
    - destruct (Hw c (or_introl eq_refl)) as [i Hi].
      destruct (default_letter_score i (letter_key_range _ _ Hi))
        as (s & Hs & Hrange).
      destruct IH as (s' & Hs' & Hrange');
        [intros x Hx; apply Hw; now right |].
      exists (s + s'). cbn [get_word_score_from]. rewrite Hi. simpl.
      rewrite Hs. simpl. rewrite get_word_score_from_acc, Hs'. simpl.
      split; [f_equal; lia |].
      cbn [String.length]. lia. }
  split; [|split; [exact Hok | split; [|reflexivity]]].
  - intros ls a b. unfold get_word_score.
    rewrite get_word_score_from_append.
    destruct (get_word_score_from a _ 0) as [sa|e]; simpl; [|reflexivity].
    apply get_word_score_from_acc.
  - intros a b c Ha Hc. unfold get_word_score.
    rewrite get_word_score_from_append.
    destruct (Hok a Ha) as (s & Hs & _). unfold get_word_score in Hs.
    rewrite Hs. simpl. now rewrite (letter_not_key c Hc).
Qed.

Lemma get_word_score_adds_letters_witness :
  (exists s, get_word_score "QUIZ?" None = Ok s
             /\ 0 <= s <= 10 * Z.of_nat (String.length "QUIZ?"))
  /\ get_word_score ("QU" ++ String "i" "Z") None = Raise KeyError.
Proof.
  destruct get_word_score_adds_letters as (_ & H2 & H3 & _).
  split.
  - apply H2. intros c Hc. simpl in Hc.
    repeat (destruct Hc as [<- | Hc]; [eexists; reflexivity |]).
    contradiction.
  - apply H3.
    + intros c Hc. simpl in Hc.
      repeat (destruct Hc as [<- | Hc]; [eexists; reflexivity |]).
      contradiction.
    + intros i. discriminate.
Defined.

(** ** Subanagrams *)

Section Sorting.

Context {A : Type}.
Variable leb : A -> A -> bool.

Lemma insert_sorted_Permutation (x : A) (l : list A) :
  Permutation (x :: l) (Py.insert_sorted leb x l).
Proof.
  induction l as [|y l IH]; simpl; [apply Permutation_refl |].
  destruct (leb x y); [apply Permutation_refl |].
  eapply Permutation_trans; [apply perm_swap | now apply perm_skip].
Qed.

Lemma sorted_Permutation (l : list A) : Permutation l (Py.sorted leb l).
Proof.
  induction l as [|x l IH]; simpl; [apply perm_nil |].
  eapply Permutation_trans;
    [apply perm_skip, IH | apply insert_sorted_Permutation].
Qed.

Hypothesis leb_total : forall a b, leb a b = true \/ leb b a = true.

Lemma insert_sorted_HdRel (a x : A) (l : list A) :
  leb a x = true ->
  HdRel (fun a b => leb a b = true) a l ->
  HdRel (fun a b => leb a b = true) a (Py.insert_sorted leb x l).
Proof.
  intros Hax Hl. destruct l as [|y l]; simpl.
  - now constructor.
  - destruct (leb x y); constructor; [exact Hax |].
    now inversion Hl.
Qed.

Lemma insert_sorted_Sorted (x : A) (l : list A) :
  Sorted (fun a b => leb a b = true) l ->
  Sorted (fun a b => leb a b = true) (Py.insert_sorted leb x l).
Proof.
  induction l as [|y l IH]; intros Hs; simpl.
  - repeat constructor.
  - inversion Hs as [|? ? Hs' Hhd]; subst.
    destruct (leb x y) eqn:E.
    + constructor; [exact Hs | now constructor].
    + constructor; [now apply IH |].
      apply insert_sorted_HdRel; [|exact Hhd].
      destruct (leb_total x y) as [H | H]; [congruence | exact H].
Qed.

(** The result of a sort is in order. *)
Lemma sorted_Sorted (l : list A) :
  Sorted (fun a b => leb a b = true) (Py.sorted leb l).
Proof.
  induction l as [|x l IH]; simpl; [constructor |].
  now apply insert_sorted_Sorted.
Qed.

End Sorting.

Section Subanagrams.

Variable d : Dictionary.t.

Lemma length_letters (s : string) :
  List.length (letters s) = String.length s.
Proof. induction s as [|c s IH]; simpl; [reflexivity | now rewrite IH]. Qed.

Lemma letters_empty (s : string) : letters s = [] -> s = "".
Proof. destruct s; [reflexivity | discriminate]. Qed.

Lemma find_subanagrams_In (n : nat) :
  forall (W x : string),
    String.length W = n ->
    (In x (Dictionary._find_subanagrams n d W)
     <-> Trie.search (Dictionary.dct d) x = true
         /\ (exists rest, Permutation (letters W) (letters x ++ rest))
         /\ (x <> "" \/ W = "")).
Proof.
  induction n as [n IH] using lt_wf_ind. intros W x Hlen.
  assert (Hanag :
            In x (Dictionary.find_anagrams d W) ->
            Trie.search (Dictionary.dct d) x = true
            /\ (exists rest, Permutation (letters W) (letters x ++ rest))
            /\ (x <> "" \/ W = "")).
  { intros H. apply find_anagrams_spec in H. destruct H as [Hp Hs].
    split; [exact Hs |]. split.
    - exists []. now rewrite app_nil_r.
    - destruct x as [|c x]; [|left; discriminate].
      right. apply letters_empty.
      apply Permutation_sym, Permutation_nil in Hp. exact Hp. }
  split.
  - destruct n as [|[|n]]; cbn [Dictionary._find_subanagrams];
      rewrite in_app_iff; intros [H | H];
      try (now apply Hanag); try contradiction.
    apply in_flat_map in H. destruct H as [[c r] [Hpick Hin]]. simpl in Hin.
    pose proof (picks_Permutation _ _ _ Hpick) as Hperm.
    pose proof (picks_length _ _ _ Hpick) as Hl.
    rewrite length_letters, Hlen in Hl.
    apply (IH (S n)) in Hin;
      [|lia | rewrite <- length_letters, list_ascii_of_string_of_list_ascii;
              lia].
    rewrite list_ascii_of_string_of_list_ascii in Hin.
    destruct Hin as (Hs & [rest Hrest] & Hne).
    split; [exact Hs |]. split.
    + exists (c :: rest).
      eapply Permutation_trans; [exact Hperm |].
      eapply Permutation_trans; [apply perm_skip, Hrest |].
      apply Permutation_middle.
    + left. destruct Hne as [Hne | He]; [exact Hne |].
      apply (f_equal String.length) in He.
      rewrite <- length_letters, list_ascii_of_string_of_list_ascii in He.
      simpl in He. lia.
  - intros (Hs & [rest Hrest] & Hne).
    destruct rest as [|c rest].
    + rewrite app_nil_r in Hrest.
      assert (Ha : In x (Dictionary.find_anagrams d W))
        by (apply find_anagrams_spec; now split).
      destruct n as [|[|n]]; cbn [Dictionary._find_subanagrams];
        rewrite in_app_iff; now left.
    + assert (Hc : In c (letters W)).
      { eapply Permutation_in; [apply Permutation_sym, Hrest |].
        apply in_or_app. right. now left. }
      apply in_split in Hc. destruct Hc as (l1 & l2 & HW).
      rewrite HW in Hrest. apply Permutation_app_inv in Hrest.
      assert (Hx : x <> "").
      { destruct Hne as [Hne | ->]; [exact Hne |].
        destruct l1; discriminate. }
      assert (Hlx : (1 <= String.length x)%nat)
        by (destruct x; [now elim Hx | simpl; lia]).
      pose proof (Permutation_length Hrest) as Hl.
      rewrite length_app in Hl.
      rewrite (length_app (letters x)) in Hl. rewrite length_letters in Hl.
      pose proof (f_equal (@List.length ascii) HW) as HlW.
      rewrite length_letters, Hlen, length_app in HlW. simpl in HlW.
      destruct n as [|[|n]]; [lia | lia |].
      cbn [Dictionary._find_subanagrams]. rewrite in_app_iff. right.
      apply in_flat_map. exists (c, l1 ++ l2). split.
      * rewrite HW. apply picks_split.
      * simpl. apply (IH (S n)); [lia | |].
        -- rewrite <- length_letters, list_ascii_of_string_of_list_ascii.
           rewrite length_app. lia.
        -- rewrite list_ascii_of_string_of_list_ascii.
           split; [exact Hs |]. split; [now exists rest | now left].
Qed.

End Subanagrams.

Lemma Sorted_weaken {A : Type} (R R' : A -> A -> Prop) (l : list A) :
  (forall a b, R a b -> R' a b) -> Sorted R l -> Sorted R' l.
Proof.
  intros H. induction 1 as [|a l Hs IH Hhd]; constructor; [exact IH |].
  destruct Hhd; constructor. now apply H.
Qed.

Lemma custom_key_leb_length (a b : string) :
  Dictionary._custom_key_leb a b = true ->
  (String.length b <= String.length a)%nat.
Proof.
  unfold Dictionary._custom_key_leb.
  destruct (Nat.ltb_spec (String.length b) (String.length a)); [lia |].
  destruct (Nat.ltb_spec (String.length a) (String.length b));
    [discriminate | lia].
Qed.

Lemma custom_key_leb_total (a b : string) :
  Dictionary._custom_key_leb a b = true
  \/ Dictionary._custom_key_leb b a = true.
Proof.
  unfold Dictionary._custom_key_leb.
  destruct (Nat.ltb_spec (String.length b) (String.length a));
    [now left |].
  destruct (Nat.ltb_spec (String.length a) (String.length b));
    [now right |].
  apply String.leb_total.
Qed.

(** X11.  [find_subanagrams(W)] returns, without repetition, exactly the
    stored words that can be made from letters of [W], each letter used
    at most as often as [W] has it (the empty word only for empty [W]);
    they come in plain string order, or with [sort_by_length] by
    descending length and then by lower-cased text. *)
Theorem find_subanagrams_spec (d : Dictionary.t) (W x : string) :
  (forall sort_by_length,
      In x (Dictionary.find_subanagrams d W sort_by_length)
      <-> Trie.search (Dictionary.dct d) x = true
          /\ (exists rest, Permutation (letters W) (letters x ++ rest))
          /\ (x <> "" \/ W = ""))
  /\ (forall sort_by_length,
         NoDup (Dictionary.find_subanagrams d W sort_by_length))
  /\ Sorted (fun a b => String.leb a b = true)
            (Dictionary.find_subanagrams d W false)
  /\ Sorted (fun a b => Dictionary._custom_key_leb a b = true)
            (Dictionary.find_subanagrams d W true)
  /\ StronglySorted (fun a b => (String.length b <= String.length a)%nat)
                    (Dictionary.find_subanagrams d W true).
Proof.
  assert (Hperm : forall b,
             Permutation
               (Py.list_set
                  (Dictionary._find_subanagrams (String.length W) d W))
               (Dictionary.find_subanagrams d W b)).
  { intros b. unfold Dictionary.find_subanagrams.
    destruct b; apply sorted_Permutation. }
  split; [|split; [|split; [|split]]].
  - intros b. split; intros H.
    + apply (Permutation_in _ (Permutation_sym (Hperm b))) in H.
      unfold Py.list_set in H. apply nodup_In in H.
      now apply (find_subanagrams_In d (String.length W) W x eq_refl).
    + apply (Permutation_in _ (Hperm b)). unfold Py.list_set.
      apply nodup_In.
      now apply (find_subanagrams_In d (String.length W) W x eq_refl).
  - intros b. eapply Permutation_NoDup; [apply Hperm |]. apply NoDup_nodup.
  - apply sorted_Sorted. apply String.leb_total.
  - apply sorted_Sorted. apply custom_key_leb_total.
  - apply Sorted_StronglySorted; [intros a b c Hab Hbc; lia |].
    eapply Sorted_weaken; [|apply sorted_Sorted, custom_key_leb_total].
    apply custom_key_leb_length.
Qed.

Lemma find_subanagrams_spec_witness :
  let d := dictionary_of [("CAT", ""); ("ACT", ""); ("AT", ""); ("TA", "");
                          ("DOG", "")] in
  In "TA" (Dictionary.find_subanagrams d "CAT" true)
  /\ Dictionary.find_subanagrams d "CAT" true = ["ACT"; "CAT"; "AT"; "TA"]
  /\ Dictionary.find_subanagrams d "CAT" false = ["ACT"; "AT"; "CAT"; "TA"].
Proof.
  cbv zeta. split; [|split; reflexivity].
  apply (proj1 (find_subanagrams_spec _ "CAT" "TA") true).
  split; [reflexivity |]. split; [|left; discriminate].
  exists ["C"%char]. apply permutations_spec. vm_compute.
  repeat (try (left; reflexivity); right).
Defined.

(** ** Words by score *)

Section ScoreDict.

Context {V : Type}.

Lemma dict_set_keys (k : string) (v : V) (l : list (string * V))
  (k' : string) :
  In k' (map fst (dict_set k v l)) <-> k' = k \/ In k' (map fst l).
Proof.
  induction l as [|[k0 v0] l IH]; simpl.
  - intuition congruence.
  - destruct (String.eqb_spec k0 k) as [-> | Hne]; simpl.
    + intuition congruence.
    + rewrite IH. intuition congruence.
Qed.

Lemma dict_set_NoDup (k : string) (v : V) (l : list (string * V)) :
  NoDup (map fst l) -> NoDup (map fst (dict_set k v l)).
Proof.
  induction l as [|[k0 v0] l IH]; simpl; intros Hnd.
  - constructor; [intros [] | constructor].
  - inversion Hnd as [|? ? Hnotin Hnd']; subst.
    destruct (String.eqb_spec k0 k) as [-> | Hne]; simpl.
    + now constructor.
    + constructor; [|now apply IH].
      rewrite dict_set_keys. intros [H | H]; [congruence | contradiction].
Qed.

Lemma dict_set_entries (P : string * V -> Prop) (k : string) (v : V)
  (l : list (string * V)) :
  P (k, v) -> Forall P l -> Forall P (dict_set k v l).
Proof.
  intros Hk. induction l as [|[k0 v0] l IH]; simpl; intros Hl.
  - now repeat constructor.
  - inversion Hl; subst.
    destruct (String.eqb_spec k0 k) as [-> | Hne]; constructor; auto.
Qed.

End ScoreDict.

Section ScoreWords.

Lemma score_words_spec (word_list : list string) :
  forall acc r,
    NoDup (map fst acc) ->
    Forall (fun ws => get_word_score (fst ws) None = Ok (snd ws)) acc ->
    score_words word_list acc = Ok r ->
    NoDup (map fst r)
    /\ Forall (fun ws => get_word_score (fst ws) None = Ok (snd ws)) r
    /\ (forall w, In w (map fst r) <-> In w (map fst acc) \/ In w word_list).
Proof.
  induction word_list as [|word rest IH]; intros acc r Hnd Hacc H; simpl in H.
  - injection H as <-. split; [exact Hnd | split; [exact Hacc |]].
    intros w. simpl. tauto.
  - destruct (get_word_score word None) as [s|e] eqn:Es; [|discriminate].
    simpl in H.
    apply IH in H;
      [|now apply dict_set_NoDup | now apply dict_set_entries].
    destruct H as (H1 & H2 & H3). repeat split; try assumption.
    + intros Hin. apply H3 in Hin. rewrite dict_set_keys in Hin.
      simpl. intuition congruence.
    + intros Hin. apply H3. rewrite dict_set_keys. simpl in Hin.
      intuition congruence.
Qed.

Lemma score_words_total (word_list : list string) :
  forall acc,
    (forall w, In w word_list -> exists s, get_word_score w None = Ok s) ->
    exists r, score_words word_list acc = Ok r.
Proof.
  induction word_list as [|word rest IH]; intros acc H; simpl.
  - now exists acc.
  - destruct (H word (or_introl eq_refl)) as [s ->]. simpl.
    apply IH. intros w Hw. apply H. now right.
Qed.

End ScoreWords.

(** X12.  [get_highest_scoring_words] returns each word of the list once
    with its letter score, in ascending order of score; it returns
    whenever every word can be scored. *)
Theorem get_highest_scoring_words_sorted_scores
  (d : Dictionary.t) (word_list : list string) :
  word_list <> [] ->
  (forall r,
      get_highest_scoring_words d (Some word_list) = Ok r ->
      (forall w s, In (w, s) r
                   <-> In w word_list /\ get_word_score w None = Ok s)
      /\ NoDup (map fst r)
      /\ Sorted (fun a b => (snd a <=? snd b) = true) r)
  /\ ((forall w, In w word_list -> exists s, get_word_score w None = Ok s)
      -> exists r, get_highest_scoring_words d (Some word_list) = Ok r).
Proof.
  intros Hne.
  assert (Hwl : get_highest_scoring_words d (Some word_list)
                = Py.bind (score_words word_list [])
                    (fun dct => Ok (_sort_by_value dct))).
  { unfold get_highest_scoring_words.
    destruct word_list; [now elim Hne | reflexivity]. }
  rewrite Hwl. split.
  - intros r H.
    destruct (score_words word_list []) as [dct|e] eqn:E; [|discriminate].
    simpl in H. injection H as <-.
    apply score_words_spec in E; [|constructor | constructor].
    destruct E as (Hnd & Hall & Hkeys).
    pose proof (sorted_Permutation (fun a b => snd a <=? snd b) dct) as Hp.
    fold (_sort_by_value dct) in Hp.
    rewrite Forall_forall in Hall.
    split; [|split].
    + intros w s. split.
      * intros Hin. apply (Permutation_in _ (Permutation_sym Hp)) in Hin.
        split; [|apply (Hall _ Hin)].
        assert (Hk : In w (map fst dct))
          by (apply in_map_iff; now exists (w, s)).
        apply Hkeys in Hk. destruct Hk as [[] | Hk]. exact Hk.
      * intros [Hin Hs]. apply (Permutation_in _ Hp).
        assert (Hk : In w (map fst dct)) by (apply Hkeys; now right).
        apply in_map_iff in Hk. destruct Hk as [[w' s'] [<- Hin']].
        pose proof (Hall _ Hin') as Hs'. simpl in *.
        assert (s' = s) by congruence. now subst.
    + eapply Permutation_NoDup; [|exact Hnd]. now apply Permutation_map.
    + apply sorted_Sorted. intros a b.
      destruct (Z.leb_spec (snd a) (snd b)); [now left |].
      right. apply Z.leb_le. lia.
  - intros H. destruct (score_words_total word_list [] H) as [dct ->].
    simpl. now eexists.
Qed.

Lemma get_highest_scoring_words_sorted_scores_witness :
  exists r,
    get_highest_scoring_words empty_dictionary
      (Some ["ZA"; "DOG"; "AT"; "DOG"]) = Ok r
    /\ NoDup (map fst r)
    /\ Sorted (fun a b => (snd a <=? snd b) = true) r.
Proof.
  destruct (get_highest_scoring_words_sorted_scores empty_dictionary
              ["ZA"; "DOG"; "AT"; "DOG"]) as [H1 H2]; [discriminate |].
  destruct H2 as [r Hr].
  - intros w Hw. simpl in Hw.
    repeat (destruct Hw as [<- | Hw]; [eexists; reflexivity |]).
    contradiction.
  - exists r. split; [exact Hr |].
    destruct (H1 r Hr) as (_ & Hn & Hs). split; assumption.
Defined.

(** ** Letters of the bag *)

Section Letters.

Lemma list_in_In (x : ascii) (l : list ascii) :
  Py.list_in x l = true <-> In x l.
Proof.
  unfold Py.list_in. rewrite existsb_exists. split.
  - intros [y [Hy E]]. apply Ascii.eqb_eq in E. now subst.
  - intros H. exists x. split; [exact H | apply Ascii.eqb_refl].
Qed.

Lemma list_remove_In (x : ascii) (l : list ascii) :
  In x l ->
  exists r, Py.list_remove x l = Ok r /\ Permutation l (x :: r).
Proof.
  induction l as [|y l IH]; intros Hin; [contradiction |].
  simpl. destruct (Ascii.eqb_spec y x) as [-> | Hne].
  - exists l. split; [reflexivity | apply Permutation_refl].
  - destruct Hin as [-> | Hin]; [now elim Hne |].
    destruct (IH Hin) as (r & -> & Hp).
    exists (y :: r). split; [reflexivity |].
    eapply Permutation_trans; [apply perm_skip, Hp | apply perm_swap].
Qed.

Lemma list_remove_missing (x : ascii) (l : list ascii) :
  ~ In x l -> Py.list_remove x l = Raise ValueError.
Proof.
  induction l as [|y l IH]; intros Hin; [reflexivity |].
  simpl. destruct (Ascii.eqb_spec y x) as [-> | Hne].
  - elim Hin. now left.
  - rewrite IH; [reflexivity |]. intros H. apply Hin. now right.
Qed.

Lemma can_make_spec (word : string) :
  forall bag,
    (fst (_can_make_word_from_letters word bag) = true
     <-> exists rest, Permutation bag (letters word ++ rest))
    /\ (fst (_can_make_word_from_letters word bag) = true ->
        Permutation bag
          (letters word ++ snd (_can_make_word_from_letters word bag))).
Proof.
  induction word as [|c word IH]; intros bag.
  - simpl. split; [|intros _; apply Permutation_refl].
    split; [intros _; now exists bag | reflexivity].
  - cbn [_can_make_word_from_letters letters list_ascii_of_string].
    destruct (Py.list_in c bag) eqn:Ein.
    + apply list_in_In in Ein.
      destruct (list_remove_In c bag Ein) as (r & -> & Hp).
      destruct (IH r) as [IH1 IH2]. split; [split |].
      * intros H. apply IH1 in H. destruct H as [rest Hrest].
        exists rest. simpl.
        eapply Permutation_trans; [exact Hp | now apply perm_skip].
      * intros [rest Hrest]. apply IH1. exists rest.
        apply Permutation_cons_inv with (a := c).
        eapply Permutation_trans; [apply Permutation_sym, Hp | exact Hrest].
      * intros H. simpl.
        eapply Permutation_trans; [exact Hp | apply perm_skip, IH2, H].
    + simpl. split; [split |]; try discriminate.
      intros [rest Hrest].
      assert (Hc : In c bag).
      { eapply Permutation_in; [apply Permutation_sym, Hrest | now left]. }
      apply list_in_In in Hc. congruence.
Qed.

Lemma remove_word_spec (word : string) :
  forall bag,
    _remove_word_from_letters word bag
    = if fst (_can_make_word_from_letters word bag)
      then Ok (snd (_can_make_word_from_letters word bag))
      else Raise ValueError.
Proof.
  induction word as [|c word IH]; intros bag; [reflexivity |].
  cbn [_remove_word_from_letters _can_make_word_from_letters].
  destruct (Py.list_in c bag) eqn:Ein.
  - apply list_in_In in Ein.
    destruct (list_remove_In c bag Ein) as (r & -> & _). simpl. apply IH.
  - rewrite list_remove_missing; [reflexivity |].
    intros H. apply list_in_In in H. congruence.
Qed.

Lemma word_fits_letters_can_make (word : string) :
  forall bag,
    word_fits_letters word bag
    = fst (_can_make_word_from_letters word bag).
Proof.
  induction word as [|c word IH]; intros bag; [reflexivity |].
  cbn [word_fits_letters _can_make_word_from_letters].
  destruct (Py.list_in c bag); [|reflexivity].
  destruct (Py.list_remove c bag); [apply IH | reflexivity].
Qed.

End Letters.

Lemma letters_append (a b : string) :
  letters (a ++ b) = letters a ++ letters b.
Proof.
  induction a as [|c a IH]; [reflexivity |]. simpl. now rewrite IH.
Qed.

Lemma can_make_false (word : string) :
  forall bag,
    fst (_can_make_word_from_letters word bag) = false ->
    exists made c unmade,
      word = (made ++ String c unmade)%string
      /\ Permutation bag
           (letters made ++ snd (_can_make_word_from_letters word bag))
      /\ ~ In c (snd (_can_make_word_from_letters word bag)).
Proof.
  induction word as [|c word IH]; intros bag; [discriminate |].
  cbn [_can_make_word_from_letters].
  destruct (Py.list_in c bag) eqn:Ein.
  - apply list_in_In in Ein.
    destruct (list_remove_In c bag Ein) as (r & -> & Hp).
    intros H. destruct (IH r H) as (made & c' & unmade & -> & Hp' & Hc').
    exists (String c made), c', unmade.
    split; [reflexivity |]. split; [|exact Hc'].
    simpl. eapply Permutation_trans; [exact Hp | now apply perm_skip].
  - intros _. exists "", c, word. simpl.
    split; [reflexivity |]. split; [apply Permutation_refl |].
    intros H. apply list_in_In in H. congruence.
Qed.

(** X13.  [_can_make_word_from_letters] answers True exactly when the
    available letters are the letters of the word plus some rest, each
    tile used once, and it then leaves that rest in the list.  When it
    answers False, the letters it matched before the first missing one
    have been removed from the list all the same. *)
Theorem can_make_word_uses_each_tile_once
  (word : string) (available_letters : list ascii) :
  (fst (_can_make_word_from_letters word available_letters) = true
   <-> exists rest, Permutation available_letters (letters word ++ rest))
  /\ (fst (_can_make_word_from_letters word available_letters) = true ->
      Permutation available_letters
        (letters word
           ++ snd (_can_make_word_from_letters word available_letters)))
  /\ (fst (_can_make_word_from_letters word available_letters) = false ->
      exists made c unmade,
        word = (made ++ String c unmade)%string
        /\ Permutation available_letters
             (letters made
                ++ snd (_can_make_word_from_letters word available_letters))
        /\ ~ In c (snd (_can_make_word_from_letters
                          word available_letters))).
Proof.
  destruct (can_make_spec word available_letters) as [H1 H2].
  split; [exact H1 |]. split; [exact H2 | apply can_make_false].
Qed.

Lemma can_make_word_uses_each_tile_once_witness :
  Permutation (letters "TACOT")
    (letters "CAT"
       ++ snd (_can_make_word_from_letters "CAT" (letters "TACOT"))).
Proof.
  apply (proj1 (proj2 (can_make_word_uses_each_tile_once
                         "CAT" (letters "TACOT")))).
  reflexivity.
Defined.

(** X14.  [_remove_word_from_letters] succeeds exactly when
    [_can_make_word_from_letters] answers True on the same letters, and
    then leaves the same list; otherwise [remove] raises ValueError. *)
Theorem remove_word_agrees_with_can_make
  (word : string) (available_letters : list ascii) :
  (fst (_can_make_word_from_letters word available_letters) = true ->
   _remove_word_from_letters word available_letters
   = Ok (snd (_can_make_word_from_letters word available_letters)))
  /\ (fst (_can_make_word_from_letters word available_letters) = false ->
      _remove_word_from_letters word available_letters = Raise ValueError).
Proof.
  rewrite remove_word_spec.
  destruct (fst (_can_make_word_from_letters word available_letters));
    split; intros H; try discriminate; reflexivity.
Qed.

Lemma remove_word_agrees_with_can_make_witness :
  _remove_word_from_letters "CAT" (letters "TACOT") = Ok (letters "OT")
  /\ _remove_word_from_letters "CATS" (letters "TACOT") = Raise ValueError.
Proof.
  split.
  - apply (proj1 (remove_word_agrees_with_can_make "CAT" (letters "TACOT"))).
    reflexivity.
  - apply (proj2 (remove_word_agrees_with_can_make "CATS" (letters "TACOT"))).
    reflexivity.
Defined.

(** X15.  [_remove_words_requiring_blank] keeps, in their order, exactly
    the entries whose word can be made from the available letters, each
    tile used once. *)
Theorem remove_words_requiring_blank_keeps_makeable
  {V : Type} (word_dct : list (string * V)) (available_letters : list ascii) :
  _remove_words_requiring_blank word_dct available_letters
  = filter (fun wv =>
              fst (_can_make_word_from_letters (fst wv) available_letters))
           word_dct
  /\ (forall wv,
         In wv (_remove_words_requiring_blank word_dct available_letters)
         <-> In wv word_dct
             /\ exists rest,
                 Permutation available_letters (letters (fst wv) ++ rest)).
Proof.
  assert (H : _remove_words_requiring_blank word_dct available_letters
              = filter (fun wv =>
                          fst (_can_make_word_from_letters
                                 (fst wv) available_letters))
                       word_dct).
  { induction word_dct as [|wv rest IH]; [reflexivity |].
    simpl. rewrite word_fits_letters_can_make, IH. reflexivity. }
  split; [exact H |].
  intros wv. rewrite H, filter_In.
  now rewrite (proj1 (can_make_spec (fst wv) available_letters)).
Qed.

Lemma remove_words_requiring_blank_keeps_makeable_witness :
  In ("CAT", 5)
     (_remove_words_requiring_blank [("CATS", 6); ("CAT", 5); ("TOT", 3)]
                                    (letters "TACOT")).
Proof.
  apply (proj2 (remove_words_requiring_blank_keeps_makeable
                  [("CATS", 6); ("CAT", 5); ("TOT", 3)] (letters "TACOT"))).
  split; [right; now left |].
  exists (letters "OT"). simpl. apply permutations_spec. vm_compute.
  repeat (try (left; reflexivity); right).
Defined.

(** ** Plays and the grid *)

Section AfterSetWord.

Lemma play_word_cases (self self1 : Board.t) (word : string) (row col : Z)
  (d : Board.Direction) (score : Z) :
  Board.play_word word row col d self = (Ok score, self1) ->
  Board.set_word word row col d self = (Ok (score, true), self1)
  \/ exists s self0,
       Board.set_word word row col d self = (Ok (s, false), self0)
       /\ score = INVALID_PLAY
       /\ Board.undo_play self0 = (Ok tt, self1).
Proof.
  unfold Board.play_word, Board.bindM at 1.
  destruct (Board.set_word word row col d self) as [[[s valid] | e] self0];
    [|discriminate].
  destruct valid; simpl.
  - intros H. injection H as <- <-. now left.
  - unfold Board.bindM at 1.
    destruct (Board.undo_play self0) as [[[] | e] s2] eqn:Eu; [|discriminate].
    intros H. injection H as <- <-. right. now exists s, self0.
Qed.

Lemma undo_after_set_word (self self1 : Board.t) (word : string)
  (row col : Z) (d : Board.Direction) (res : Z * bool) :
  Board.set_word word row col d self = (Ok res, self1) ->
  Board.undo_play self1
  = (Ok tt,
     Board.with_last_play (Board.with_board self1 (Board.board self)) []).
Proof.
  intros H.
  destruct (set_word_inv _ _ _ _ _ _ _ H) as [v Hinv].
  pose proof (attempt_inv_undo _ _ _ _ _ Hinv) as Hundo.
  unfold Board.undo_play, Board.bindM at 1.
  rewrite clear_cells_spec.
  - rewrite Hundo. reflexivity.
  - intros coord Hin.
    destruct (inv_written _ _ _ _ _ Hinv coord Hin)
      as (a & b & _ & [tile c] & _).
    rewrite c. repeat split; try assumption. discriminate.
Qed.

End AfterSetWord.

Section Spell.

Variables (is_first_play : bool) (cr cc : Z) (d : Board.Direction).

Lemma spec_tile_grid_set_other (g : Board.Grid) (row col r c : Z)
  (v : option ascii) :
  0 <= row -> 0 <= col -> (r, c) <> (row, col) ->
  spec_tile (grid_set g (Z.to_nat row) (Z.to_nat col) v) r c
  = spec_tile g r c.
Proof.
  intros Hrow Hcol Hne. unfold spec_tile.
  rewrite (shape_on_grid _ g r c (shape_grid_set g _ _ _)).
  destruct (spec_on_grid g r c) eqn:E; [|reflexivity].
  unfold spec_on_grid in E.
  rewrite !andb_true_iff, !Z.leb_le, !Z.ltb_lt in E.
  rewrite slot_grid_set_ne; [reflexivity |].
  intros H. injection H as H1 H2. apply Hne. f_equal; lia.
Qed.

Lemma place_letter_other (letter : ascii) (v v' : Board.Vars)
  (self self' : Board.t) (r c : Z) :
  Board.place_letter is_first_play cr cc d letter v self = (Ok v', self') ->
  (r, c) <> (Board.row v, Board.col v) ->
  spec_tile (Board.board self') r c = spec_tile (Board.board self) r c.
Proof.
  intros H Hne. apply place_letter_cases in H.
  destruct H as (_ & _ & Hcase).
  destruct (Board._is_valid_coord self (Board.row v) (Board.col v)) eqn:Ev.
  2:{ now destruct Hcase as (-> & _). }
  destruct (valid_coord_nonneg _ _ _ Ev) as [[Hr _] [Hc _]].
  destruct Hcase as (here & touch & _ & _ & _ & _ & Hhere).
  destruct here as [tile|]; destruct Hhere as (-> & _); [reflexivity |].
  simpl. now apply spec_tile_grid_set_other.
Qed.

Lemma place_letter_here (letter : ascii) (v v' : Board.Vars)
  (self self' : Board.t) :
  Board.place_letter is_first_play cr cc d letter v self = (Ok v', self') ->
  Board.valid_play v' = true ->
  Board.valid_play v = true
  /\ spec_tile (Board.board self') (Board.row v) (Board.col v) = Some letter.
Proof.
  intros H Hvalid. apply place_letter_cases in H.
  destruct H as (_ & _ & Hcase).
  destruct (Board._is_valid_coord self (Board.row v) (Board.col v)) eqn:Ev.
  2:{ destruct Hcase as (_ & Hf & _). congruence. }
  destruct (valid_coord_nonneg _ _ _ Ev) as [[Hr _] [Hc _]].
  destruct Hcase as (here & touch & Hcell & _ & _ & _ & Hhere).
  rewrite cell_nonneg in Hcell by assumption.
  destruct (slot (Board.board self) (Z.to_nat (Board.row v))
              (Z.to_nat (Board.col v))) as [x|] eqn:Es; [|discriminate].
  injection Hcell as ->.
  destruct here as [tile|]; destruct Hhere as (-> & Hvp).
  - rewrite Hvalid in Hvp. symmetry in Hvp.
    apply andb_true_iff in Hvp. destruct Hvp as [Hv Heq].
    apply Ascii.eqb_eq in Heq. subst tile. split; [exact Hv |].
    unfold spec_tile.
    change (spec_on_grid (Board.board self) (Board.row v) (Board.col v))
      with (Board._is_valid_coord self (Board.row v) (Board.col v)).
    now rewrite Ev, Es.
  - split; [congruence |]. simpl. unfold spec_tile.
    rewrite (shape_on_grid _ (Board.board self) _ _ (shape_grid_set _ _ _ _)).
    change (spec_on_grid (Board.board self) (Board.row v) (Board.col v))
      with (Board._is_valid_coord self (Board.row v) (Board.col v)).
    rewrite Ev. now rewrite (slot_grid_set_eq _ _ _ _ _ Es).
Qed.

Lemma place_letters_behind (word : string) :
  forall (v v' : Board.Vars) (self self' : Board.t) (r c : Z),
    Board.place_letters is_first_play cr cc d word v self = (Ok v', self') ->
    behind d (Board.row v) (Board.col v) (r, c) ->
    spec_tile (Board.board self') r c = spec_tile (Board.board self) r c.
Proof.
  induction word as [|letter word IH]; intros v v' self self' r c H Hb.
  - now injection H as <- <-.
  - simpl in H. unfold Board.bindM in H.
    destruct (Board.place_letter is_first_play cr cc d letter v self)
      as [[v1 | e] self1] eqn:E1; [|discriminate].
    destruct (place_letter_cases _ _ _ _ _ _ _ _ _ E1) as (Hrow & Hcol & _).
    rewrite (IH _ _ _ _ r c H).
    + eapply place_letter_other; [exact E1 |].
      intros E. injection E as -> ->.
      now apply (behind_irrefl d (Board.row v) (Board.col v)).
    + rewrite Hrow, Hcol. now apply behind_advance.
Qed.

Lemma place_letters_spell (word : string) :
  forall (v v' : Board.Vars) (self self' : Board.t),
    Board.place_letters is_first_play cr cc d word v self = (Ok v', self') ->
    Board.valid_play v' = true ->
    Board.valid_play v = true
    /\ tiles_spell (Board.board self') word (Board.row v) (Board.col v) d.
Proof.
  induction word as [|letter word IH]; intros v v' self self' H Hvalid.
  - injection H as <- <-. now split.
  - simpl in H. unfold Board.bindM in H.
    destruct (Board.place_letter is_first_play cr cc d letter v self)
      as [[v1 | e] self1] eqn:E1; [|discriminate].
    destruct (place_letter_cases _ _ _ _ _ _ _ _ _ E1) as (Hrow & Hcol & _).
    destruct (IH _ _ _ _ H Hvalid) as [Hv1 Hspell].
    destruct (place_letter_here _ _ _ _ _ E1 Hv1) as [Hv Hhere].
    split; [exact Hv |]. simpl. split.
    + rewrite <- Hhere. eapply place_letters_behind; [exact H |].
      rewrite Hrow, Hcol. apply behind_current.
    + now rewrite <- Hrow, <- Hcol.
Qed.

End Spell.

(** X16.  After any [play_word] that returns, accepted or not, [undo_play]
    gives back the grid as it was before the play and leaves
    [last_play] empty. *)
Theorem undo_play_reverts_play_word (self self1 : Board.t) (word : string)
  (row col : Z) (d : Board.Direction) (score : Z) :
  Board.play_word word row col d self = (Ok score, self1) ->
  exists self2,
    Board.undo_play self1 = (Ok tt, self2)
    /\ Board.board self2 = Board.board self
    /\ Board.last_play self2 = [].
Proof.
  intros H. apply play_word_cases in H.
  destruct H as [H | (s & self0 & H & _ & Hu)].
  - rewrite (undo_after_set_word _ _ _ _ _ _ _ H).
    eexists. split; [reflexivity |]. split; reflexivity.
  - rewrite (undo_after_set_word _ _ _ _ _ _ _ H) in Hu.
    injection Hu as <-. eexists. split; [reflexivity |].
    split; reflexivity.
Qed.

Lemma undo_play_reverts_play_word_witness :
  exists self2,
    Board.undo_play (snd (Board.play_word "BROOK" 7 3 Board.RIGHT
                                          scrabble_board))
    = (Ok tt, self2)
    /\ Board.board self2 = Board.board scrabble_board
    /\ Board.last_play self2 = [].
Proof.
  apply (undo_play_reverts_play_word scrabble_board _ "BROOK" 7 3
                                     Board.RIGHT 28).
  vm_compute. reflexivity.
Defined.

(** X17.  On a board whose grid the constructor made itself (its rows
    are distinct lists), after any plays: when [set_word] returns,
    accepted or not, the rows have kept their lengths, every tile that
    was on the grid is still there, and the cells that changed are
    cells of [last_play]: each was empty and holds a tile now. *)
Theorem set_word_only_fills_empty_cells (self self1 : Board.t)
  (word : string) (row col : Z) (d : Board.Direction) (res : Z * bool) :
  constructed self ->
  Board.set_word word row col d self = (Ok res, self1) ->
  shape (Board.board self1) = shape (Board.board self)
  /\ (forall r c tile,
         slot (Board.board self) r c = Some (Some tile) ->
         slot (Board.board self1) r c = Some (Some tile))
  /\ (forall r c,
         slot (Board.board self1) r c <> slot (Board.board self) r c ->
         In (Z.of_nat r, Z.of_nat c) (Board.last_play self1))
  /\ (forall coord,
         In coord (Board.last_play self1) ->
         0 <= fst coord /\ 0 <= snd coord
         /\ slot (Board.board self) (Z.to_nat (fst coord))
                 (Z.to_nat (snd coord)) = Some None
         /\ exists tile,
             slot (Board.board self1) (Z.to_nat (fst coord))
                  (Z.to_nat (snd coord)) = Some (Some tile)).
Proof.
  intros _ H. destruct (set_word_inv _ _ _ _ _ _ _ H) as [v [Hs Hsame Hw]].
  split; [exact Hs |]. split; [|split].
  - intros r c tile Ht. rewrite Hsame; [exact Ht |].
    intros Hin. destruct (Hw _ Hin) as (_ & _ & H0 & _).
    simpl in H0. rewrite !Nat2Z.id in H0. congruence.
  - intros r c Hne.
    destruct (in_dec coord_eq_dec (Z.of_nat r, Z.of_nat c)
                     (Board.last_play self1)) as [Hin | Hnin];
      [exact Hin |].
    elim Hne. now apply Hsame.
  - intros coord Hin. destruct (Hw _ Hin) as (a & b & c & e & _).
    repeat split; assumption.
Qed.

Lemma set_word_only_fills_empty_cells_witness :
  slot (Board.board
          (snd (Board.set_word "JAR" 5 4 Board.DOWN
                  (snd (Board.play_word "BROOK" 7 3 Board.RIGHT
                                        scrabble_board))))) 7 3
  = Some (Some "B"%char).
Proof.
  assert (H : Board.set_word "JAR" 5 4 Board.DOWN
                (snd (Board.play_word "BROOK" 7 3 Board.RIGHT
                                      scrabble_board))
              = (Ok (10, true),
                 snd (Board.set_word "JAR" 5 4 Board.DOWN
                        (snd (Board.play_word "BROOK" 7 3 Board.RIGHT
                                              scrabble_board)))))
    by (vm_compute; reflexivity).
  assert (Hc : constructed
                 (snd (Board.play_word "BROOK" 7 3 Board.RIGHT
                                       scrabble_board)))
    by (apply constructed_play_word, scrabble_board_constructed).
  apply (proj1 (proj2
           (set_word_only_fills_empty_cells _ _ _ _ _ _ _ Hc H))).
  vm_compute. reflexivity.
Defined.

(** X18.  When [set_word] accepts a play, the tiles on the grid from
    [(row, col)] on, in the direction of the play, spell the
    upper-cased word. *)
Theorem accepted_word_is_on_the_board (self self1 : Board.t)
  (word : string) (row col : Z) (d : Board.Direction) (score : Z) :
  Board.set_word word row col d self = (Ok (score, true), self1) ->
  tiles_spell (Board.board self1) (Py.upper word) row col d.
Proof.
  unfold Board.set_word.
  cbv [Board.bindM Board.last_play_clear Board.read Board.ret].
  destruct (Py.getitem (Board.board (Board.with_last_play self [])) 0)
    as [r0 | e]; simpl; [|discriminate].
  match goal with
  | |- context [Board.place_letters ?f ?cr ?cc ?dd ?w ?v0 ?s] =>
      destruct (Board.place_letters f cr cc dd w v0 s)
        as [[v | e] s1] eqn:E; [|discriminate]
  end.
  intros H. injection H as _ Hvalid <-.
  assert (Hv : Board.valid_play v = true).
  { repeat match type of Hvalid with
           | context [if ?b then _ else _] => destruct b
           end; congruence. }
  apply (place_letters_spell _ _ _ _ _ _ _ _ _ E Hv).
Qed.

Lemma accepted_word_is_on_the_board_witness :
  tiles_spell
    (Board.board
       (snd (Board.set_word "jar" 5 4 Board.DOWN
               (snd (Board.play_word "BROOK" 7 3 Board.RIGHT
                                     scrabble_board)))))
    "JAR" 5 4 Board.DOWN.
Proof.
  apply (accepted_word_is_on_the_board
           (snd (Board.play_word "BROOK" 7 3 Board.RIGHT scrabble_board))
           _ "jar" 5 4 Board.DOWN 10).
  vm_compute. reflexivity.
Defined.

(** X19.  On a grid whose rows are equally long, [_is_touching_word] at a
    valid coordinate never raises: every neighbour read is guarded by
    [_is_valid_coord].  While no letter of the play is recorded in
    [last_play], it answers True exactly when the cell or one of its
    four orthogonal neighbours holds a tile. *)
Theorem is_touching_word_guards_its_reads (self : Board.t) (row col : Z)
  (d : Board.Direction) :
  rectangular (Board.board self) ->
  Board._is_valid_coord self row col = true ->
  (exists touching, Board._is_touching_word self row col d = Ok touching)
  /\ (Board.last_play self = [] ->
      Board._is_touching_word self row col d
      = Ok (spec_touches (Board.board self) row col)).
Proof.
  intros Hrect Hv. rewrite (is_touching_word_spec self Hrect row col d Hv).
  split; [eexists; reflexivity |].
  intros ->. simpl. f_equal. unfold touching_code, spec_touches.
  destruct d;
    destruct (spec_occupied (Board.board self) row col),
      (spec_occupied (Board.board self) (row - 1) col),
      (spec_occupied (Board.board self) (row + 1) col),
      (spec_occupied (Board.board self) row (col - 1)),
      (spec_occupied (Board.board self) row (col + 1)); reflexivity.
Qed.

Lemma is_touching_word_guards_its_reads_witness :
  let self := Board.with_last_play board_after_brooklyn [] in
  Board._is_touching_word self 6 14 Board.DOWN = Ok true
  /\ Board._is_touching_word self 0 14 Board.DOWN = Ok false.
Proof.
  intros self.
  assert (Hrect : rectangular (Board.board self))
    by (apply rectangular_check; vm_compute; reflexivity).
  assert (H1 : Board._is_valid_coord self 6 14 = true)
    by (vm_compute; reflexivity).
  assert (H2 : Board._is_valid_coord self 0 14 = true)
    by (vm_compute; reflexivity).
  split.
  - rewrite (proj2 (is_touching_word_guards_its_reads
                      self 6 14 Board.DOWN Hrect H1) eq_refl).
    vm_compute. reflexivity.
  - rewrite (proj2 (is_touching_word_guards_its_reads
                      self 0 14 Board.DOWN Hrect H2) eq_refl).
    vm_compute. reflexivity.
Defined.

(** ** The dictionary as a dict *)

Section DictOfPairs.

Context {V : Type}.

(** Assigning [v] to [k] in a dict whose entry for [k], if any, holds
    [v] already adds the entry and changes no other. *)
Lemma dict_set_In (k : string) (v : V) (l : list (string * V))
  (kv : string * V) :
  (forall v0, In (k, v0) l -> v0 = v) ->
  (In kv (dict_set k v l) <-> In kv l \/ kv = (k, v)).
Proof.
  induction l as [|[k0 v0] l IH]; simpl; intros Hsame.
  - intuition congruence.
  - destruct (String.eqb_spec k0 k) as [-> | Hne]; simpl.
    + rewrite (Hsame v0 (or_introl eq_refl)). intuition congruence.
    + rewrite IH by (intros v1 H1; apply Hsame; now right). tauto.
Qed.

Lemma fold_dict_set_spec (pairs : list (string * V)) :
  forall acc,
    NoDup (map fst acc) ->
    (forall k a b, In (k, a) (acc ++ pairs) -> In (k, b) (acc ++ pairs) ->
                   a = b) ->
    NoDup (map fst (fold_left (fun dct wd => dict_set (fst wd) (snd wd) dct)
                              pairs acc))
    /\ (forall kv,
           In kv (fold_left (fun dct wd => dict_set (fst wd) (snd wd) dct)
                            pairs acc)
           <-> In kv acc \/ In kv pairs).
Proof.
  induction pairs as [|[k v] pairs IH]; intros acc Hnd Hfun; simpl.
  - split; [exact Hnd | intros kv; tauto].
  - assert (Hset : forall kv,
               In kv (dict_set k v acc) <-> In kv acc \/ kv = (k, v)).
    { intros kv. apply dict_set_In. intros v0 H0.
      apply (Hfun k); apply in_or_app; [now left | right; now left]. }
    destruct (IH (dict_set k v acc)) as [H1 H2].
    + now apply dict_set_NoDup.
    + intros k' a b Ha Hb. apply (Hfun k').
      * apply in_app_or in Ha. apply in_or_app.
        destruct Ha as [Ha | Ha]; [|right; now right].
        apply Hset in Ha. destruct Ha as [Ha | Ha]; [now left |].
        right. left. now symmetry.
      * apply in_app_or in Hb. apply in_or_app.
        destruct Hb as [Hb | Hb]; [|right; now right].
        apply Hset in Hb. destruct Hb as [Hb | Hb]; [now left |].
        right. left. now symmetry.
    + split; [exact H1 |]. intros kv. rewrite H2, Hset.
      intuition congruence.
Qed.

End DictOfPairs.

(** X20.  On a trie built by insert, [get_dct] holds every stored
    non-empty word exactly once, with its definition, or with the empty
    string when the dictionary keeps no definitions; the empty word is
    never a key. *)
Theorem get_dct_holds_the_stored_words (d : Dictionary.t) :
  unique_keys (Trie.root (Dictionary.dct d)) ->
  NoDup (map fst (get_dct d))
  /\ (forall w df,
         In (w, df) (get_dct d)
         <-> w <> ""
             /\ Trie.search (Dictionary.dct d) w = true
             /\ (if Dictionary.use_defs d
                 then Trie.get_defn (Dictionary.dct d) w = Some df
                 else df = "")).
Proof.
  intros Hwf. unfold get_dct.
  destruct (Dictionary.use_defs d).
  - destruct (fold_dict_set_spec
                (Trie.walk_trie_defs (Trie.root (Dictionary.dct d)) "") [])
      as [H1 H2].
    + constructor.
    + simpl. intros k a b Ha Hb.
      apply (stored_pairs _ _ _ Hwf) in Ha, Hb.
      destruct Ha as (_ & _ & Ha), Hb as (_ & _ & Hb). congruence.
    + split; [exact H1 |]. intros w df. rewrite H2. simpl.
      rewrite (stored_pairs _ _ _ Hwf). tauto.
  - destruct (fold_dict_set_spec
                (map (fun word => (word, ""))
                     (Trie.walk_trie (Trie.root (Dictionary.dct d)) "")) [])
      as [H1 H2].
    + constructor.
    + simpl. intros k a b Ha Hb.
      apply in_map_iff in Ha, Hb.
      destruct Ha as (x & Hx & _), Hb as (y & Hy & _). congruence.
    + split; [exact H1 |]. intros w df. rewrite H2. simpl.
      rewrite in_map_iff. unfold Trie.search. split.
      * intros [[] | (x & Hx & Hin)]. injection Hx as -> <-.
        apply (walk_trie_spec _ _ _ Hwf) in Hin.
        destruct Hin as (suffix & m & Hne & -> & Hd & He). simpl.
        rewrite Hd. auto.
      * intros (Hne & Hs & ->). right. exists w. split; [reflexivity |].
        apply (walk_trie_spec _ _ _ Hwf).
        destruct (Trie.descend (Trie.root (Dictionary.dct d)) w) as [m|] eqn:Hd;
          [|discriminate].
        now exists w, m.
Qed.

Lemma get_dct_holds_the_stored_words_witness :
  let d := dictionary_of [("EAT", "consume"); ("", "nothing");
                          ("CAT", "feline"); ("EAT", "take in")] in
  NoDup (map fst (get_dct d))
  /\ (forall w df,
         In (w, df) (get_dct d)
         <-> w <> ""
             /\ Trie.search (Dictionary.dct d) w = true
             /\ (if Dictionary.use_defs d
                 then Trie.get_defn (Dictionary.dct d) w = Some df
                 else df = "")).
Proof.
  apply (get_dct_holds_the_stored_words
           (dictionary_of [("EAT", "consume"); ("", "nothing");
                           ("CAT", "feline"); ("EAT", "take in")])).
  apply trie_of_unique_keys.
Defined.
